(** * LaSRC atmospheric-correction engine: [lut_subr.c]

    A shallow embedding of the per-pixel interpolation engine of
    [src/lasrc/c_version/src/lut_subr.c] and the properties of it that the
    specification states.

    Numeric model.  A C [float] or [double] is a real number and the
    arithmetic is exact: rounding, overflow, infinities and NaN are outside
    the model, and an equality of two results is an equality of real
    numbers.  Division is the total division of the Standard Library; where
    a property rests on a divisor, its statement says whether the divisor is
    zero, and where it rests on the outcome of a division by zero the
    division is [float_div], whose result is then no real number.  The
    [libm] calls are the real functions of the Standard
    Library: [exp], [log] is [ln], [pow x y] is [Rpower x y], [sqrt], [cos],
    [acos].  A C [int] is an unbounded [Z]; the conversion [(int) x]
    truncates toward zero.  A C array is the function reading it
    ([a i] for [a[i]]); reads outside the allocated extent are not
    modelled. *)

From Stdlib Require Import Reals ZArith Lia Lra String List Bool.
Import ListNotations.
Local Open Scope Z_scope.
Local Open Scope R_scope.

(** ** Data model *)

Definition farray := Z -> R.
Definition iarray := Z -> Z.

Definition of_list (l : list R) : farray := fun i => nth (Z.to_nat i) l 0.

(** [(int) x] on a floating value: the fractional part is discarded. *)
Definition int_of_float (x : R) : Z :=
  if Rlt_dec x 0 then Zceil x else Zfloor x.

(** [for (i = i0; ...; i++) s = body (i, s);] run [n] times. *)
Fixpoint for_loop {S : Type} (n : nat) (i : Z) (body : Z -> S -> S) (s : S) : S :=
  match n with
  | O => s
  | Datatypes.S n' => for_loop n' (i + 1)%Z body (body i s)
  end.

(** The satellites the source distinguishes. *)
Inductive Sat_t := SAT_LANDSAT_8 | SAT_LANDSAT_9 | SAT_SENTINEL_2.

Inductive status := SUCCESS | ERROR.

(** What an [int]-returning routine with output parameters hands back:
    the outputs on [SUCCESS], the message given to [error_handler] on
    [ERROR] (the outputs are then left untouched). *)
Inductive result (A : Type) : Type :=
| Success (a : A)
| Error (errmsg : string).
Arguments Success {A} a.
Arguments Error {A} errmsg.

Definition retval {A : Type} (r : result A) : status :=
  match r with Success _ => SUCCESS | Error _ => ERROR end.

(** The constants of [lut_subr.h] and [common.h], which are not part of the
    sources at hand, are parameters of the development. *)
Class lut_header := {
  NPRES_VALS : Z;
  NAOT_VALS : Z;
  NSOLAR_VALS : Z;
  NSUNANGLE_VALS : Z;
  NAOTxNSOLAR_VALS : Z;
  NAOTxNSUNANGLE_VALS : Z;
  NSOLAR_ZEN_VALS : Z;
  DNL_BAND7 : Z;
  DNS_BAND12 : Z;
  ONE_DIV_ATMOS_PRES_0 : R;
  DEG2RAD : R;
  RAD2DEG : R
}.

Definition landsat_lambda : farray :=
  of_list [0.443; 0.480; 0.585; 0.655; 0.865; 1.61; 2.2].

(** Bands 9 and 10 skipped, the default build. *)
Definition sentinel_lambda : farray :=
  of_list [0.443; 0.490; 0.560; 0.665; 0.705; 0.740; 0.783; 0.842; 0.865;
           1.61; 2.19].

(** ** Gas transmission model *)

(** [comptg]: the outputs are [( *tgoz, *tgwv, *tgwvhalf, *tgog )]. *)
Definition comptg (iband : Z) (xmus xmuv uoz uwv atm_pres : R)
    (ogtransa1 ogtransb0 ogtransb1 wvtransa wvtransb oztransa : farray)
    : R * R * R * R :=
  let m := 1.0 / xmus + 1.0 / xmuv in
  let tgoz := exp (oztransa iband * m * uoz) in
  let a := wvtransa iband in
  let b := wvtransb iband in
  let x := m * uwv in
  let tgwv := if Rgt_dec x 1.0e-06 then exp (- a * Rpower x b) else 1.0 in
  let x := x * 0.5 in
  let tgwvhalf := if Rgt_dec x 1.0e-06 then exp (- a * Rpower x b) else 1.0 in
  let tgog := - (ogtransa1 iband * atm_pres) *
              Rpower m (exp (- (ogtransb0 iband + ogtransb1 iband * atm_pres))) in
  let tgog := exp tgog in
  (tgoz, tgwv, tgwvhalf, tgog).

Section Engine.

Context {hdr : lut_header}.

(** ** Molecular (Rayleigh) reflectance model *)

(** [local_chand]: the value stored in [*xrray]. *)
Definition local_chand (xphi xmuv xmus xtau : R) : R :=
  let xfd := 0.958725777 in
  let as0 := of_list [0.33243832; - 6.777104e-02; 0.16285370; 1.577425e-03;
                      - 0.30924818; - 1.240906e-02; - 0.10324388;
                      3.241678e-02; 0.11493334; - 3.503695e-02] in
  let as1 := of_list [0.19666292; - 5.439061e-02] in
  let as2 := of_list [0.14545937; - 2.910845e-02] in
  let phios := xphi * DEG2RAD in
  let xcosf2 := - cos phios in
  let xcosf3 := cos (2.0 * phios) in
  let xmus2 := xmus * xmus in
  let xmuv2 := xmuv * xmuv in
  let xph1 := 1.0 + (3.0 * xmus2 - 1.0) * (3.0 * xmuv2 - 1.0) * xfd * 0.125 in
  let xph3 := (1.0 - xmus2) * (1.0 - xmuv2) in
  let xph2 := - xmus * xmuv * sqrt xph3 in
  let xph2 := xph2 * xfd * 0.75 in
  let xph3 := xph3 * xfd * 0.1875 in
  let xitm := (1.0 - exp (- xtau * (1.0 / xmus + 1.0 / xmuv))) /
              (4 * (xmus + xmuv)) in
  let xp1 := xph1 * xitm in
  let xp2 := xph2 * xitm in
  let xp3 := xph3 * xitm in
  let xitm := (1.0 - exp (- xtau / xmus)) * (1.0 - exp (- xtau / xmuv)) in
  let cfonc1 := xph1 * xitm in
  let cfonc2 := xph2 * xitm in
  let cfonc3 := xph3 * xitm in
  let xlntau := ln xtau in
  let pl0 := 1.0 in
  let pl1 := xlntau in
  let pl2 := xmus + xmuv in
  let pl3 := xlntau * pl2 in
  let pl4 := xmus * xmuv in
  let pl5 := xlntau * pl4 in
  let pl6 := xmus2 + xmuv2 in
  let pl7 := xlntau * pl6 in
  let pl8 := xmus2 * xmuv2 in
  let pl9 := xlntau * pl8 in
  let pl := of_list [pl0; pl1; pl2; pl3; pl4; pl5; pl6; pl7; pl8; pl9] in
  let fs0 := for_loop 10 0%Z (fun i fs0 => fs0 + pl i * as0 i) 0.0 in
  let fs1 := pl 0%Z * as1 0%Z + pl 1%Z * as1 1%Z in
  let fs2 := pl 0%Z * as2 0%Z + pl 1%Z * as2 1%Z in
  let xitot1 := xp1 + cfonc1 * fs0 in
  let xitot2 := xp2 + cfonc2 * fs1 in
  let xitot3 := xp3 + cfonc3 * fs2 in
  xitot1 + 2 * (xitot2 * xcosf2 + xitot3 * xcosf3).

(** ** Atmospheric field composer *)

(** [compsalb]: the value stored in [*satm]. *)
Definition compsalb (ip1 ip2 iaot1 iaot2 : Z) (raot550nm : R) (iband : Z)
    (pres : R) (tpres aot550nm sphalbt normext : farray) : R :=
  let deltaaot := raot550nm - aot550nm iaot1 in
  let deltaaot := deltaaot / (aot550nm iaot2 - aot550nm iaot1) in
  let iband_indx := (iband * NPRES_VALS * NAOT_VALS)%Z in
  let ip1_indx := (ip1 * NAOT_VALS)%Z in
  let ip2_indx := (ip2 * NAOT_VALS)%Z in
  let iband_ip1_iaot1_indx := (iband_indx + ip1_indx + iaot1)%Z in
  let iband_ip1_iaot2_indx := (iband_indx + ip1_indx + iaot2)%Z in
  let iband_ip2_iaot1_indx := (iband_indx + ip2_indx + iaot1)%Z in
  let iband_ip2_iaot2_indx := (iband_indx + ip2_indx + iaot2)%Z in
  let xtiaot1 := sphalbt iband_ip1_iaot1_indx in
  let xtiaot2 := sphalbt iband_ip1_iaot2_indx in
  let satm1 := xtiaot1 + (xtiaot2 - xtiaot1) * deltaaot in
  let xtiaot1 := sphalbt iband_ip2_iaot1_indx in
  let xtiaot2 := sphalbt iband_ip2_iaot2_indx in
  let satm2 := xtiaot1 + (xtiaot2 - xtiaot1) * deltaaot in
  let dpres := (pres - tpres ip1) / (tpres ip2 - tpres ip1) in
  satm1 + (satm2 - satm1) * dpres.

(** Lines 636-640 of [comptrans] (and 286-290 of [atmcorlamb2], the same
    statements): the index in the sun angle table. *)
Definition sun_angle_index (xts xtsstep xtsmin : R) : Z :=
  if Rle_dec xts xtsmin then 0%Z
  else int_of_float ((xts - xtsmin) / xtsstep).

(** [comptrans].  The routine is [void] and writes its result through the
    pointer [xtts]; the last argument is the content of [*xtts] at the call
    and the value is its content at the return.  On the early [return] of
    line 645 nothing is stored. *)
Definition comptrans (ip1 ip2 iaot1 iaot2 : Z) (xts raot550nm : R) (iband : Z)
    (pres : R) (tpres aot550nm transt : farray) (xtsstep xtsmin : R)
    (tts : farray) (xtts : R) : R :=
  let its := sun_angle_index xts xtsstep xtsmin in
  if (its >? 19)%Z then xtts
  else
    let iband_indx := (iband * NPRES_VALS * NAOTxNSUNANGLE_VALS)%Z in
    let ip1_indx := (ip1 * NAOTxNSUNANGLE_VALS)%Z in
    let ip2_indx := (ip2 * NAOTxNSUNANGLE_VALS)%Z in
    let iaot1_indx := (iaot1 * NSUNANGLE_VALS)%Z in
    let iaot2_indx := (iaot2 * NSUNANGLE_VALS)%Z in
    let iband_ip1_iaot1_indx := (iband_indx + ip1_indx + iaot1_indx)%Z in
    let iband_ip1_iaot2_indx := (iband_indx + ip1_indx + iaot2_indx)%Z in
    let iband_ip2_iaot1_indx := (iband_indx + ip2_indx + iaot1_indx)%Z in
    let iband_ip2_iaot2_indx := (iband_indx + ip2_indx + iaot2_indx)%Z in
    let xmts := (xts - tts its) * 0.25 in
    let xtranst := transt (iband_ip1_iaot1_indx + its)%Z in
    let xtiaot1 :=
      xtranst + (transt (iband_ip1_iaot1_indx + its + 1)%Z - xtranst) * xmts in
    let xtranst := transt (iband_ip1_iaot2_indx + its)%Z in
    let xtiaot2 :=
      xtranst + (transt (iband_ip1_iaot2_indx + its + 1)%Z - xtranst) * xmts in
    let deltaaot := raot550nm - aot550nm iaot1 in
    let deltaaot := deltaaot / (aot550nm iaot2 - aot550nm iaot1) in
    let xtts1 := xtiaot1 + (xtiaot2 - xtiaot1) * deltaaot in
    let xtranst := transt (iband_ip2_iaot1_indx + its)%Z in
    let xtiaot1 :=
      xtranst + (transt (iband_ip2_iaot1_indx + its + 1)%Z - xtranst) * xmts in
    let xtranst := transt (iband_ip2_iaot2_indx + its)%Z in
    let xtiaot2 :=
      xtranst + (transt (iband_ip2_iaot2_indx + its + 1)%Z - xtranst) * xmts in
    let xtts2 := xtiaot1 + (xtiaot2 - xtiaot1) * deltaaot in
    let dpres := (pres - tpres ip1) / (tpres ip2 - tpres ip1) in
    xtts1 + (xtts2 - xtts1) * dpres.

(** Lines 641-646 of [comptrans]: the message the routine hands to
    [error_handler] before its early [return], if any.  It is all the caller
    can notice: [comptrans] has no return value. *)
Definition comptrans_errmsg (xts xtsstep xtsmin : R) : option string :=
  if (sun_angle_index xts xtsstep xtsmin >? 19)%Z
  then Some "Zenith angle (xts) is too large: %f"%string
  else None.

(** ** Scattering-angle interpolator *)

(** Lines 739-752 of [interp_refl_using_scat_angle]: the bracket index
    [isca] and the two scattering angles [sca1], [sca2] of one corner. *)
Definition scat_bracket (xtsmax_i xtsmin_i scaa nbfi_i : R) : Z * R * R :=
  let isca := int_of_float ((xtsmax_i - scaa) * 0.25 + 1) in
  let isca := if (isca <=? 0)%Z then 1%Z else isca in
  if Rlt_dec (IZR (isca + 1)) nbfi_i then
    let sca1 := xtsmax_i - IZR (isca - 1) * 4.0 in
    let sca2 := sca1 - 4 in
    (isca, sca1, sca2)
  else
    let isca := int_of_float (nbfi_i - 1) in
    let sca1 := xtsmax_i - IZR (isca - 1) * 4.0 in
    let sca2 := xtsmin_i in
    (isca, sca1, sca2).

(** [interp_refl_using_scat_angle]; [ro i] is what iteration [i] of the loop
    stores in [ro[i]], and [is'] stands for the loop's local [is]. *)
Definition interp_refl_using_scat_angle (its itv : Z) (xtsmax xtsmin : farray)
    (scaa : R) (nbfic nbfi : farray) (indts : iarray) (rolutt : farray)
    (rolutt_indx : Z) (t u : R) : R :=
  let ro (i : Z) : R :=
    let is' := (its + Z.rem i 2)%Z in
    let iv := if (i <? 2)%Z then itv else (itv + 1)%Z in
    let j := int_of_float (IZR (indts is') + nbfic i - nbfi i) in
    if negb (is' =? 0)%Z && negb (iv =? 0)%Z then
      let '(isca, sca1, sca2) :=
        scat_bracket (xtsmax i) (xtsmin i) scaa (nbfi i) in
      let roinf := rolutt (rolutt_indx + j + isca - 1)%Z in
      let rosup := rolutt (rolutt_indx + j + isca)%Z in
      roinf + (rosup - roinf) * (scaa - sca1) / (sca2 - sca1)
    else
      rolutt (rolutt_indx + j)%Z in
  ro 3%Z
  + u * (ro 1%Z - ro 3%Z)
  + t * (ro 2%Z - ro 3%Z)
  + u * t * (ro 0%Z - ro 1%Z - ro 2%Z + ro 3%Z).

(** The logarithms of the AOT grid that [comproatm] carries as a local
    constant array. *)
Definition logaot550nm : farray :=
  of_list [- 4.605170186; - 2.995732274; - 2.302585093;
           - 1.897119985; - 1.609437912; - 1.203972804;
           - 0.916290732; - 0.510825624; - 0.223143551;
           0.000000000; 0.182321557; 0.336472237;
           0.470003629; 0.587786665; 0.693157181;
           0.832909123; 0.955511445; 1.098612289;
           1.252762969; 1.386294361; 1.504077397;
           1.609437912].

(** Lines 910-911 of [comproatm]: the local [deltaaot]. *)
Definition comproatm_deltaaot (iaot1 iaot2 : Z) (raot550nm : R) : R :=
  let deltaaot := logaot550nm iaot2 - logaot550nm iaot1 in
  (ln raot550nm - logaot550nm iaot1) / deltaaot.

(** [four_pts a b c d] is a local array of [FOUR_PTS] floats. *)
Definition four_pts (a b c d : R) : farray := of_list [a; b; c; d].

(** [comproatm]: the value stored in [*roatm]. *)
Definition comproatm (ip1 ip2 iaot1 iaot2 : Z)
    (xts xtv xmus xmuv cosxfi raot550nm : R) (iband : Z) (pres : R)
    (tpres aot550nm rolutt tsmax tsmin nbfic nbfi tts : farray)
    (indts : iarray) (ttv : farray) (xtsstep xtvstep xtvmin : R)
    (its itv : Z) : R :=
  let cscaa := - xmus * xmuv -
               cosxfi * sqrt (1.0 - xmus * xmus) * sqrt (1.0 - xmuv * xmuv) in
  let scaa := acos cscaa * RAD2DEG in
  let itv_its_indx := (itv * NSOLAR_ZEN_VALS + its)%Z in
  let itv_its_indx_1 := (itv_its_indx + 1)%Z in
  let itv1_its_indx := (itv_its_indx + NSOLAR_ZEN_VALS)%Z in
  let itv1_its_indx_1 := (itv1_its_indx + 1)%Z in
  let nbficl := four_pts (nbfic itv_its_indx) (nbfic itv_its_indx_1)
                         (nbfic itv1_its_indx) (nbfic itv1_its_indx_1) in
  let nbfil := four_pts (nbfi itv_its_indx) (nbfi itv_its_indx_1)
                        (nbfi itv1_its_indx) (nbfi itv1_its_indx_1) in
  let xtsmax := four_pts (tsmax itv_its_indx) (tsmax itv_its_indx_1)
                         (tsmax itv1_its_indx) (tsmax itv1_its_indx_1) in
  let xtsmin := four_pts (tsmin itv_its_indx) (tsmin itv_its_indx_1)
                         (tsmin itv1_its_indx) (tsmin itv1_its_indx_1) in
  let iband_indx := (iband * NPRES_VALS * NAOTxNSOLAR_VALS)%Z in
  let ip1_indx := (ip1 * NAOTxNSOLAR_VALS)%Z in
  let ip2_indx := (ip2 * NAOTxNSOLAR_VALS)%Z in
  let iaot1_indx := (iaot1 * NSOLAR_VALS)%Z in
  let iaot2_indx := (iaot2 * NSOLAR_VALS)%Z in
  let t := (tts (its + 1)%Z - xts) / (tts (its + 1)%Z - tts its) in
  let u := (ttv itv1_its_indx - xtv) /
           (ttv itv1_its_indx - ttv itv_its_indx) in
  let iband_ip_iaot_indx := (iband_indx + ip1_indx + iaot1_indx)%Z in
  let roiaot1 := interp_refl_using_scat_angle its itv xtsmax xtsmin scaa
                   nbficl nbfil indts rolutt iband_ip_iaot_indx t u in
  let iband_ip_iaot_indx := (iband_indx + ip1_indx + iaot2_indx)%Z in
  let roiaot2 := interp_refl_using_scat_angle its itv xtsmax xtsmin scaa
                   nbficl nbfil indts rolutt iband_ip_iaot_indx t u in
  let deltaaot := comproatm_deltaaot iaot1 iaot2 raot550nm in
  let rop1 := roiaot1 + (roiaot2 - roiaot1) * deltaaot in
  let iband_ip_iaot_indx := (iband_indx + ip2_indx + iaot1_indx)%Z in
  let roiaot1 := interp_refl_using_scat_angle its itv xtsmax xtsmin scaa
                   nbficl nbfil indts rolutt iband_ip_iaot_indx t u in
  let iband_ip_iaot_indx := (iband_indx + ip2_indx + iaot2_indx)%Z in
  let roiaot2 := interp_refl_using_scat_angle its itv xtsmax xtsmin scaa
                   nbficl nbfil indts rolutt iband_ip_iaot_indx t u in
  let rop2 := roiaot1 + (roiaot2 - roiaot1) * deltaaot in
  let dpres := (pres - tpres ip1) / (tpres ip2 - tpres ip1) in
  rop1 + (rop2 - rop1) * dpres.

(** ** Surface reflectance solver *)

(** Lines 77-87 and 233-243, the same statements in both solvers: the
    wavelength table and the maximum band index of the satellite. *)
Definition setup_lambda (sat : Sat_t) : farray :=
  match sat with
  | SAT_LANDSAT_8 | SAT_LANDSAT_9 => landsat_lambda
  | SAT_SENTINEL_2 => sentinel_lambda
  end.

Definition setup_max_band_indx (sat : Sat_t) : Z :=
  match sat with
  | SAT_LANDSAT_8 | SAT_LANDSAT_9 => DNL_BAND7
  | SAT_SENTINEL_2 => DNS_BAND12
  end.

(** Lines 89-99 of [atmcorlamb2_new]: the local [mraot550nm] once the upper
    limit has been checked. *)
Definition atmcorlamb2_new_mraot550nm (sat : Sat_t) (roatm_upper raot550nm : R)
    (iband : Z) (normext_ib_0_3 eps : R) : R :=
  let lambda := setup_lambda sat in
  let max_band_indx := setup_max_band_indx sat in
  let lambda_sf := 1 / 0.55 in
  let mraot550nm :=
    if (if Rlt_dec eps 0.0 then true else (iband >? max_band_indx)%Z)
    then raot550nm
    else (raot550nm / normext_ib_0_3) * Rpower (lambda iband * lambda_sf) (- eps) in
  if Rge_dec mraot550nm roatm_upper then roatm_upper else mraot550nm.

(** [atmcorlamb2_new]: the value stored in [*roslamb]. *)
Definition atmcorlamb2_new (sat : Sat_t) (tgo roatm_upper : R)
    (roatm_coef ttatmg_coef satm_coef : farray) (raot550nm : R) (iband : Z)
    (normext_ib_0_3 rotoa eps : R) : R :=
  let mraot550nm :=
    atmcorlamb2_new_mraot550nm sat roatm_upper raot550nm iband
      normext_ib_0_3 eps in
  let mraot550nm_sq := mraot550nm * mraot550nm in
  let mraot550nm_cube := mraot550nm_sq * mraot550nm in
  let roatm := roatm_coef 3%Z +
               roatm_coef 2%Z * mraot550nm +
               roatm_coef 1%Z * mraot550nm_sq +
               roatm_coef 0%Z * mraot550nm_cube in
  let ttatmg := ttatmg_coef 3%Z +
                ttatmg_coef 2%Z * mraot550nm +
                ttatmg_coef 1%Z * mraot550nm_sq +
                ttatmg_coef 0%Z * mraot550nm_cube in
  let satm := satm_coef 3%Z +
              satm_coef 2%Z * mraot550nm +
              satm_coef 1%Z * mraot550nm_sq +
              satm_coef 0%Z * mraot550nm_cube in
  let roslamb := rotoa - tgo * roatm in
  roslamb / (tgo * ttatmg + satm * roslamb).

(** Lines 245-254 of [atmcorlamb2]: the local [mraot550nm], which is the
    AOT the brackets and the composers are given. *)
Definition atmcorlamb2_mraot550nm (sat : Sat_t) (raot550nm : R) (iband : Z)
    (normext : farray) (eps : R) : R :=
  let lambda := setup_lambda sat in
  let max_band_indx := setup_max_band_indx sat in
  let lambda_sf := 1 / 0.55 in
  if (if Rlt_dec eps 0.0 then true else (iband >? max_band_indx)%Z)
  then raot550nm
  else
    let indx := (iband * NPRES_VALS * NAOT_VALS + 3)%Z in
    (raot550nm / normext indx) * Rpower (lambda iband * lambda_sf) (- eps).

(** Lines 261-266: the pressure index [ip1]. *)
Definition atmcorlamb2_ip1 (pres : R) (tpres : farray) : Z :=
  for_loop (Z.to_nat (NPRES_VALS - 1)) 0%Z
    (fun ip ip1 => if Rlt_dec pres (tpres ip) then ip else ip1) 0%Z.

(** Lines 272-277: the AOT index [iaot1]. *)
Definition atmcorlamb2_iaot1 (mraot550nm : R) (aot550nm : farray) : Z :=
  for_loop 21 0%Z
    (fun iaot iaot1 => if Rgt_dec mraot550nm (aot550nm iaot) then iaot else iaot1)
    0%Z.

(** Lines 280-284: the index [itv] in the view angle table. *)
Definition atmcorlamb2_itv (xtv xtvstep xtvmin : R) : Z :=
  if Rle_dec xtv xtvmin then 0%Z
  else int_of_float ((xtv - xtvmin) / xtvstep + 1.0).

(** The six output parameters of [atmcorlamb2]. *)
Record atm_out := {
  out_roslamb : R;
  out_tgo : R;
  out_roatm : R;
  out_ttatmg : R;
  out_satm : R;
  out_xrorayp : R
}.

(** [atmcorlamb2].  The last two arguments are the contents of the locals
    [xtts] and [xttv] when the routine is entered: they are declared without
    an initial value and handed to [comptrans] by address. *)
Definition atmcorlamb2 (sat : Sat_t)
    (xts xtv xmus xmuv xfi cosxfi raot550nm : R) (iband : Z) (pres : R)
    (tpres aot550nm rolutt transt : farray)
    (xtsstep xtsmin xtvstep xtvmin : R)
    (sphalbt normext tsmax tsmin nbfic nbfi tts : farray) (indts : iarray)
    (ttv : farray) (uoz uwv : R)
    (tauray ogtransa1 ogtransb0 ogtransb1 wvtransa wvtransb oztransa : farray)
    (rotoa eps : R) (xtts xttv : R) : result atm_out :=
  let mraot550nm := atmcorlamb2_mraot550nm sat raot550nm iband normext eps in
  let ip1 := atmcorlamb2_ip1 pres tpres in
  let ip2 := (ip1 + 1)%Z in
  let iaot1 := atmcorlamb2_iaot1 mraot550nm aot550nm in
  let iaot2 := (iaot1 + 1)%Z in
  let itv := atmcorlamb2_itv xtv xtvstep xtvmin in
  let its := sun_angle_index xts xtsstep xtsmin in
  if (its >? 19)%Z then Error "Solar zenith (xts) is too large: %f"
  else
    let roatm :=
      comproatm ip1 ip2 iaot1 iaot2 xts xtv xmus xmuv cosxfi mraot550nm iband
        pres tpres aot550nm rolutt tsmax tsmin nbfic nbfi tts indts ttv
        xtsstep xtvstep xtvmin its itv in
    let xtts :=
      comptrans ip1 ip2 iaot1 iaot2 xts mraot550nm iband pres tpres aot550nm
        transt xtsstep xtsmin tts xtts in
    let xttv :=
      comptrans ip1 ip2 iaot1 iaot2 xtv mraot550nm iband pres tpres aot550nm
        transt xtvstep xtvmin tts xttv in
    let ttatm := xtts * xttv in
    let satm :=
      compsalb ip1 ip2 iaot1 iaot2 mraot550nm iband pres tpres aot550nm
        sphalbt normext in
    let atm_pres := pres * ONE_DIV_ATMOS_PRES_0 in
    let '(tgoz, tgwv, tgwvhalf, tgog) :=
      comptg iband xmus xmuv uoz uwv atm_pres ogtransa1 ogtransb0 ogtransb1
        wvtransa wvtransb oztransa in
    let xtaur := tauray iband * atm_pres in
    let xrorayp := local_chand xfi xmuv xmus xtaur in
    let tgo := tgog * tgoz in
    let roatm := (roatm - xrorayp) * tgwvhalf + xrorayp in
    let ttatmg := ttatm * tgwv in
    let roslamb := rotoa / tgo - roatm in
    let roslamb := roslamb / (ttatmg + satm * roslamb) in
    Success {| out_roslamb := roslamb; out_tgo := tgo; out_roatm := roatm;
               out_ttatmg := ttatmg; out_satm := satm;
               out_xrorayp := xrorayp |}.

End Engine.

(** ** The divisions of the last two statements *)

(** The result of a C floating division whose divisor may be zero: the real
    quotient, or, when the divisor is zero, an infinity or a NaN, which is
    no real number. *)
Inductive quotient := Finite (q : R) | NotFinite.

Definition float_div (a b : R) : quotient :=
  if Req_dec_T b 0 then NotFinite else Finite (a / b).

(** Lines 334-335 of [atmcorlamb2]: [roslamb] becomes
    [rotoa / tgo - roatm] and is then divided by [ttatmg + satm * roslamb],
    with the two divisions as C performs them. *)
Definition atmcorlamb2_inversion (rotoa tgo roatm ttatmg satm : R)
    : quotient :=
  match float_div rotoa tgo with
  | NotFinite => NotFinite
  | Finite q =>
      let roslamb := q - roatm in
      float_div roslamb (ttatmg + satm * roslamb)
  end.

(** The content of [*roslamb] when [atmcorlamb2] returns [SUCCESS]: the
    outputs [*tgo], [*roatm], [*ttatmg] and [*satm] that lines 331-333 have
    stored, put through the two divisions of lines 334-335. *)
Definition atmcorlamb2_roslamb {hdr : lut_header} (sat : Sat_t)
    (xts xtv xmus xmuv xfi cosxfi raot550nm : R) (iband : Z) (pres : R)
    (tpres aot550nm rolutt transt : farray)
    (xtsstep xtsmin xtvstep xtvmin : R)
    (sphalbt normext tsmax tsmin nbfic nbfi tts : farray) (indts : iarray)
    (ttv : farray) (uoz uwv : R)
    (tauray ogtransa1 ogtransb0 ogtransb1 wvtransa wvtransb oztransa : farray)
    (rotoa eps : R) (xtts xttv : R) : result quotient :=
  match
    atmcorlamb2 sat xts xtv xmus xmuv xfi cosxfi raot550nm iband pres tpres
      aot550nm rolutt transt xtsstep xtsmin xtvstep xtvmin sphalbt normext
      tsmax tsmin nbfic nbfi tts indts ttv uoz uwv tauray ogtransa1 ogtransb0
      ogtransb1 wvtransa wvtransb oztransa rotoa eps xtts xttv
  with
  | Error msg => Error msg
  | Success o =>
      Success (atmcorlamb2_inversion rotoa (out_tgo o) (out_roatm o)
                 (out_ttatmg o) (out_satm o))
  end.

(** ** Concrete tables and inputs *)

(** The header the concrete evaluations run with: the table sizes of the
    specification (7 pressure levels, 22 AOT values, 4 degree angle steps)
    and the band limits of the two wavelength tables above. *)
Definition lasrc_header : lut_header := {|
  NPRES_VALS := 7;
  NAOT_VALS := 22;
  NSOLAR_VALS := 8000;
  NSUNANGLE_VALS := 22;
  NAOTxNSOLAR_VALS := 22 * 8000;
  NAOTxNSUNANGLE_VALS := 22 * 22;
  NSOLAR_ZEN_VALS := 22;
  DNL_BAND7 := 6;
  DNS_BAND12 := 10;
  ONE_DIV_ATMOS_PRES_0 := 1 / 1013;
  DEG2RAD := PI / 180;
  RAD2DEG := 180 / PI
|}.

(** The AOT grid whose logarithms [logaot550nm] tabulates. *)
Definition aot550nm_grid : farray :=
  of_list [0.01; 0.05; 0.10; 0.15; 0.20; 0.30; 0.40; 0.60; 0.80; 1.00; 1.20;
           1.40; 1.60; 1.80; 2.00; 2.30; 2.60; 3.00; 3.50; 4.00; 4.50; 5.00].

(** A strictly descending pressure grid. *)
Definition tpres_grid : farray :=
  of_list [1050.0; 1013.0; 900.0; 800.0; 700.0; 600.0; 500.0].

(** The sun angle table as [readluts] fills it, [tts[j] = xtsmin + xtsstep * j],
    for [xtsmin = 0] and [xtsstep = 4]. *)
Definition tts_grid : farray := fun j => 0 + 4 * IZR j.

Definition zero_table : farray := fun _ => 0.
Definition unit_table : farray := fun _ => 1.
Definition zero_index : iarray := fun _ => 0%Z.

(** A reflectance table that is 0 up to the AOT index 13 of band 0 and
    pressure level 0, and 1 from the AOT index 14 on. *)
Definition aot_step_table : farray :=
  fun i => if (i <? 14 * 8000)%Z then 0 else 1.

(** A Landsat 8 call of [atmcorlamb2] for band 0 with the grids above, the
    angle tables starting at 0 degrees with 4 degree steps, sun and view
    cosines 1 and unit gas coefficients. *)
Definition sample_call (xts xtv raot550nm pres rotoa eps : R)
    (rolutt transt sphalbt : farray) (xtts xttv : R) : result atm_out :=
  atmcorlamb2 (hdr := lasrc_header) SAT_LANDSAT_8 xts xtv 1 1 0 1 raot550nm
    0%Z pres tpres_grid aot550nm_grid rolutt transt 4 0 4 0 sphalbt
    unit_table unit_table zero_table unit_table unit_table tts_grid
    zero_index tts_grid 1 1 unit_table unit_table unit_table unit_table
    unit_table unit_table unit_table rotoa eps xtts xttv.

(** ** The specification's wording of the AOT steps *)

(** The AOT bracket as the specification words it, "symmetric" to the
    pressure scan: the last index of [0, N_a - 2] whose table value exceeds
    the query AOT. *)
Definition spec_aot_bracket (query : R) (aot550nm : farray) : Z :=
  for_loop 21 0%Z
    (fun i found => if Rgt_dec (aot550nm i) query then i else found) 0%Z.

(** The AOT adjustment as the specification words it: rescaled when the
    angstrom exponent is not negative and the band is within the band set of
    the satellite, the raw value otherwise. *)
Definition spec_adjusted_aot {hdr : lut_header} (sat : Sat_t) (raot550nm : R)
    (iband : Z) (normext_corner eps : R) : R :=
  if Rle_dec 0 eps then
    if (iband <=? setup_max_band_indx sat)%Z
    then (raot550nm / normext_corner) *
         Rpower (setup_lambda sat iband / 0.55) (- eps)
    else raot550nm
  else raot550nm.

(** ** Single-pressure-corner values *)

(** What each composed quantity is at one pressure level [ip] of the tables:
    the AOT interpolation of the entries of that level alone. *)
Definition salb_at_pressure {hdr : lut_header} (ip iaot1 iaot2 : Z)
    (raot550nm : R) (iband : Z) (aot550nm sphalbt : farray) : R :=
  let deltaaot :=
    (raot550nm - aot550nm iaot1) / (aot550nm iaot2 - aot550nm iaot1) in
  let level := (iband * NPRES_VALS * NAOT_VALS + ip * NAOT_VALS)%Z in
  sphalbt (level + iaot1)%Z +
  (sphalbt (level + iaot2)%Z - sphalbt (level + iaot1)%Z) * deltaaot.

Definition trans_at_pressure {hdr : lut_header} (ip iaot1 iaot2 : Z)
    (xts raot550nm : R) (iband : Z) (aot550nm transt : farray)
    (xtsstep xtsmin : R) (tts : farray) : R :=
  let its := sun_angle_index xts xtsstep xtsmin in
  let xmts := (xts - tts its) * 0.25 in
  let deltaaot :=
    (raot550nm - aot550nm iaot1) / (aot550nm iaot2 - aot550nm iaot1) in
  let level :=
    (iband * NPRES_VALS * NAOTxNSUNANGLE_VALS + ip * NAOTxNSUNANGLE_VALS)%Z in
  let at_aot (iaot : Z) :=
    transt (level + iaot * NSUNANGLE_VALS + its)%Z +
    (transt (level + iaot * NSUNANGLE_VALS + its + 1)%Z -
     transt (level + iaot * NSUNANGLE_VALS + its)%Z) * xmts in
  at_aot iaot1 + (at_aot iaot2 - at_aot iaot1) * deltaaot.

(** The reflectance at one pressure level [ip] and one AOT index [iaot]:
    the scattering-angle interpolation over the entries of that corner. *)
Definition roatm_at_corner {hdr : lut_header} (ip iaot : Z)
    (xts xtv xmus xmuv cosxfi : R) (iband : Z)
    (rolutt tsmax tsmin nbfic nbfi tts : farray) (indts : iarray)
    (ttv : farray) (its itv : Z) : R :=
  let cscaa := - xmus * xmuv -
               cosxfi * sqrt (1.0 - xmus * xmus) * sqrt (1.0 - xmuv * xmuv) in
  let scaa := acos cscaa * RAD2DEG in
  let c00 := (itv * NSOLAR_ZEN_VALS + its)%Z in
  let c01 := (c00 + 1)%Z in
  let c10 := (c00 + NSOLAR_ZEN_VALS)%Z in
  let c11 := (c10 + 1)%Z in
  let nbficl := four_pts (nbfic c00) (nbfic c01) (nbfic c10) (nbfic c11) in
  let nbfil := four_pts (nbfi c00) (nbfi c01) (nbfi c10) (nbfi c11) in
  let xtsmax := four_pts (tsmax c00) (tsmax c01) (tsmax c10) (tsmax c11) in
  let xtsmin := four_pts (tsmin c00) (tsmin c01) (tsmin c10) (tsmin c11) in
  let t := (tts (its + 1)%Z - xts) / (tts (its + 1)%Z - tts its) in
  let u := (ttv c10 - xtv) / (ttv c10 - ttv c00) in
  interp_refl_using_scat_angle its itv xtsmax xtsmin scaa nbficl nbfil
    indts rolutt
    (iband * NPRES_VALS * NAOTxNSOLAR_VALS + ip * NAOTxNSOLAR_VALS +
     iaot * NSOLAR_VALS)%Z t u.

Definition roatm_at_pressure {hdr : lut_header} (ip iaot1 iaot2 : Z)
    (xts xtv xmus xmuv cosxfi raot550nm : R) (iband : Z)
    (rolutt tsmax tsmin nbfic nbfi tts : farray) (indts : iarray)
    (ttv : farray) (its itv : Z) : R :=
  let at_aot (iaot : Z) :=
    roatm_at_corner ip iaot xts xtv xmus xmuv cosxfi iband rolutt tsmax tsmin
      nbfic nbfi tts indts ttv its itv in
  at_aot iaot1 +
  (at_aot iaot2 - at_aot iaot1) * comproatm_deltaaot iaot1 iaot2 raot550nm.

(** ** The relation the solvers invert *)

(** The top-of-atmosphere reflectance over a Lambertian surface of
    reflectance [ros], for the gas transmission [tgo], the atmospheric
    reflectance [roatm], the transmission [ttatmg] and the spherical albedo
    [satm]: the relation the last two statements of both solvers solve for
    [ros]. *)
Definition lambertian_toa (tgo roatm ttatmg satm ros : R) : R :=
  tgo * (roatm + ttatmg * ros / (1 - satm * ros)).

(** Lines 106-121 of [atmcorlamb2_new]: the cubic of the fitted
    coefficients [coef[0..3]], highest power first, at the AOT [m]. *)
Definition poly_fit (coef : farray) (m : R) : R :=
  coef 3%Z + coef 2%Z * m + coef 1%Z * (m * m) + coef 0%Z * (m * m * m).

(** ** Reading the intrinsic reflectance table *)

(** The assignment [a[i] = v]. *)
Definition store (a : farray) (i : Z) (v : R) : farray :=
  fun j => if (j =? i)%Z then v else a j.

(** The band constants of [common.h] that [readluts] uses: the number of
    bands in the Landsat and in the Sentinel-2 input files, and the indices
    of the Sentinel-2 bands 9 and 10 in [SENTINEL_FULL_BANDNAME]. *)
Class band_header := {
  NSRL_BANDS : Z;
  SENTINEL_TTL : Z;
  SBAND9 : Z;
  SBAND10 : Z
}.

(** Lines 1022-1025 of [readluts]: the number of bands in the input files. *)
Definition readluts_nsr_bands {bands : band_header} (sat : Sat_t) : Z :=
  match sat with
  | SAT_LANDSAT_8 | SAT_LANDSAT_9 => NSRL_BANDS
  | SAT_SENTINEL_2 => SENTINEL_TTL
  end.

(** Lines 1370-1388 of [readluts] (the default build, without
    [PROC_ALL_BANDS]; the statements are repeated at lines 1476-1511 and
    1605-1639): the array index of the band [iband] of the input file, given
    the index [ibndx] of the band stored before it; [None] when the band is
    left out by [continue]. *)
Definition readluts_band_index {bands : band_header} (sat : Sat_t)
    (iband ibndx : Z) : option Z :=
  match sat with
  | SAT_LANDSAT_8 | SAT_LANDSAT_9 => Some iband
  | SAT_SENTINEL_2 =>
      if (iband =? SBAND9)%Z || (iband =? SBAND10)%Z then None
      else Some (ibndx + 1)%Z
  end.

(** Lines 1432-1447 of [readluts]: the band [rolut], read from the file as
    [NSOLAR_VALS x NAOT_VALS x NPRES_VALS], is stored in [rolutt] as band
    [ibndx] of [bands x NPRES_VALS x NAOT_VALS x NSOLAR_VALS].  The innermost
    loop advances [curr_indx] and [tmp_lut_indx] together with [ival]. *)
Definition readluts_flip {hdr : lut_header} (ibndx : Z) (rolut rolutt : farray)
    : farray :=
  let iband_indx := (ibndx * NPRES_VALS * NAOTxNSOLAR_VALS)%Z in
  for_loop (Z.to_nat NPRES_VALS) 0%Z
    (fun ipres rolutt =>
       let ipres_indx := (ipres * NAOTxNSOLAR_VALS)%Z in
       for_loop (Z.to_nat NAOT_VALS) 0%Z
         (fun itau rolutt =>
            let itau_indx := (itau * NSOLAR_VALS)%Z in
            let curr_indx := (iband_indx + ipres_indx + itau_indx)%Z in
            let tmp_lut_indx := (itau * NPRES_VALS + ipres)%Z in
            fst (for_loop (Z.to_nat NSOLAR_VALS) 0%Z
                   (fun ival '(rolutt, (curr_indx, tmp_lut_indx)) =>
                      (store rolutt curr_indx (rolut tmp_lut_indx),
                       ((curr_indx + 1)%Z,
                        (tmp_lut_indx + NAOT_VALS * NPRES_VALS)%Z)))
                   (rolutt, (curr_indx, tmp_lut_indx))))
         rolutt)
    rolutt.

(** Lines 1368-1448 of [readluts]: one round of the loop over the bands of
    the intrinsic reflectance file.  The state of the loop is [ibndx] and
    the content of [rolutt], or the message of an [ERROR] already returned.
    [read_band iband] is the outcome of the HDF calls for the band (lines
    1390-1425: [SDnametoindex], [SDselect], [SDreaddata] into [rolut],
    [SDendaccess]): the array read, or the message of the call that
    failed, on which [readluts] returns [ERROR] at once. *)
Definition readluts_rolutt_band {hdr : lut_header} {bands : band_header}
    (sat : Sat_t) (read_band : Z -> result farray) (iband : Z)
    (st : result (Z * farray)) : result (Z * farray) :=
  match st with
  | Error msg => Error msg
  | Success (ibndx, rolutt) =>
      match readluts_band_index sat iband ibndx with
      | None => Success (ibndx, rolutt)
      | Some ibndx =>
          match read_band iband with
          | Error msg => Error msg
          | Success rolut => Success (ibndx, readluts_flip ibndx rolut rolutt)
          end
      end
  end.

(** Lines 1366-1448 of [readluts]: [ibndx = -1] and the loop over the
    [nsr_bands] bands of the file; the value is the content of [rolutt]
    after the loop. *)
Definition readluts_rolutt_bands {hdr : lut_header} {bands : band_header}
    (sat : Sat_t) (read_band : Z -> result farray) (rolutt : farray)
    : result farray :=
  let nsr_bands := readluts_nsr_bands sat in
  match for_loop (Z.to_nat nsr_bands) 0%Z (readluts_rolutt_band sat read_band)
          (Success ((-1)%Z, rolutt)) with
  | Error msg => Error msg
  | Success (_, rolutt) => Success rolutt
  end.

(** The band constants the concrete evaluations run with: a Landsat file of
    8 bands, and the 13 names of [SENTINEL_FULL_BANDNAME] for Sentinel-2,
    where the bands 9 and 10 stand at the indices 9 and 10. *)
Definition lasrc_bands : band_header := {|
  NSRL_BANDS := 8;
  SENTINEL_TTL := 13;
  SBAND9 := 9;
  SBAND10 := 10
|}.

(** ** Proof automation *)

(** Evaluation of the concrete grids and of the loops over them. *)
Ltac eval_tables :=
  cbv [aot550nm_grid tpres_grid of_list nth Z.to_nat Pos.to_nat Pos.iter_op
       Nat.add Z.add Z.sub Z.opp Z.pos_sub Pos.add Pos.succ Pos.pred_double
       Z.double Z.succ_double Z.pred_double].

Ltac decide_comparisons :=
  repeat match goal with
  | |- context [Rgt_dec ?a ?b] =>
      destruct (Rgt_dec a b) as [Hcmp | Hcmp];
      [ try (exfalso; lra) | try (exfalso; lra) ]; clear Hcmp
  | |- context [Rlt_dec ?a ?b] =>
      destruct (Rlt_dec a b) as [Hcmp | Hcmp];
      [ try (exfalso; lra) | try (exfalso; lra) ]; clear Hcmp
  | |- context [Rle_dec ?a ?b] =>
      destruct (Rle_dec a b) as [Hcmp | Hcmp];
      [ try (exfalso; lra) | try (exfalso; lra) ]; clear Hcmp
  | |- context [Rge_dec ?a ?b] =>
      destruct (Rge_dec a b) as [Hcmp | Hcmp];
      [ try (exfalso; lra) | try (exfalso; lra) ]; clear Hcmp
  end.

(** * Properties *)

(** ** Integer conversion and loops *)

Lemma int_of_float_nonneg (x : R) : 0 <= x -> int_of_float x = Zfloor x.
Proof.
  intros Hx. unfold int_of_float.
  destruct (Rlt_dec x 0) as [Hneg | _]; [lra | reflexivity].
Qed.

Lemma int_of_float_eq (z : Z) (x : R) :
  (0 <= z)%Z -> IZR z <= x < IZR z + 1 -> int_of_float x = z.
Proof.
  intros Hz Hx.
  rewrite int_of_float_nonneg.
  - now apply Zfloor_eq.
  - apply IZR_le in Hz. lra.
Qed.

Lemma Zceil_neg (x : R) : x < 0 -> (Zceil x <= 0)%Z.
Proof.
  intros Hx. unfold Zceil.
  assert (0 <= Zfloor (- x))%Z; [| lia].
  apply Zfloor_lub. simpl. lra.
Qed.

Lemma Zfloor_neg (x : R) : x < 0 -> (Zfloor x < 0)%Z.
Proof.
  intros Hx. apply lt_IZR.
  pose proof (Zfloor_bound x) as [Hlo _]. lra.
Qed.

(** Truncation and floor agree on whether a bound that is not negative is
    exceeded. *)
Lemma int_of_float_gt_floor (x : R) (n : Z) :
  (0 <= n)%Z -> (int_of_float x >? n)%Z = (Zfloor x >? n)%Z.
Proof.
  intros Hn. unfold int_of_float.
  destruct (Rlt_dec x 0) as [Hneg | _]; [| reflexivity].
  pose proof (Zceil_neg x Hneg). pose proof (Zfloor_neg x Hneg).
  destruct (Z.gtb_spec (Zceil x) n); destruct (Z.gtb_spec (Zfloor x) n);
    try reflexivity; lia.
Qed.

(** A loop that records the index at which a test last held. *)
Lemma for_loop_last (P : Z -> Prop) (dec : forall i, {P i} + {~ P i})
    (n : nat) (i0 acc : Z) :
  let r := for_loop n i0 (fun i a => if dec i then i else a) acc in
  (r = acc /\ forall j, (i0 <= j < i0 + Z.of_nat n)%Z -> ~ P j) \/
  ((i0 <= r < i0 + Z.of_nat n)%Z /\ P r /\
   forall j, (r < j < i0 + Z.of_nat n)%Z -> ~ P j).
Proof.
  revert i0 acc. induction n as [| n IH]; intros i0 acc; cbn zeta.
  - left. split; [reflexivity | intros j Hj; lia].
  - cbn [for_loop].
    specialize (IH (i0 + 1)%Z (if dec i0 then i0 else acc)).
    cbn zeta in IH.
    destruct IH as [[Hr Hno] | [Hrng [HP Hno]]].
    + destruct (dec i0) as [Hi0 | Hi0].
      * right. rewrite Hr. repeat split; try lia; [assumption |].
        intros j Hj. apply Hno. lia.
      * left. split; [assumption |].
        intros j Hj. destruct (Z.eq_dec j i0) as [-> | Hne];
          [assumption | apply Hno; lia].
    + right. repeat split; try lia; [assumption |].
      intros j Hj. apply Hno. lia.
Qed.

(** ** Gas transmission *)

(** C5.  [comptg] computes the ozone transmission
    [exp (oztransa[iband] * m * uoz)] with the airmass
    [m = 1/xmus + 1/xmuv]; the water-vapour transmission
    [exp (-a * (m*uwv)^b)] when [m*uwv > 1e-6] and exactly 1 otherwise; the
    half-content variant with the same formula and threshold on [m*uwv/2];
    and the other-gas transmission
    [exp (-(ogtransa1*atm_pres) * m ^ exp (-(ogtransb0 + ogtransb1*atm_pres)))]. *)
Theorem comptg_formulas :
  forall (iband : Z) (xmus xmuv uoz uwv atm_pres : R)
         (ogtransa1 ogtransb0 ogtransb1 wvtransa wvtransb oztransa : farray),
    let m := 1 / xmus + 1 / xmuv in
    let a := wvtransa iband in
    let b := wvtransb iband in
    let '(tgoz, tgwv, tgwvhalf, tgog) :=
      comptg iband xmus xmuv uoz uwv atm_pres ogtransa1 ogtransb0 ogtransb1
        wvtransa wvtransb oztransa in
    tgoz = exp (oztransa iband * m * uoz) /\
    ((m * uwv > 1e-6 /\ tgwv = exp (- a * Rpower (m * uwv) b)) \/
     (m * uwv <= 1e-6 /\ tgwv = 1)) /\
    ((m * uwv / 2 > 1e-6 /\ tgwvhalf = exp (- a * Rpower (m * uwv / 2) b)) \/
     (m * uwv / 2 <= 1e-6 /\ tgwvhalf = 1)) /\
    tgog = exp (- (ogtransa1 iband * atm_pres) *
                Rpower m (exp (- (ogtransb0 iband + ogtransb1 iband * atm_pres)))).
Proof.
  intros. unfold comptg. cbn zeta.
  replace (1.0 / xmus + 1.0 / xmuv) with m by (unfold m; lra).
  replace (m * uwv * 0.5) with (m * uwv / 2) by lra.
  repeat split.
  - destruct (Rgt_dec (m * uwv) 1.0e-06) as [Hgt | Hle].
    + left. split; [lra | reflexivity].
    + right. split; [lra | lra].
  - destruct (Rgt_dec (m * uwv / 2) 1.0e-06) as [Hgt | Hle].
    + left. split; [lra | reflexivity].
    + right. split; [lra | lra].
Qed.

(** ** The full-inversion solver *)

Lemma sun_angle_index_gt_floor (xts xtsstep xtsmin : R) :
  (sun_angle_index xts xtsstep xtsmin >? 19)%Z = true <->
  xts > xtsmin /\ (Zfloor ((xts - xtsmin) / xtsstep) > 19)%Z.
Proof.
  unfold sun_angle_index.
  destruct (Rle_dec xts xtsmin) as [Hle | Hgt].
  - split; [discriminate | intros [Hlt _]; lra].
  - rewrite int_of_float_gt_floor by lia.
    rewrite Z.gtb_gt. split.
    + intros Hidx. split; [lra | lia].
    + intros [_ Hidx]. lia.
Qed.

Lemma sun_angle_index_low (xts xtsstep xtsmin : R) :
  xts <= xtsmin -> sun_angle_index xts xtsstep xtsmin = 0%Z.
Proof.
  intros Hle. unfold sun_angle_index.
  destruct (Rle_dec xts xtsmin); [reflexivity | contradiction].
Qed.

Lemma sun_angle_index_85 : sun_angle_index 85 4 0 = 21%Z.
Proof.
  unfold sun_angle_index.
  destruct (Rle_dec 85 0) as [Hle | _]; [lra |].
  apply int_of_float_eq; [lia | simpl; lra].
Qed.

Section Solver.

Context {hdr : lut_header}.

Variables (sat : Sat_t) (xts xtv xmus xmuv xfi cosxfi raot550nm : R)
  (iband : Z) (pres : R) (tpres aot550nm rolutt transt : farray)
  (xtsstep xtsmin xtvstep xtvmin : R)
  (sphalbt normext tsmax tsmin nbfic nbfi tts : farray) (indts : iarray)
  (ttv : farray) (uoz uwv : R)
  (tauray ogtransa1 ogtransb0 ogtransb1 wvtransa wvtransb oztransa : farray)
  (rotoa eps : R) (xtts xttv : R).

Local Abbreviation solver :=
  (atmcorlamb2 sat xts xtv xmus xmuv xfi cosxfi raot550nm iband pres tpres
     aot550nm rolutt transt xtsstep xtsmin xtvstep xtvmin sphalbt normext
     tsmax tsmin nbfic nbfi tts indts ttv uoz uwv tauray ogtransa1 ogtransb0
     ogtransb1 wvtransa wvtransb oztransa rotoa eps xtts xttv).
Local Abbreviation mraot :=
  (atmcorlamb2_mraot550nm sat raot550nm iband normext eps).
Local Abbreviation ip1 := (atmcorlamb2_ip1 pres tpres).
Local Abbreviation iaot1 := (atmcorlamb2_iaot1 mraot aot550nm).
Local Abbreviation gases :=
  (comptg iband xmus xmuv uoz uwv (pres * ONE_DIV_ATMOS_PRES_0) ogtransa1
     ogtransb0 ogtransb1 wvtransa wvtransb oztransa).
Local Abbreviation rorayp :=
  (local_chand xfi xmuv xmus (tauray iband * (pres * ONE_DIV_ATMOS_PRES_0))).
Local Abbreviation roatm_interp :=
  (comproatm ip1 (ip1 + 1) iaot1 (iaot1 + 1) xts xtv xmus xmuv cosxfi mraot
     iband pres tpres aot550nm rolutt tsmax tsmin nbfic nbfi tts indts ttv
     xtsstep xtvstep xtvmin (sun_angle_index xts xtsstep xtsmin)
     (atmcorlamb2_itv xtv xtvstep xtvmin)).
Local Abbreviation trans_sun :=
  (comptrans ip1 (ip1 + 1) iaot1 (iaot1 + 1) xts mraot iband pres tpres
     aot550nm transt xtsstep xtsmin tts xtts).
Local Abbreviation trans_view :=
  (comptrans ip1 (ip1 + 1) iaot1 (iaot1 + 1) xtv mraot iband pres tpres
     aot550nm transt xtvstep xtvmin tts xttv).
Local Abbreviation salb :=
  (compsalb ip1 (ip1 + 1) iaot1 (iaot1 + 1) mraot iband pres tpres aot550nm
     sphalbt normext).

(** The two ways out of [atmcorlamb2]. *)
Lemma atmcorlamb2_cases :
  ((sun_angle_index xts xtsstep xtsmin >? 19)%Z = true /\
   solver = Error "Solar zenith (xts) is too large: %f") \/
  ((sun_angle_index xts xtsstep xtsmin >? 19)%Z = false /\
   let '(tgoz, tgwv, tgwvhalf, tgog) := gases in
   let r := rotoa / (tgog * tgoz) -
            ((roatm_interp - rorayp) * tgwvhalf + rorayp) in
   solver =
   Success {| out_roslamb := r / (trans_sun * trans_view * tgwv + salb * r);
              out_tgo := tgog * tgoz;
              out_roatm := (roatm_interp - rorayp) * tgwvhalf + rorayp;
              out_ttatmg := trans_sun * trans_view * tgwv;
              out_satm := salb;
              out_xrorayp := rorayp |}).
Proof.
  unfold atmcorlamb2. cbn zeta.
  destruct (sun_angle_index xts xtsstep xtsmin >? 19)%Z.
  - left. split; reflexivity.
  - right. split; [reflexivity |].
    destruct gases as [[[tgoz tgwv] tgwvhalf] tgog]. reflexivity.
Qed.

(** C1.  Whenever [atmcorlamb2] returns [SUCCESS], its outputs are composed
    as stated: [tgo = tgog*tgoz]; [roatm] is
    [(roatm_interp - rorayp)*tgwvhalf + rorayp] for the interpolated
    reflectance of [comproatm] and the Rayleigh reflectance of
    [local_chand]; [ttatmg = (xtts*xttv)*tgwv]; and
    [roslamb = r / (ttatmg + satm*r)] with [r = rotoa/tgo - roatm]. *)
Theorem atmcorlamb2_composition :
  retval solver = SUCCESS ->
  exists o : atm_out,
    solver = Success o /\
    let '(tgoz, tgwv, tgwvhalf, tgog) := gases in
    out_tgo o = tgog * tgoz /\
    out_xrorayp o = rorayp /\
    out_roatm o = (roatm_interp - rorayp) * tgwvhalf + rorayp /\
    out_ttatmg o = (trans_sun * trans_view) * tgwv /\
    out_satm o = salb /\
    let r := rotoa / out_tgo o - out_roatm o in
    out_roslamb o = r / (out_ttatmg o + out_satm o * r).
Proof.
  intros Hret.
  destruct atmcorlamb2_cases as [[_ Herr] | [_ Hok]].
  - rewrite Herr in Hret. discriminate.
  - destruct gases as [[[tgoz tgwv] tgwvhalf] tgog]. cbn zeta in Hok.
    eexists. split; [exact Hok |]. cbn. repeat split; reflexivity.
Qed.

(** C2.  [atmcorlamb2] returns [ERROR], with the message on the solar zenith
    angle, exactly when [xts] exceeds [xtsmin] and
    [floor ((xts - xtsmin) / xtsstep)] exceeds 19; on every other input it
    returns [SUCCESS].  A solar zenith of 85 degrees with [xtsmin = 0] and
    [xtsstep = 4] is such a failure. *)
Theorem atmcorlamb2_error_iff :
  (((xts > xtsmin /\ (Zfloor ((xts - xtsmin) / xtsstep) > 19)%Z) /\
    solver = Error "Solar zenith (xts) is too large: %f") \/
   (~ (xts > xtsmin /\ (Zfloor ((xts - xtsmin) / xtsstep) > 19)%Z) /\
    retval solver = SUCCESS)) /\
  retval
    (atmcorlamb2 sat 85 xtv xmus xmuv xfi cosxfi raot550nm iband pres tpres
       aot550nm rolutt transt 4 0 xtvstep xtvmin sphalbt normext tsmax tsmin
       nbfic nbfi tts indts ttv uoz uwv tauray ogtransa1 ogtransb0 ogtransb1
       wvtransa wvtransb oztransa rotoa eps xtts xttv) = ERROR.
Proof.
  split.
  - destruct atmcorlamb2_cases as [[Hidx Herr] | [Hidx Hok]].
    + left. split; [| exact Herr].
      now apply sun_angle_index_gt_floor.
    + right. split.
      * intros Hdom. apply sun_angle_index_gt_floor in Hdom. congruence.
      * destruct gases as [[[tgoz tgwv] tgwvhalf] tgog]. cbn zeta in Hok.
        rewrite Hok. reflexivity.
  - unfold atmcorlamb2. cbn zeta. rewrite sun_angle_index_85. reflexivity.
Qed.

(** C10.  A view zenith angle whose sun-angle index exceeds 19 makes
    [comptrans] return without storing through [xtts], whatever its other
    arguments are, after it has handed its message to [error_handler];
    [atmcorlamb2] hands the unvalidated [xtv] to [comptrans] and, the solar
    zenith being in the domain, still returns [SUCCESS]: no error reaches
    the caller, and the upward transmittance that enters [ttatmg] is the
    content the local [xttv] had on entry. *)
Theorem atmcorlamb2_view_angle_unchecked :
  (sun_angle_index xtv xtvstep xtvmin > 19)%Z ->
  (sun_angle_index xts xtsstep xtsmin <= 19)%Z ->
  (forall (p1 p2 a1 a2 : Z) (raot : R) (ib : Z) (p : R)
          (tp aot tr sun : farray) (x0 : R),
      comptrans p1 p2 a1 a2 xtv raot ib p tp aot tr xtvstep xtvmin sun x0 = x0) /\
  comptrans_errmsg xtv xtvstep xtvmin =
    Some "Zenith angle (xts) is too large: %f"%string /\
  retval solver = SUCCESS /\
  exists o : atm_out,
    solver = Success o /\
    let '(tgoz, tgwv, tgwvhalf, tgog) := gases in
    out_ttatmg o = (trans_sun * xttv) * tgwv.
Proof.
  intros Hview Hsun.
  assert (Hskip : forall (p1 p2 a1 a2 : Z) (raot : R) (ib : Z) (p : R)
                         (tp aot tr sun : farray) (x0 : R),
             comptrans p1 p2 a1 a2 xtv raot ib p tp aot tr xtvstep xtvmin sun
               x0 = x0).
  { intros. unfold comptrans. cbn zeta.
    destruct (Z.gtb_spec (sun_angle_index xtv xtvstep xtvmin) 19);
      [reflexivity | lia]. }
  split; [exact Hskip |].
  split.
  { unfold comptrans_errmsg.
    destruct (Z.gtb_spec (sun_angle_index xtv xtvstep xtvmin) 19);
      [reflexivity | lia]. }
  destruct atmcorlamb2_cases as [[Hidx _] | [_ Hok]].
  - apply Z.gtb_gt in Hidx. lia.
  - destruct gases as [[[tgoz tgwv] tgwvhalf] tgog]. cbn zeta in Hok.
    rewrite Hok. split; [reflexivity |].
    eexists. split; [reflexivity |]. cbn. rewrite Hskip. reflexivity.
Qed.

End Solver.

(** ** Brackets and indices *)

Lemma atmcorlamb2_iaot1_at_007 : atmcorlamb2_iaot1 0.07 aot550nm_grid = 1%Z.
Proof.
  unfold atmcorlamb2_iaot1. cbv [for_loop]. eval_tables.
  decide_comparisons. reflexivity.
Qed.

Lemma spec_aot_bracket_at_007 : spec_aot_bracket 0.07 aot550nm_grid = 20%Z.
Proof.
  unfold spec_aot_bracket. cbv [for_loop]. eval_tables.
  decide_comparisons. reflexivity.
Qed.

(** C3, as stated, fails: on the AOT grid and the query 0.07 the code's scan
    stops at index 1 (0.05 is the last entry the query exceeds), while the
    last index of [0, 20] whose table value exceeds the query is 20; the
    entry at the code's index does not exceed the query. *)
Lemma aot_scan_is_not_the_symmetric_scan :
  atmcorlamb2_iaot1 0.07 aot550nm_grid <> spec_aot_bracket 0.07 aot550nm_grid /\
  ~ aot550nm_grid (atmcorlamb2_iaot1 0.07 aot550nm_grid) > 0.07.
Proof.
  rewrite atmcorlamb2_iaot1_at_007, spec_aot_bracket_at_007.
  split; [discriminate |]. eval_tables. lra.
Qed.

(** C3, amended.  [iaot1] is the last index of [0, 20] whose table value the
    query AOT exceeds, and 0 when the query exceeds none; [iaot2 = iaot1 + 1]
    is then an index of the table, for every query. *)
Theorem atmcorlamb2_iaot1_bracket :
  forall (mraot550nm : R) (aot550nm : farray),
    let iaot1 := atmcorlamb2_iaot1 mraot550nm aot550nm in
    let iaot2 := (iaot1 + 1)%Z in
    (0 <= iaot1 <= 20)%Z /\ (1 <= iaot2 <= 21)%Z /\
    (forall j, (iaot1 < j <= 20)%Z -> ~ mraot550nm > aot550nm j) /\
    (mraot550nm > aot550nm iaot1 \/
     (iaot1 = 0%Z /\
      forall j, (0 <= j <= 20)%Z -> ~ mraot550nm > aot550nm j)).
Proof.
  intros mraot550nm aot550nm. cbn zeta. unfold atmcorlamb2_iaot1.
  pose proof (for_loop_last (fun i => mraot550nm > aot550nm i)
                (fun i => Rgt_dec mraot550nm (aot550nm i)) 21 0 0) as Hscan.
  cbn zeta in Hscan.
  destruct Hscan as [[Hr Hno] | [Hrng [HP Hno]]].
  - rewrite Hr. repeat split; try lia.
    + intros j Hj. apply Hno. lia.
    + right. split; [reflexivity |]. intros j Hj. apply Hno. lia.
  - repeat split; try lia.
    + intros j Hj. apply Hno. lia.
    + left. exact HP.
Qed.

(** C4, as stated, fails: with the angstrom exponent at its sentinel -1,
    [atmcorlamb2_new] does not leave the AOT 5 unchanged when the upper bound
    is 3; the value it goes on with is 3. *)
Lemma atmcorlamb2_new_limits_unadjusted_aot :
  atmcorlamb2_new_mraot550nm (hdr := lasrc_header) SAT_LANDSAT_8 3 5 0%Z 1 (-1)
  = 3 /\
  atmcorlamb2_new_mraot550nm (hdr := lasrc_header) SAT_LANDSAT_8 3 5 0%Z 1 (-1)
  <> 5.
Proof.
  assert (Hval : atmcorlamb2_new_mraot550nm (hdr := lasrc_header)
                   SAT_LANDSAT_8 3 5 0%Z 1 (-1) = 3).
  { unfold atmcorlamb2_new_mraot550nm. cbn zeta.
    destruct (Rlt_dec (-1) 0.0) as [_ | Hge]; [| exfalso; lra].
    destruct (Rge_dec 5 3) as [_ | Hlt]; [reflexivity | exfalso; lra]. }
  split; [exact Hval |]. rewrite Hval. lra.
Qed.

Lemma lambda_scale (x : R) : x * (1 / 0.55) = x / 0.55.
Proof. lra. Qed.

(** C4, amended.  In both solvers the AOT is the raw input when [eps] is
    negative or the band index is above the maximum band index of the
    satellite, and [(raot550nm / normext_corner) * (lambda[iband]/0.55)^(-eps)]
    otherwise.  [atmcorlamb2] brackets that value as it is: it has no upper
    bound.  [atmcorlamb2_new], which has no bracketing scan, replaces the
    value, adjusted or not, by [roatm_upper] when it reaches it. *)
Theorem mraot550nm_adjustment :
  forall (hdr : lut_header) (sat : Sat_t) (raot550nm : R) (iband : Z)
         (normext : farray) (normext_ib_0_3 roatm_upper eps : R),
    let corner := normext (iband * NPRES_VALS * NAOT_VALS + 3)%Z in
    atmcorlamb2_mraot550nm sat raot550nm iband normext eps =
      spec_adjusted_aot sat raot550nm iband corner eps /\
    atmcorlamb2_new_mraot550nm sat roatm_upper raot550nm iband normext_ib_0_3 eps =
      Rmin (spec_adjusted_aot sat raot550nm iband normext_ib_0_3 eps) roatm_upper /\
    (((eps < 0 \/ (iband > setup_max_band_indx sat)%Z) /\
      atmcorlamb2_mraot550nm sat raot550nm iband normext eps = raot550nm) \/
     ((0 <= eps /\ (iband <= setup_max_band_indx sat)%Z) /\
      atmcorlamb2_mraot550nm sat raot550nm iband normext eps =
        (raot550nm / corner) * Rpower (setup_lambda sat iband / 0.55) (- eps))).
Proof.
  intros hdr sat raot550nm iband normext normext_ib_0_3 roatm_upper eps.
  cbn zeta.
  unfold atmcorlamb2_mraot550nm, atmcorlamb2_new_mraot550nm, spec_adjusted_aot.
  cbn zeta. rewrite !lambda_scale.
  destruct (Rlt_dec eps 0.0) as [Hneg | Hpos];
    destruct (Rle_dec 0 eps) as [Hle | Hgt]; try (exfalso; lra).
  - repeat split.
    + unfold Rmin. destruct (Rge_dec raot550nm roatm_upper);
        destruct (Rle_dec raot550nm roatm_upper); lra.
    + left. split; [left; lra | reflexivity].
  - destruct (Z.gtb_spec iband (setup_max_band_indx sat)) as [Hout | Hin];
      destruct (Z.leb_spec iband (setup_max_band_indx sat)) as [Hin' | Hout'];
      try lia.
    + repeat split.
      * unfold Rmin. destruct (Rge_dec raot550nm roatm_upper);
          destruct (Rle_dec raot550nm roatm_upper); lra.
      * left. split; [right; lia | reflexivity].
    + repeat split.
      * unfold Rmin.
        match goal with
        | |- (if Rge_dec ?v _ then _ else _) = _ =>
            generalize v; intros w;
            destruct (Rge_dec w roatm_upper); destruct (Rle_dec w roatm_upper);
              lra
        end.
      * right. split; [split; [lra | lia] | reflexivity].
Qed.

(** ** Scattering-angle bracket *)

(** A scattering angle above [xtsmax] in a cell of more than two samples:
    the index is 1, the bracket is the first one of the table and the
    weight of its lower end is negative. *)
Lemma scat_bracket_above_xtsmax (xtsmax_i xtsmin_i scaa nbfi_i : R) :
  xtsmax_i < scaa -> 2 < nbfi_i ->
  scat_bracket xtsmax_i xtsmin_i scaa nbfi_i =
  (1%Z, xtsmax_i - IZR (1 - 1) * 4.0, xtsmax_i - IZR (1 - 1) * 4.0 - 4) /\
  (scaa - xtsmax_i) / (xtsmax_i - 4 - xtsmax_i) < 0.
Proof.
  intros Habove Hn. split.
  - unfold scat_bracket. cbn zeta.
    set (v := (xtsmax_i - scaa) * 0.25 + 1).
    assert (Hv : v < 1) by (unfold v; lra).
    assert (Hidx : (int_of_float v <= 0)%Z).
    { unfold int_of_float. destruct (Rlt_dec v 0) as [Hneg | Hnn].
      - apply Zceil_neg. exact Hneg.
      - assert (Zfloor v = 0%Z); [| lia].
        apply Zfloor_eq. simpl. lra. }
    destruct (Z.leb_spec (int_of_float v) 0) as [_ | Hpos]; [| lia].
    destruct (Rlt_dec (IZR (1 + 1)) nbfi_i) as [_ | Hfull]; [reflexivity |].
    exfalso. apply Hfull. simpl. lra.
  - replace (xtsmax_i - 4 - xtsmax_i) with (- 4) by ring.
    apply Ropp_lt_cancel. rewrite Ropp_0.
    replace (- ((scaa - xtsmax_i) / - 4)) with ((scaa - xtsmax_i) / 4)
      by (field; lra).
    apply Rdiv_lt_0_compat; lra.
Qed.

(** C9, as stated, fails twice.  A corner with [nbfi = 1] satisfies the
    table invariant [nbfi >= 1], and its bracket index is clamped to
    [nbfi - 1 = 0], below 1.  And the bound on the index does not keep the
    interpolation within the tabulated range: in a cell of 46 samples from
    [xtsmax = 160] down to [xtsmin = 100] the scattering angle 170 gets the
    index 1, within [1, 45], with the bracket [(156, 160)] and the weight
    [(170 - 160) / (156 - 160) = -2.5]: the reflectance is extrapolated
    from the first two samples. *)
Lemma scat_bracket_single_sample :
  (1 <= 1 /\
   fst (fst (scat_bracket 180 0 170 1)) = 0%Z /\
   ~ (1 <= fst (fst (scat_bracket 180 0 170 1)))%Z) /\
  (1 <= 46 /\ 160 < 170 /\
   scat_bracket 160 100 170 46 = (1%Z, 160 - IZR (1 - 1) * 4.0,
                                  160 - IZR (1 - 1) * 4.0 - 4) /\
   (1 <= fst (fst (scat_bracket 160 100 170 46)) <= 46 - 1)%Z /\
   (170 - 160) / (160 - 4 - 160) < 0).
Proof.
  split.
  - assert (Hval : fst (fst (scat_bracket 180 0 170 1)) = 0%Z).
    { unfold scat_bracket. cbn zeta.
      replace ((180 - 170) * 0.25 + 1) with 3.5 by lra.
      rewrite (int_of_float_eq 3 3.5) by (simpl; first [lia | lra]).
      cbn [Z.leb Z.compare Z.add Pos.add Pos.succ].
      destruct (Rlt_dec (IZR 4) 1) as [Hlt | _]; [exfalso; lra |].
      cbn [fst]. apply int_of_float_eq; [lia | simpl; lra]. }
    split; [lra |]. split; [exact Hval |]. rewrite Hval. lia.
  - assert (Habove : 160 < 170) by lra.
    assert (Hn : 2 < 46) by lra.
    destruct (scat_bracket_above_xtsmax 160 100 170 46 Habove Hn)
      as [Hbr Hw].
    split; [lra |]. split; [exact Habove |]. split; [exact Hbr |].
    split; [rewrite Hbr; cbn [fst]; lia | exact Hw].
Qed.

(** C9, amended.  When the corner has at least two scattering-angle samples,
    [nbfi >= 2], the bracket index satisfies [1 <= isca <= nbfi - 1] for
    every scattering angle.  The bound is one on the index alone and does
    not exclude extrapolation: for a scattering angle above [xtsmax], in a
    cell of more than two samples, the index is 1, the bracket is
    [(xtsmax - 4, xtsmax)] and the weight [(scaa - sca1) / (sca2 - sca1)]
    is negative, so that the reflectance is extrapolated beyond the
    tabulated range. *)
Theorem scat_bracket_isca_range :
  forall (xtsmax_i xtsmin_i scaa nbfi_i : R),
    2 <= nbfi_i ->
    let isca := fst (fst (scat_bracket xtsmax_i xtsmin_i scaa nbfi_i)) in
    let sca1 := snd (fst (scat_bracket xtsmax_i xtsmin_i scaa nbfi_i)) in
    let sca2 := snd (scat_bracket xtsmax_i xtsmin_i scaa nbfi_i) in
    ((1 <= isca)%Z /\ IZR isca <= nbfi_i - 1) /\
    (xtsmax_i < scaa -> 2 < nbfi_i ->
     isca = 1%Z /\ sca1 = xtsmax_i /\ sca2 = xtsmax_i - 4 /\
     (scaa - sca1) / (sca2 - sca1) < 0).
Proof.
  intros xtsmax_i xtsmin_i scaa nbfi_i Hn. cbn zeta. split.
  - unfold scat_bracket. cbn zeta.
    set (isca0 := int_of_float ((xtsmax_i - scaa) * 0.25 + 1)).
    set (isca1 := if (isca0 <=? 0)%Z then 1%Z else isca0).
    assert (H1 : (1 <= isca1)%Z).
    { unfold isca1. destruct (Z.leb_spec isca0 0); lia. }
    destruct (Rlt_dec (IZR (isca1 + 1)) nbfi_i) as [Hlt | Hge]; cbn [fst].
    + split; [exact H1 |]. rewrite plus_IZR in Hlt. lra.
    + rewrite int_of_float_nonneg by lra. split.
      * apply Zfloor_lub. simpl. lra.
      * apply Zfloor_bound.
  - intros Habove Hroom.
    destruct (scat_bracket_above_xtsmax xtsmax_i xtsmin_i scaa nbfi_i Habove
                Hroom) as [Hbr Hw].
    rewrite Hbr. cbn [fst snd].
    replace (xtsmax_i - IZR (1 - 1) * 4.0) with xtsmax_i by (simpl; lra).
    split; [reflexivity |]. split; [reflexivity |]. split; [reflexivity |].
    exact Hw.
Qed.

(** The bound in a cell of 46 samples from 160 down to 100 degrees, at the
    scattering angle 170 degrees, which lies above the cell's range. *)
Lemma scat_bracket_isca_range_witness :
  2 <= 46 /\
  let isca := fst (fst (scat_bracket 160 100 170 46)) in
  let sca1 := snd (fst (scat_bracket 160 100 170 46)) in
  let sca2 := snd (scat_bracket 160 100 170 46) in
  ((1 <= isca)%Z /\ IZR isca <= 46 - 1) /\
  (160 < 170 -> 2 < 46 ->
   isca = 1%Z /\ sca1 = 160 /\ sca2 = 160 - 4 /\
   (170 - sca1) / (sca2 - sca1) < 0).
Proof.
  assert (H : 2 <= 46) by lra.
  split; [exact H | exact (scat_bracket_isca_range 160 100 170 46 H)].
Defined.

(** ** Pressure at a grid point *)

Lemma blend_lower (a b : R) : a + (b - a) * 0 = a.
Proof. ring. Qed.

Lemma blend_upper (a b : R) : a + (b - a) * 1 = b.
Proof. ring. Qed.

(** Each composer blends the values of its two pressure levels linearly by
    the pressure fraction. *)
Lemma compsalb_pressure_blend {hdr : lut_header} (ip1 ip2 iaot1 iaot2 : Z)
    (raot550nm : R) (iband : Z) (pres : R)
    (tpres aot550nm sphalbt normext : farray) :
  compsalb ip1 ip2 iaot1 iaot2 raot550nm iband pres tpres aot550nm sphalbt
    normext =
  salb_at_pressure ip1 iaot1 iaot2 raot550nm iband aot550nm sphalbt +
  (salb_at_pressure ip2 iaot1 iaot2 raot550nm iband aot550nm sphalbt -
   salb_at_pressure ip1 iaot1 iaot2 raot550nm iband aot550nm sphalbt) *
  ((pres - tpres ip1) / (tpres ip2 - tpres ip1)).
Proof. reflexivity. Qed.

Lemma comptrans_pressure_blend {hdr : lut_header} (ip1 ip2 iaot1 iaot2 : Z)
    (xts raot550nm : R) (iband : Z) (pres : R)
    (tpres aot550nm transt : farray) (xtsstep xtsmin : R) (tts : farray)
    (xtts : R) :
  (sun_angle_index xts xtsstep xtsmin <= 19)%Z ->
  comptrans ip1 ip2 iaot1 iaot2 xts raot550nm iband pres tpres aot550nm
    transt xtsstep xtsmin tts xtts =
  trans_at_pressure ip1 iaot1 iaot2 xts raot550nm iband aot550nm transt
    xtsstep xtsmin tts +
  (trans_at_pressure ip2 iaot1 iaot2 xts raot550nm iband aot550nm transt
     xtsstep xtsmin tts -
   trans_at_pressure ip1 iaot1 iaot2 xts raot550nm iband aot550nm transt
     xtsstep xtsmin tts) *
  ((pres - tpres ip1) / (tpres ip2 - tpres ip1)).
Proof.
  intros Hdom. unfold comptrans. cbn zeta.
  destruct (Z.gtb_spec (sun_angle_index xts xtsstep xtsmin) 19); [lia |].
  reflexivity.
Qed.

Lemma comproatm_pressure_blend {hdr : lut_header} (ip1 ip2 iaot1 iaot2 : Z)
    (xts xtv xmus xmuv cosxfi raot550nm : R) (iband : Z) (pres : R)
    (tpres aot550nm rolutt tsmax tsmin nbfic nbfi tts : farray)
    (indts : iarray) (ttv : farray) (xtsstep xtvstep xtvmin : R)
    (its itv : Z) :
  comproatm ip1 ip2 iaot1 iaot2 xts xtv xmus xmuv cosxfi raot550nm iband pres
    tpres aot550nm rolutt tsmax tsmin nbfic nbfi tts indts ttv xtsstep
    xtvstep xtvmin its itv =
  roatm_at_pressure ip1 iaot1 iaot2 xts xtv xmus xmuv cosxfi raot550nm iband
    rolutt tsmax tsmin nbfic nbfi tts indts ttv its itv +
  (roatm_at_pressure ip2 iaot1 iaot2 xts xtv xmus xmuv cosxfi raot550nm iband
     rolutt tsmax tsmin nbfic nbfi tts indts ttv its itv -
   roatm_at_pressure ip1 iaot1 iaot2 xts xtv xmus xmuv cosxfi raot550nm iband
     rolutt tsmax tsmin nbfic nbfi tts indts ttv its itv) *
  ((pres - tpres ip1) / (tpres ip2 - tpres ip1)).
Proof. reflexivity. Qed.

Lemma tpres_grid_descending :
  forall i j : Z,
    (0 <= i < j)%Z -> (j <= @NPRES_VALS lasrc_header - 1)%Z ->
    tpres_grid j < tpres_grid i.
Proof.
  intros i j Hij Hj. cbn in Hj.
  assert (Hi : i = 0%Z \/ i = 1%Z \/ i = 2%Z \/ i = 3%Z \/ i = 4%Z \/ i = 5%Z)
    by lia.
  assert (Hj' : j = 1%Z \/ j = 2%Z \/ j = 3%Z \/ j = 4%Z \/ j = 5%Z \/ j = 6%Z)
    by lia.
  repeat (destruct Hi as [Hi | Hi]); repeat (destruct Hj' as [Hj' | Hj']);
    subst i j; try lia; eval_tables; lra.
Qed.

Section Pressure_grid_point.

Context {hdr : lut_header}.

Variables (tpres : farray) (k : Z).

Hypothesis tpres_descending :
  forall i j : Z,
    (0 <= i < j)%Z -> (j <= NPRES_VALS - 1)%Z -> tpres j < tpres i.

Hypothesis k_in_grid : (0 <= k <= NPRES_VALS - 1)%Z.

(** The pressure scan at a grid point: the level above it, or level 0 for
    the first entry. *)
Lemma atmcorlamb2_ip1_grid_point :
  atmcorlamb2_ip1 (tpres k) tpres = (if (k =? 0)%Z then 0 else k - 1)%Z.
Proof.
  unfold atmcorlamb2_ip1.
  pose proof (for_loop_last (fun i => tpres k < tpres i)
                (fun i => Rlt_dec (tpres k) (tpres i))
                (Z.to_nat (NPRES_VALS - 1)) 0 0) as Hscan.
  cbn zeta in Hscan. rewrite Z2Nat.id in Hscan by lia.
  set (r := for_loop _ _ _ _) in *.
  assert (Hbelow : forall j, (0 <= j < k)%Z -> tpres k < tpres j).
  { intros j Hj. apply tpres_descending; lia. }
  assert (Habove : forall j, (k <= j <= NPRES_VALS - 1)%Z ->
                             ~ tpres k < tpres j).
  { intros j Hj Hlt. destruct (Z.eq_dec j k) as [-> | Hne]; [lra |].
    assert (tpres j < tpres k) by (apply tpres_descending; lia). lra. }
  destruct (Z.eqb_spec k 0) as [Hk0 | Hk0].
  - destruct Hscan as [[Hr _] | [Hrng [HP _]]]; [exact Hr |].
    exfalso. apply Habove in HP; [exact HP | lia].
  - destruct Hscan as [[_ Hno] | [Hrng [HP Hno]]].
    + exfalso. apply (Hno (k - 1)%Z); [lia | apply Hbelow; lia].
    + assert (Hlt : (r < k)%Z).
      { destruct (Z_lt_le_dec r k) as [Hlt | Hge]; [exact Hlt |].
        exfalso. apply Habove in HP; [exact HP | lia]. }
      destruct (Z.eq_dec r (k - 1)) as [Heq | Hne]; [exact Heq |].
      exfalso. apply (Hno (k - 1)%Z); [lia | apply Hbelow; lia].
Qed.

(** C7.  When the query pressure is the grid entry [tpres[k]] of a strictly
    descending pressure table, the bracket of [atmcorlamb2] makes the
    pressure fraction [dpres] exactly 0 (for [k = 0]) or exactly 1 (the
    bracket is then [(k - 1, k)]), and [compsalb], [comptrans] (when it
    stores a result) and [comproatm] return exactly the value of the single
    pressure level [k]. *)
Theorem pressure_grid_point_is_exact :
  let pres := tpres k in
  let ip1 := atmcorlamb2_ip1 pres tpres in
  let ip2 := (ip1 + 1)%Z in
  let dpres := (pres - tpres ip1) / (tpres ip2 - tpres ip1) in
  ((k = 0%Z /\ ip1 = 0%Z /\ dpres = 0) \/
   ((1 <= k)%Z /\ ip1 = (k - 1)%Z /\ ip2 = k /\ dpres = 1)) /\
  (forall (iaot1 iaot2 : Z) (raot550nm : R) (iband : Z)
          (aot550nm sphalbt normext : farray),
      compsalb ip1 ip2 iaot1 iaot2 raot550nm iband pres tpres aot550nm
        sphalbt normext =
      salb_at_pressure k iaot1 iaot2 raot550nm iband aot550nm sphalbt) /\
  (forall (iaot1 iaot2 : Z) (xts raot550nm : R) (iband : Z)
          (aot550nm transt : farray) (xtsstep xtsmin : R) (tts : farray)
          (xtts : R),
      (sun_angle_index xts xtsstep xtsmin <= 19)%Z ->
      comptrans ip1 ip2 iaot1 iaot2 xts raot550nm iband pres tpres aot550nm
        transt xtsstep xtsmin tts xtts =
      trans_at_pressure k iaot1 iaot2 xts raot550nm iband aot550nm transt
        xtsstep xtsmin tts) /\
  (forall (iaot1 iaot2 : Z) (xts xtv xmus xmuv cosxfi raot550nm : R)
          (iband : Z) (aot550nm rolutt tsmax tsmin nbfic nbfi tts : farray)
          (indts : iarray) (ttv : farray) (xtsstep xtvstep xtvmin : R)
          (its itv : Z),
      comproatm ip1 ip2 iaot1 iaot2 xts xtv xmus xmuv cosxfi raot550nm iband
        pres tpres aot550nm rolutt tsmax tsmin nbfic nbfi tts indts ttv
        xtsstep xtvstep xtvmin its itv =
      roatm_at_pressure k iaot1 iaot2 xts xtv xmus xmuv cosxfi raot550nm
        iband rolutt tsmax tsmin nbfic nbfi tts indts ttv its itv).
Proof.
  cbn zeta.
  assert (Hcases :
    (k = 0%Z /\ atmcorlamb2_ip1 (tpres k) tpres = 0%Z /\
     (tpres k - tpres (atmcorlamb2_ip1 (tpres k) tpres)) /
     (tpres (atmcorlamb2_ip1 (tpres k) tpres + 1)%Z -
      tpres (atmcorlamb2_ip1 (tpres k) tpres)) = 0) \/
    ((1 <= k)%Z /\ atmcorlamb2_ip1 (tpres k) tpres = (k - 1)%Z /\
     (atmcorlamb2_ip1 (tpres k) tpres + 1)%Z = k /\
     (tpres k - tpres (atmcorlamb2_ip1 (tpres k) tpres)) /
     (tpres (atmcorlamb2_ip1 (tpres k) tpres + 1)%Z -
      tpres (atmcorlamb2_ip1 (tpres k) tpres)) = 1)).
  { rewrite atmcorlamb2_ip1_grid_point.
    destruct (Z.eqb_spec k 0) as [Hk0 | Hk0].
    - left. repeat split; [exact Hk0 |]. rewrite Hk0.
      unfold Rdiv. rewrite Rminus_diag. apply Rmult_0_l.
    - right. replace (k - 1 + 1)%Z with k by lia.
      repeat split; [lia |].
      assert (tpres k < tpres (k - 1)%Z) by (apply tpres_descending; lia).
      field. lra. }
  split; [exact Hcases |].
  destruct Hcases as [[Hk [Hip Hd]] | [Hk [Hip [Hip2 Hd]]]].
  - repeat split; intros.
    + rewrite compsalb_pressure_blend, Hd, blend_lower, Hip, Hk. reflexivity.
    + rewrite comptrans_pressure_blend, Hd, blend_lower, Hip, Hk by assumption.
      reflexivity.
    + rewrite comproatm_pressure_blend, Hd, blend_lower, Hip, Hk. reflexivity.
  - repeat split; intros.
    + rewrite compsalb_pressure_blend, Hd, blend_upper, Hip2. reflexivity.
    + rewrite comptrans_pressure_blend, Hd, blend_upper, Hip2 by assumption.
      reflexivity.
    + rewrite comproatm_pressure_blend, Hd, blend_upper, Hip2. reflexivity.
Qed.

End Pressure_grid_point.

(** The pressure grid above at its entry 3, 800 mb. *)
Lemma pressure_grid_point_is_exact_witness :
  (forall i j : Z,
      (0 <= i < j)%Z -> (j <= @NPRES_VALS lasrc_header - 1)%Z ->
      tpres_grid j < tpres_grid i) /\
  (0 <= 3 <= @NPRES_VALS lasrc_header - 1)%Z /\
  let pres := tpres_grid 3%Z in
  let ip1 := atmcorlamb2_ip1 (hdr := lasrc_header) pres tpres_grid in
  let ip2 := (ip1 + 1)%Z in
  let dpres := (pres - tpres_grid ip1) / (tpres_grid ip2 - tpres_grid ip1) in
  ((3 = 0)%Z /\ ip1 = 0%Z /\ dpres = 0 \/
   ((1 <= 3)%Z /\ ip1 = (3 - 1)%Z /\ ip2 = 3%Z /\ dpres = 1)) /\
  (forall (iaot1 iaot2 : Z) (raot550nm : R) (iband : Z)
          (aot550nm sphalbt normext : farray),
      compsalb (hdr := lasrc_header) ip1 ip2 iaot1 iaot2 raot550nm iband pres
        tpres_grid aot550nm sphalbt normext =
      salb_at_pressure (hdr := lasrc_header) 3 iaot1 iaot2 raot550nm iband
        aot550nm sphalbt) /\
  (forall (iaot1 iaot2 : Z) (xts raot550nm : R) (iband : Z)
          (aot550nm transt : farray) (xtsstep xtsmin : R) (tts : farray)
          (xtts : R),
      (sun_angle_index xts xtsstep xtsmin <= 19)%Z ->
      comptrans (hdr := lasrc_header) ip1 ip2 iaot1 iaot2 xts raot550nm iband
        pres tpres_grid aot550nm transt xtsstep xtsmin tts xtts =
      trans_at_pressure (hdr := lasrc_header) 3 iaot1 iaot2 xts raot550nm
        iband aot550nm transt xtsstep xtsmin tts) /\
  (forall (iaot1 iaot2 : Z) (xts xtv xmus xmuv cosxfi raot550nm : R)
          (iband : Z) (aot550nm rolutt tsmax tsmin nbfic nbfi tts : farray)
          (indts : iarray) (ttv : farray) (xtsstep xtvstep xtvmin : R)
          (its itv : Z),
      comproatm (hdr := lasrc_header) ip1 ip2 iaot1 iaot2 xts xtv xmus xmuv
        cosxfi raot550nm iband pres tpres_grid aot550nm rolutt tsmax tsmin
        nbfic nbfi tts indts ttv xtsstep xtvstep xtvmin its itv =
      roatm_at_pressure (hdr := lasrc_header) 3 iaot1 iaot2 xts xtv xmus xmuv
        cosxfi raot550nm iband rolutt tsmax tsmin nbfic nbfi tts indts ttv
        its itv).
Proof.
  assert (Hk : (0 <= 3 <= @NPRES_VALS lasrc_header - 1)%Z) by (cbn; lia).
  split; [exact tpres_grid_descending |].
  split; [exact Hk |].
  exact (pressure_grid_point_is_exact (hdr := lasrc_header) tpres_grid 3
           tpres_grid_descending Hk).
Defined.

(** ** Identically zero tables *)

Lemma comptg_positive :
  forall (iband : Z) (xmus xmuv uoz uwv atm_pres : R)
         (ogtransa1 ogtransb0 ogtransb1 wvtransa wvtransb oztransa : farray),
    let '(tgoz, tgwv, tgwvhalf, tgog) :=
      comptg iband xmus xmuv uoz uwv atm_pres ogtransa1 ogtransb0 ogtransb1
        wvtransa wvtransb oztransa in
    0 < tgoz /\ 0 < tgwv /\ 0 < tgwvhalf /\ 0 < tgog.
Proof.
  intros. unfold comptg. cbn zeta.
  repeat split; try apply exp_pos.
  - destruct (Rgt_dec _ _); [apply exp_pos | lra].
  - destruct (Rgt_dec _ _); [apply exp_pos | lra].
Qed.

Section Zero_tables.

Context {hdr : lut_header}.

Variables (rolutt transt sphalbt : farray).

Hypothesis rolutt_zero : forall i, rolutt i = 0.
Hypothesis transt_zero : forall i, transt i = 0.
Hypothesis sphalbt_zero : forall i, sphalbt i = 0.

Lemma interp_refl_zero (its itv : Z) (xtsmax xtsmin : farray) (scaa : R)
    (nbfic nbfi : farray) (indts : iarray) (rolutt_indx : Z) (t u : R) :
  interp_refl_using_scat_angle its itv xtsmax xtsmin scaa nbfic nbfi indts
    rolutt rolutt_indx t u = 0.
Proof.
  unfold interp_refl_using_scat_angle. cbv beta zeta.
  repeat match goal with
  | |- context [scat_bracket ?a ?b ?c ?d] =>
      destruct (scat_bracket a b c d) as [[? ?] ?]
  end.
  repeat match goal with
  | |- context [if ?b then _ else _] => destruct b
  end;
  rewrite ?rolutt_zero; unfold Rdiv; ring.
Qed.

Lemma comproatm_zero (ip1 ip2 iaot1 iaot2 : Z)
    (xts xtv xmus xmuv cosxfi raot550nm : R) (iband : Z) (pres : R)
    (tpres aot550nm tsmax tsmin nbfic nbfi tts : farray) (indts : iarray)
    (ttv : farray) (xtsstep xtvstep xtvmin : R) (its itv : Z) :
  comproatm ip1 ip2 iaot1 iaot2 xts xtv xmus xmuv cosxfi raot550nm iband pres
    tpres aot550nm rolutt tsmax tsmin nbfic nbfi tts indts ttv xtsstep
    xtvstep xtvmin its itv = 0.
Proof.
  unfold comproatm. cbv zeta. rewrite !interp_refl_zero. ring.
Qed.

Lemma comptrans_zero (ip1 ip2 iaot1 iaot2 : Z) (xts raot550nm : R) (iband : Z)
    (pres : R) (tpres aot550nm : farray) (xtsstep xtsmin : R) (tts : farray)
    (xtts : R) :
  (sun_angle_index xts xtsstep xtsmin <= 19)%Z ->
  comptrans ip1 ip2 iaot1 iaot2 xts raot550nm iband pres tpres aot550nm
    transt xtsstep xtsmin tts xtts = 0.
Proof.
  intros Hdom. unfold comptrans. cbv zeta.
  destruct (Z.gtb_spec (sun_angle_index xts xtsstep xtsmin) 19); [lia |].
  rewrite !transt_zero. unfold Rdiv. ring.
Qed.

Lemma compsalb_zero (ip1 ip2 iaot1 iaot2 : Z) (raot550nm : R) (iband : Z)
    (pres : R) (tpres aot550nm normext : farray) :
  compsalb ip1 ip2 iaot1 iaot2 raot550nm iband pres tpres aot550nm sphalbt
    normext = 0.
Proof.
  unfold compsalb. cbv zeta. rewrite !sphalbt_zero. unfold Rdiv. ring.
Qed.

Variables (sat : Sat_t) (xts xtv xmus xmuv xfi cosxfi raot550nm : R)
  (iband : Z) (pres : R) (tpres aot550nm : farray)
  (xtsstep xtsmin xtvstep xtvmin : R)
  (normext tsmax tsmin nbfic nbfi tts : farray) (indts : iarray)
  (ttv : farray) (uoz uwv : R)
  (tauray ogtransa1 ogtransb0 ogtransb1 wvtransa wvtransb oztransa : farray)
  (rotoa eps : R) (xtts xttv : R).

Hypothesis solar_in_domain : (sun_angle_index xts xtsstep xtsmin <= 19)%Z.

Local Abbreviation solver :=
  (atmcorlamb2 sat xts xtv xmus xmuv xfi cosxfi raot550nm iband pres tpres
     aot550nm rolutt transt xtsstep xtsmin xtvstep xtvmin sphalbt normext
     tsmax tsmin nbfic nbfi tts indts ttv uoz uwv tauray ogtransa1 ogtransb0
     ogtransb1 wvtransa wvtransb oztransa rotoa eps xtts xttv).
Local Abbreviation gases :=
  (comptg iband xmus xmuv uoz uwv (pres * ONE_DIV_ATMOS_PRES_0) ogtransa1
     ogtransb0 ogtransb1 wvtransa wvtransb oztransa).
Local Abbreviation rorayp :=
  (local_chand xfi xmuv xmus (tauray iband * (pres * ONE_DIV_ATMOS_PRES_0))).

(** The outputs of [atmcorlamb2] over zero tables. *)
Lemma atmcorlamb2_zero_tables_outputs :
  let '(tgoz, tgwv, tgwvhalf, tgog) := gases in
  let roatm := (0 - rorayp) * tgwvhalf + rorayp in
  let r := rotoa / (tgog * tgoz) - roatm in
  solver =
  Success {| out_roslamb := r / 0;
             out_tgo := tgog * tgoz;
             out_roatm := roatm;
             out_ttatmg := 0;
             out_satm := 0;
             out_xrorayp := rorayp |}.
Proof.
  pose proof (atmcorlamb2_cases sat xts xtv xmus xmuv xfi cosxfi raot550nm
                iband pres tpres aot550nm rolutt transt xtsstep xtsmin xtvstep
                xtvmin sphalbt normext tsmax tsmin nbfic nbfi tts indts ttv
                uoz uwv tauray ogtransa1 ogtransb0 ogtransb1 wvtransa wvtransb
                oztransa rotoa eps xtts xttv) as [[Hidx _] | [_ Hok]].
  - apply Z.gtb_gt in Hidx. lia.
  - destruct gases as [[[tgoz tgwv] tgwvhalf] tgog]. cbn zeta in Hok |- *.
    rewrite Hok. rewrite comproatm_zero, compsalb_zero.
    rewrite (comptrans_zero _ _ _ _ xts) by exact solar_in_domain.
    repeat rewrite Rmult_0_l. rewrite Rplus_0_l. reflexivity.
Qed.

Local Abbreviation solver_roslamb :=
  (atmcorlamb2_roslamb sat xts xtv xmus xmuv xfi cosxfi raot550nm iband pres
     tpres aot550nm rolutt transt xtsstep xtsmin xtvstep xtvmin sphalbt
     normext tsmax tsmin nbfic nbfi tts indts ttv uoz uwv tauray ogtransa1
     ogtransb0 ogtransb1 wvtransa wvtransb oztransa rotoa eps xtts xttv).

(** The last division of [atmcorlamb2] over zero tables is a division by
    zero. *)
Lemma atmcorlamb2_zero_tables_division :
  solver_roslamb = Success NotFinite.
Proof.
  pose proof atmcorlamb2_zero_tables_outputs as Hout.
  pose proof (comptg_positive iband xmus xmuv uoz uwv
                (pres * ONE_DIV_ATMOS_PRES_0) ogtransa1 ogtransb0 ogtransb1
                wvtransa wvtransb oztransa) as Hpos.
  unfold atmcorlamb2_roslamb.
  destruct gases as [[[tgoz tgwv] tgwvhalf] tgog]. cbn zeta in Hout.
  destruct Hpos as (Hoz & _ & _ & Hog).
  rewrite Hout. cbn [out_tgo out_roatm out_ttatmg out_satm].
  unfold atmcorlamb2_inversion, float_div.
  destruct (Req_dec_T (tgog * tgoz) 0) as [Hzero | _].
  { exfalso. assert (0 < tgog * tgoz) by (apply Rmult_lt_0_compat; assumption).
    lra. }
  cbn zeta.
  destruct (Req_dec_T _ 0) as [_ | Hne]; [reflexivity |].
  exfalso. apply Hne. ring.
Qed.

(** C6, amended.  Over identically zero reflectance, transmission and
    albedo tables and a solar zenith in the domain, [atmcorlamb2] returns
    [SUCCESS] with [satm = 0], [ttatmg = 0], [tgo = tgog*tgoz] and
    [roatm = (0 - rorayp)*tgwvhalf + rorayp], the Rayleigh part the
    water-vapour factor leaves; the divisor [ttatmg + satm*r] of the last
    statement is 0, so the division that stores [roslamb] is a division of
    [r = rotoa/tgo - roatm] by zero: what it stores is not a finite
    reflectance, and so it is not [rotoa/tgo]. *)
Theorem atmcorlamb2_zero_tables :
  exists o : atm_out,
    solver = Success o /\
    let '(tgoz, tgwv, tgwvhalf, tgog) := gases in
    out_tgo o = tgog * tgoz /\
    out_roatm o = (0 - rorayp) * tgwvhalf + rorayp /\
    out_ttatmg o = 0 /\
    out_satm o = 0 /\
    let r := rotoa / out_tgo o - out_roatm o in
    out_ttatmg o + out_satm o * r = 0 /\
    solver_roslamb = Success NotFinite /\
    solver_roslamb <> Success (Finite (rotoa / out_tgo o)).
Proof.
  pose proof atmcorlamb2_zero_tables_outputs as Hout.
  pose proof atmcorlamb2_zero_tables_division as Hdiv.
  destruct gases as [[[tgoz tgwv] tgwvhalf] tgog]. cbn zeta in Hout.
  eexists. split; [exact Hout |]. cbn.
  repeat split; try reflexivity; [ring | exact Hdiv |].
  rewrite Hdiv. discriminate.
Qed.

End Zero_tables.

Lemma zero_table_zero : forall i : Z, zero_table i = 0.
Proof. reflexivity. Qed.

Lemma sample_solar_in_domain : (sun_angle_index 0 4 0 <= 19)%Z.
Proof. rewrite sun_angle_index_low by lra. lia. Qed.

(** The sample call over zero tables. *)
Lemma atmcorlamb2_zero_tables_witness :
  (forall i : Z, zero_table i = 0) /\
  (sun_angle_index 0 4 0 <= 19)%Z /\
  exists o : atm_out,
    sample_call 0 0 0.07 1013 0.2 (-1) zero_table zero_table zero_table 0 0 =
    Success o /\
    let '(tgoz, tgwv, tgwvhalf, tgog) :=
      comptg 0 1 1 1 1 (1013 * @ONE_DIV_ATMOS_PRES_0 lasrc_header) unit_table
        unit_table unit_table unit_table unit_table unit_table in
    let rorayp :=
      local_chand (hdr := lasrc_header) 0 1 1
        (unit_table 0%Z * (1013 * @ONE_DIV_ATMOS_PRES_0 lasrc_header)) in
    let roslamb :=
      atmcorlamb2_roslamb (hdr := lasrc_header) SAT_LANDSAT_8 0 0 1 1 0 1
        0.07 0%Z 1013 tpres_grid aot550nm_grid zero_table zero_table 4 0 4 0
        zero_table unit_table unit_table zero_table unit_table unit_table
        tts_grid zero_index tts_grid 1 1 unit_table unit_table unit_table
        unit_table unit_table unit_table unit_table 0.2 (-1) 0 0 in
    out_tgo o = tgog * tgoz /\
    out_roatm o = (0 - rorayp) * tgwvhalf + rorayp /\
    out_ttatmg o = 0 /\
    out_satm o = 0 /\
    let r := 0.2 / out_tgo o - out_roatm o in
    out_ttatmg o + out_satm o * r = 0 /\
    roslamb = Success NotFinite /\
    roslamb <> Success (Finite (0.2 / out_tgo o)).
Proof.
  split; [exact zero_table_zero |].
  split; [exact sample_solar_in_domain |].
  exact (atmcorlamb2_zero_tables (hdr := lasrc_header)
           zero_table zero_table zero_table
           zero_table_zero zero_table_zero zero_table_zero
           SAT_LANDSAT_8 0 0 1 1 0 1 0.07 0%Z 1013 tpres_grid aot550nm_grid
           4 0 4 0 unit_table unit_table zero_table unit_table unit_table
           tts_grid zero_index tts_grid 1 1 unit_table unit_table unit_table
           unit_table unit_table unit_table unit_table 0.2 (-1) 0 0
           sample_solar_in_domain).
Defined.

(** C6, as stated, fails: on zero tables the call below returns [SUCCESS],
    the divisor of its last statement is 0, and the division stores no
    finite number in [roslamb], whatever [rotoa] is: neither for
    [rotoa = 0.2] nor for [rotoa = 0] is the content of [roslamb] the
    number [rotoa/tgo]. *)
Lemma zero_tables_roslamb_is_not_rotoa_over_tgo :
  (exists o : atm_out,
     sample_call 0 0 0.07 1013 0.2 (-1) zero_table zero_table zero_table 0 0 =
     Success o /\
     out_ttatmg o + out_satm o * (0.2 / out_tgo o - out_roatm o) = 0 /\
     atmcorlamb2_roslamb (hdr := lasrc_header) SAT_LANDSAT_8 0 0 1 1 0 1 0.07
       0%Z 1013 tpres_grid aot550nm_grid zero_table zero_table 4 0 4 0
       zero_table unit_table unit_table zero_table unit_table unit_table
       tts_grid zero_index tts_grid 1 1 unit_table unit_table unit_table
       unit_table unit_table unit_table unit_table 0.2 (-1) 0 0 <>
     Success (Finite (0.2 / out_tgo o))) /\
  (exists o : atm_out,
     sample_call 0 0 0.07 1013 0 (-1) zero_table zero_table zero_table 0 0 =
     Success o /\
     out_ttatmg o + out_satm o * (0 / out_tgo o - out_roatm o) = 0 /\
     atmcorlamb2_roslamb (hdr := lasrc_header) SAT_LANDSAT_8 0 0 1 1 0 1 0.07
       0%Z 1013 tpres_grid aot550nm_grid zero_table zero_table 4 0 4 0
       zero_table unit_table unit_table zero_table unit_table unit_table
       tts_grid zero_index tts_grid 1 1 unit_table unit_table unit_table
       unit_table unit_table unit_table unit_table 0 (-1) 0 0 <>
     Success (Finite (0 / out_tgo o))).
Proof.
  assert (Hcase : forall rotoa : R,
    exists o : atm_out,
      sample_call 0 0 0.07 1013 rotoa (-1) zero_table zero_table zero_table
        0 0 = Success o /\
      out_ttatmg o + out_satm o * (rotoa / out_tgo o - out_roatm o) = 0 /\
      atmcorlamb2_roslamb (hdr := lasrc_header) SAT_LANDSAT_8 0 0 1 1 0 1
        0.07 0%Z 1013 tpres_grid aot550nm_grid zero_table zero_table 4 0 4 0
        zero_table unit_table unit_table zero_table unit_table unit_table
        tts_grid zero_index tts_grid 1 1 unit_table unit_table unit_table
        unit_table unit_table unit_table unit_table rotoa (-1) 0 0 <>
      Success (Finite (rotoa / out_tgo o))).
  { intros rotoa.
    pose proof (atmcorlamb2_zero_tables_outputs (hdr := lasrc_header)
                  zero_table zero_table zero_table
                  zero_table_zero zero_table_zero zero_table_zero
                  SAT_LANDSAT_8 0 0 1 1 0 1 0.07 0%Z 1013 tpres_grid
                  aot550nm_grid 4 0 4 0 unit_table unit_table zero_table
                  unit_table unit_table tts_grid zero_index tts_grid 1 1
                  unit_table unit_table unit_table unit_table unit_table
                  unit_table unit_table rotoa (-1) 0 0 sample_solar_in_domain)
      as Hout.
    pose proof (atmcorlamb2_zero_tables_division (hdr := lasrc_header)
                  zero_table zero_table zero_table
                  zero_table_zero zero_table_zero zero_table_zero
                  SAT_LANDSAT_8 0 0 1 1 0 1 0.07 0%Z 1013 tpres_grid
                  aot550nm_grid 4 0 4 0 unit_table unit_table zero_table
                  unit_table unit_table tts_grid zero_index tts_grid 1 1
                  unit_table unit_table unit_table unit_table unit_table
                  unit_table unit_table rotoa (-1) 0 0 sample_solar_in_domain)
      as Hdiv.
    destruct (comptg 0 1 1 1 1 (1013 * @ONE_DIV_ATMOS_PRES_0 lasrc_header)
                unit_table unit_table unit_table unit_table unit_table
                unit_table) as [[[tgoz tgwv] tgwvhalf] tgog].
    cbn zeta in Hout.
    eexists. split; [exact Hout |].
    cbn [out_ttatmg out_satm out_tgo out_roatm].
    split; [ring |]. rewrite Hdiv. discriminate. }
  split; apply Hcase.
Qed.

(** ** Logarithmic AOT interpolation at a grid point *)

(** The partial sums of the exponential series bound [exp] from below. *)
Lemma exp_partial_sum (x : R) (N : nat) :
  0 <= x -> sum_f_R0 (fun i => / INR (fact i) * x ^ i) N <= exp x.
Proof.
  intros Hx. apply sum_incr.
  - exact (proj2_sig (exist_exp x)).
  - intros n. apply Rmult_le_pos.
    + left. apply Rinv_0_lt_compat. apply INR_fact_lt_0.
    + apply pow_le. exact Hx.
Qed.

Lemma fact_values :
  INR (fact 0) = 1 /\ INR (fact 1) = 1 /\ INR (fact 2) = 2 /\ INR (fact 3) = 6 /\
  INR (fact 4) = 24 /\ INR (fact 5) = 120 /\ INR (fact 6) = 720 /\
  INR (fact 7) = 5040.
Proof.
  repeat split; rewrite INR_IZR_INZ; apply f_equal; vm_compute; reflexivity.
Qed.

Lemma exp_gt_2 : 2 < exp 0.693157181.
Proof.
  pose proof (exp_partial_sum 0.693157181 7 ltac:(lra)) as H.
  cbn [sum_f_R0] in H.
  destruct fact_values as (F0 & F1 & F2 & F3 & F4 & F5 & F6 & F7).
  rewrite F0, F1, F2, F3, F4, F5, F6, F7 in H.
  cbn [pow] in H.
  lra.
Qed.

Lemma ln_2_upper : ln 2 < 0.693157181.
Proof.
  apply Rlt_le_trans with (ln (exp 0.693157181)).
  - apply ln_increasing; [lra | apply exp_gt_2].
  - rewrite ln_exp. lra.
Qed.

Lemma logaot550nm_13_14 :
  logaot550nm 13%Z = 0.587786665 /\ logaot550nm 14%Z = 0.693157181.
Proof. split; reflexivity. Qed.

Lemma comproatm_deltaaot_at_2 : comproatm_deltaaot 13 14 2 < 1.
Proof.
  unfold comproatm_deltaaot. cbn zeta.
  destruct logaot550nm_13_14 as [-> ->].
  pose proof ln_2_upper as Hln.
  apply (Rmult_lt_reg_r (0.693157181 - 0.587786665)); [lra |].
  unfold Rdiv. rewrite Rmult_assoc, Rinv_l by lra. lra.
Qed.

Lemma atmcorlamb2_iaot1_at_2 : atmcorlamb2_iaot1 2 aot550nm_grid = 13%Z.
Proof.
  unfold atmcorlamb2_iaot1. cbv [for_loop]. eval_tables.
  decide_comparisons. reflexivity.
Qed.

Lemma atmcorlamb2_ip1_at_1050 :
  atmcorlamb2_ip1 (hdr := lasrc_header) 1050 tpres_grid = 0%Z.
Proof.
  unfold atmcorlamb2_ip1.
  change (Z.to_nat (@NPRES_VALS lasrc_header - 1)) with 6%nat.
  cbv [for_loop]. eval_tables.
  decide_comparisons. reflexivity.
Qed.

(** With both interpolation weights at 1 and the sun index 0, the four-point
    blend is the table entry of corner 0. *)
Lemma interp_refl_corner_0 (itv : Z) (xtsmax xtsmin : farray) (scaa : R)
    (nbfic nbfi : farray) (indts : iarray) (rolutt : farray) (rolutt_indx : Z) :
  interp_refl_using_scat_angle 0 itv xtsmax xtsmin scaa nbfic nbfi indts rolutt
    rolutt_indx 1 1 =
  rolutt (rolutt_indx +
          int_of_float (IZR (indts 0%Z) + nbfic 0%Z - nbfi 0%Z))%Z.
Proof.
  unfold interp_refl_using_scat_angle. cbv beta zeta.
  match goal with
  | |- ?a3 + 1 * (?a1 - ?a3) + 1 * (?a2 - ?a3) +
       1 * 1 * (?a0 - ?a1 - ?a2 + ?a3) = _ =>
      transitivity a0; [ring |]
  end.
  reflexivity.
Qed.


Lemma int_of_float_0 : int_of_float 0 = 0%Z.
Proof. apply int_of_float_eq; [lia | simpl; lra]. Qed.

Lemma sample_corner_value (iaot : Z) :
  roatm_at_corner (hdr := lasrc_header) 0 iaot 0 0 1 1 1 0 aot_step_table
    unit_table zero_table unit_table unit_table tts_grid zero_index tts_grid
    0 0 = aot_step_table (iaot * 8000)%Z.
Proof.
  unfold roatm_at_corner. cbn zeta.
  match goal with
  | |- interp_refl_using_scat_angle _ _ _ _ _ _ _ _ _ _ ?t ?u = _ =>
      replace t with 1 by (unfold tts_grid; simpl; lra);
      replace u with 1 by (unfold tts_grid; simpl; lra)
  end.
  rewrite interp_refl_corner_0. f_equal.
  match goal with
  | |- context [int_of_float ?x] =>
      replace x with 0
        by (cbv [zero_index four_pts of_list nth Z.to_nat unit_table]; lra)
  end.
  rewrite int_of_float_0. cbn. lia.
Qed.

(** C8 at the grid point 2.0.  The query AOT is the grid entry of index 14
    and the brackets of [atmcorlamb2] are [(13, 14)]; the reflectance table
    is 0 at the AOT corner 13 and 1 at the corner 14, and the pressure is the
    grid entry 0.  [comproatm] returns the blend fraction
    [(ln 2 - 0.587786665) / (0.693157181 - 0.587786665)], which is below the
    value 1 of the corner: the tabulated 0.693157181 is not the logarithm of
    2.0. *)
Theorem comproatm_at_aot_grid_point_2 :
  let iaot1 := atmcorlamb2_iaot1 2 aot550nm_grid in
  let ip1 := atmcorlamb2_ip1 (hdr := lasrc_header) 1050 tpres_grid in
  let corner (iaot : Z) :=
    roatm_at_corner (hdr := lasrc_header) 0 iaot 0 0 1 1 1 0 aot_step_table
      unit_table zero_table unit_table unit_table tts_grid zero_index
      tts_grid 0 0 in
  let roatm :=
    comproatm (hdr := lasrc_header) ip1 (ip1 + 1) iaot1 (iaot1 + 1) 0 0 1 1 1
      2 0 1050 tpres_grid aot550nm_grid aot_step_table unit_table zero_table
      unit_table unit_table tts_grid zero_index tts_grid 4 4 0 0 0 in
  aot550nm_grid 14%Z = 2 /\ tpres_grid 0%Z = 1050 /\
  iaot1 = 13%Z /\ ip1 = 0%Z /\
  corner 13%Z = 0 /\ corner 14%Z = 1 /\
  roatm = comproatm_deltaaot 13 14 2 /\
  roatm < corner 14%Z.
Proof.
  cbn zeta.
  rewrite atmcorlamb2_iaot1_at_2, atmcorlamb2_ip1_at_1050.
  assert (H13 : aot_step_table (13 * 8000)%Z = 0) by reflexivity.
  assert (H14 : aot_step_table (14 * 8000)%Z = 1) by reflexivity.
  assert (Hroatm :
    comproatm (hdr := lasrc_header) 0 (0 + 1) 13 (13 + 1) 0 0 1 1 1 2 0 1050
      tpres_grid aot550nm_grid aot_step_table unit_table zero_table
      unit_table unit_table tts_grid zero_index tts_grid 4 4 0 0 0 =
    comproatm_deltaaot 13 14 2).
  { rewrite comproatm_pressure_blend.
    replace ((1050 - tpres_grid 0%Z) / (tpres_grid (0 + 1)%Z - tpres_grid 0%Z))
      with 0 by (eval_tables; lra).
    rewrite blend_lower. unfold roatm_at_pressure. cbn zeta.
    rewrite !sample_corner_value.
    change (13 + 1)%Z with 14%Z. rewrite H13, H14. ring. }
  repeat split; try reflexivity.
  - eval_tables. lra.
  - eval_tables. lra.
  - rewrite sample_corner_value. exact H13.
  - rewrite sample_corner_value. exact H14.
  - exact Hroatm.
  - rewrite Hroatm, sample_corner_value, H14. exact comproatm_deltaaot_at_2.
Qed.

(** Where the tabulated logarithm of the upper bracket is the logarithm of
    the query, the blend fraction is 1 and the blend is the upper corner. *)
Lemma comproatm_deltaaot_exact_log (iaot1 iaot2 : Z) (raot550nm : R) :
  logaot550nm iaot2 = ln raot550nm ->
  logaot550nm iaot1 <> logaot550nm iaot2 ->
  comproatm_deltaaot iaot1 iaot2 raot550nm = 1.
Proof.
  intros Hlog Hne. unfold comproatm_deltaaot. cbn zeta. rewrite <- Hlog.
  field. lra.
Qed.

(** So it is at the grid point 1.0, whose logarithm 0 the table holds
    exactly. *)
Lemma comproatm_deltaaot_at_1 : comproatm_deltaaot 8 9 1 = 1.
Proof.
  unfold comproatm_deltaaot. cbn zeta. rewrite ln_1.
  cbv [logaot550nm of_list nth Z.to_nat Pos.to_nat Pos.iter_op Nat.add].
  lra.
Qed.

(** ** Concrete calls of the solver *)

Lemma sample_call_succeeds (xtv raot550nm pres rotoa eps : R)
    (rolutt transt sphalbt : farray) (xtts xttv : R) :
  retval (sample_call 0 xtv raot550nm pres rotoa eps rolutt transt sphalbt
            xtts xttv) = SUCCESS.
Proof.
  unfold sample_call, atmcorlamb2. cbn zeta.
  rewrite sun_angle_index_low by lra. cbn [Z.gtb Z.compare].
  destruct (comptg _ _ _ _ _ _ _ _ _ _ _ _) as [[[tgoz tgwv] tgwvhalf] tgog].
  reflexivity.
Qed.

(** The sample call over unit tables returns [SUCCESS] and its outputs are
    composed as stated. *)
Lemma atmcorlamb2_composition_witness :
  retval (sample_call 0 0 0.07 1013 0.2 (-1) unit_table unit_table unit_table
            0 0) = SUCCESS /\
  exists o : atm_out,
    sample_call 0 0 0.07 1013 0.2 (-1) unit_table unit_table unit_table 0 0 =
    Success o /\
    let mraot :=
      atmcorlamb2_mraot550nm (hdr := lasrc_header) SAT_LANDSAT_8 0.07 0
        unit_table (-1) in
    let ip1 := atmcorlamb2_ip1 (hdr := lasrc_header) 1013 tpres_grid in
    let iaot1 := atmcorlamb2_iaot1 mraot aot550nm_grid in
    let atm_pres := 1013 * @ONE_DIV_ATMOS_PRES_0 lasrc_header in
    let rorayp :=
      local_chand (hdr := lasrc_header) 0 1 1 (unit_table 0%Z * atm_pres) in
    let roatm_interp :=
      comproatm (hdr := lasrc_header) ip1 (ip1 + 1) iaot1 (iaot1 + 1) 0 0 1 1
        1 mraot 0 1013 tpres_grid aot550nm_grid unit_table unit_table
        zero_table unit_table unit_table tts_grid zero_index tts_grid 4 4 0
        (sun_angle_index 0 4 0) (atmcorlamb2_itv 0 4 0) in
    let trans_sun :=
      comptrans (hdr := lasrc_header) ip1 (ip1 + 1) iaot1 (iaot1 + 1) 0 mraot
        0 1013 tpres_grid aot550nm_grid unit_table 4 0 tts_grid 0 in
    let trans_view :=
      comptrans (hdr := lasrc_header) ip1 (ip1 + 1) iaot1 (iaot1 + 1) 0 mraot
        0 1013 tpres_grid aot550nm_grid unit_table 4 0 tts_grid 0 in
    let salb :=
      compsalb (hdr := lasrc_header) ip1 (ip1 + 1) iaot1 (iaot1 + 1) mraot 0
        1013 tpres_grid aot550nm_grid unit_table unit_table in
    let '(tgoz, tgwv, tgwvhalf, tgog) :=
      comptg 0 1 1 1 1 atm_pres unit_table unit_table unit_table unit_table
        unit_table unit_table in
    out_tgo o = tgog * tgoz /\
    out_xrorayp o = rorayp /\
    out_roatm o = (roatm_interp - rorayp) * tgwvhalf + rorayp /\
    out_ttatmg o = (trans_sun * trans_view) * tgwv /\
    out_satm o = salb /\
    let r := 0.2 / out_tgo o - out_roatm o in
    out_roslamb o = r / (out_ttatmg o + out_satm o * r).
Proof.
  split; [apply sample_call_succeeds |].
  exact (atmcorlamb2_composition (hdr := lasrc_header)
           SAT_LANDSAT_8 0 0 1 1 0 1 0.07 0%Z 1013 tpres_grid aot550nm_grid
           unit_table unit_table 4 0 4 0 unit_table unit_table unit_table
           zero_table unit_table unit_table tts_grid zero_index tts_grid 1 1
           unit_table unit_table unit_table unit_table unit_table unit_table
           unit_table 0.2 (-1) 0 0
           (sample_call_succeeds 0 0.07 1013 0.2 (-1) unit_table unit_table
              unit_table 0 0)).
Defined.

Lemma sample_view_out_of_domain : (sun_angle_index 85 4 0 > 19)%Z.
Proof. rewrite sun_angle_index_85. lia. Qed.

(** The sample call with a view zenith of 85 degrees: index 21 in a table of
    4 degree steps, while the sun is at the zenith. *)
Lemma atmcorlamb2_view_angle_unchecked_witness :
  (sun_angle_index 85 4 0 > 19)%Z /\
  (sun_angle_index 0 4 0 <= 19)%Z /\
  (forall (p1 p2 a1 a2 : Z) (raot : R) (ib : Z) (p : R)
          (tp aot tr sun : farray) (x0 : R),
      comptrans (hdr := lasrc_header) p1 p2 a1 a2 85 raot ib p tp aot tr 4 0
        sun x0 = x0) /\
  comptrans_errmsg 85 4 0 = Some "Zenith angle (xts) is too large: %f"%string /\
  retval (sample_call 0 85 0.07 1013 0.2 (-1) unit_table unit_table
            unit_table 0 0.5) = SUCCESS /\
  exists o : atm_out,
    sample_call 0 85 0.07 1013 0.2 (-1) unit_table unit_table unit_table 0
      0.5 = Success o /\
    let mraot :=
      atmcorlamb2_mraot550nm (hdr := lasrc_header) SAT_LANDSAT_8 0.07 0
        unit_table (-1) in
    let ip1 := atmcorlamb2_ip1 (hdr := lasrc_header) 1013 tpres_grid in
    let iaot1 := atmcorlamb2_iaot1 mraot aot550nm_grid in
    let trans_sun :=
      comptrans (hdr := lasrc_header) ip1 (ip1 + 1) iaot1 (iaot1 + 1) 0 mraot
        0 1013 tpres_grid aot550nm_grid unit_table 4 0 tts_grid 0 in
    let '(tgoz, tgwv, tgwvhalf, tgog) :=
      comptg 0 1 1 1 1 (1013 * @ONE_DIV_ATMOS_PRES_0 lasrc_header) unit_table
        unit_table unit_table unit_table unit_table unit_table in
    out_ttatmg o = (trans_sun * 0.5) * tgwv.
Proof.
  split; [exact sample_view_out_of_domain |].
  split; [exact sample_solar_in_domain |].
  exact (atmcorlamb2_view_angle_unchecked (hdr := lasrc_header)
           SAT_LANDSAT_8 0 85 1 1 0 1 0.07 0%Z 1013 tpres_grid aot550nm_grid
           unit_table unit_table 4 0 4 0 unit_table unit_table unit_table
           zero_table unit_table unit_table tts_grid zero_index tts_grid 1 1
           unit_table unit_table unit_table unit_table unit_table unit_table
           unit_table 0.2 (-1) 0 0.5
           sample_view_out_of_domain sample_solar_in_domain).
Defined.

(** * Further properties of the engine *)

(** ** The inversion and the relation it solves *)

Lemma atmcorlamb2_new_formula {hdr : lut_header} (sat : Sat_t)
    (tgo roatm_upper : R) (roatm_coef ttatmg_coef satm_coef : farray)
    (raot550nm : R) (iband : Z) (normext_ib_0_3 rotoa eps : R) :
  let m := atmcorlamb2_new_mraot550nm sat roatm_upper raot550nm iband
             normext_ib_0_3 eps in
  let r := rotoa - tgo * poly_fit roatm_coef m in
  atmcorlamb2_new sat tgo roatm_upper roatm_coef ttatmg_coef satm_coef
    raot550nm iband normext_ib_0_3 rotoa eps =
  r / (tgo * poly_fit ttatmg_coef m + poly_fit satm_coef m * r).
Proof. reflexivity. Qed.

(** The two forms of the inversion, and the relation they solve. *)
Lemma inversion_of_forward (tgo roatm ttatmg satm ros : R) :
  tgo <> 0 -> ttatmg <> 0 -> 1 - satm * ros <> 0 ->
  let r := lambertian_toa tgo roatm ttatmg satm ros / tgo - roatm in
  r / (ttatmg + satm * r) = ros.
Proof.
  intros Htgo Htt Hden. cbn zeta. unfold lambertian_toa.
  replace (tgo * (roatm + ttatmg * ros / (1 - satm * ros)) / tgo - roatm)
    with (ttatmg * ros / (1 - satm * ros)) by (field; split; assumption).
  replace (ttatmg + satm * (ttatmg * ros / (1 - satm * ros)))
    with (ttatmg / (1 - satm * ros)) by (field; assumption).
  field. split; assumption.
Qed.

Lemma forward_of_inversion (tgo roatm ttatmg satm rotoa : R) :
  tgo <> 0 -> ttatmg <> 0 ->
  let r := rotoa / tgo - roatm in
  ttatmg + satm * r <> 0 ->
  lambertian_toa tgo roatm ttatmg satm (r / (ttatmg + satm * r)) = rotoa.
Proof.
  intros Htgo Htt. cbn zeta. intros Hdiv. unfold lambertian_toa.
  set (r := rotoa / tgo - roatm) in *.
  assert (Hone : 1 - satm * (r / (ttatmg + satm * r)) =
                 ttatmg / (ttatmg + satm * r)) by (field; assumption).
  rewrite Hone.
  replace (ttatmg * (r / (ttatmg + satm * r)) / (ttatmg / (ttatmg + satm * r)))
    with r by (field; split; assumption).
  unfold r. field. assumption.
Qed.

Lemma scaled_inversion (tgo roatm ttatmg satm rotoa : R) :
  tgo <> 0 ->
  let r := rotoa / tgo - roatm in
  ttatmg + satm * r <> 0 ->
  let r' := rotoa - tgo * roatm in
  r' / (tgo * ttatmg + satm * r') = r / (ttatmg + satm * r).
Proof.
  intros Htgo. cbn zeta. intros Hdiv.
  replace (rotoa - tgo * roatm) with (tgo * (rotoa / tgo - roatm))
    by (field; assumption).
  set (r := rotoa / tgo - roatm) in *.
  replace (tgo * ttatmg + satm * (tgo * r)) with (tgo * (ttatmg + satm * r))
    by ring.
  generalize dependent (ttatmg + satm * r). intros d Hd.
  field. split; assumption.
Qed.

Lemma comptrans_unit_table {hdr : lut_header} (ip1 ip2 iaot1 iaot2 : Z)
    (xts raot550nm : R) (iband : Z) (pres : R) (tpres aot550nm : farray)
    (xtsstep xtsmin : R) (tts : farray) (xtts : R) :
  (sun_angle_index xts xtsstep xtsmin <= 19)%Z ->
  comptrans ip1 ip2 iaot1 iaot2 xts raot550nm iband pres tpres aot550nm
    unit_table xtsstep xtsmin tts xtts = 1.
Proof.
  intros Hdom. unfold comptrans. cbn zeta.
  destruct (Z.gtb_spec (sun_angle_index xts xtsstep xtsmin) 19); [lia |].
  unfold unit_table. ring.
Qed.

Lemma compsalb_zero_table {hdr : lut_header} (ip1 ip2 iaot1 iaot2 : Z)
    (raot550nm : R) (iband : Z) (pres : R) (tpres aot550nm normext : farray) :
  compsalb ip1 ip2 iaot1 iaot2 raot550nm iband pres tpres aot550nm zero_table
    normext = 0.
Proof. unfold compsalb, zero_table. cbn zeta. ring. Qed.

Section Inversion.

Context {hdr : lut_header}.

Variables (sat : Sat_t) (xts xtv xmus xmuv xfi cosxfi raot550nm : R)
  (iband : Z) (pres : R) (tpres aot550nm rolutt transt : farray)
  (xtsstep xtsmin xtvstep xtvmin : R)
  (sphalbt normext tsmax tsmin nbfic nbfi tts : farray) (indts : iarray)
  (ttv : farray) (uoz uwv : R)
  (tauray ogtransa1 ogtransb0 ogtransb1 wvtransa wvtransb oztransa : farray)
  (eps : R) (xtts xttv : R).

Local Abbreviation solver rotoa :=
  (atmcorlamb2 sat xts xtv xmus xmuv xfi cosxfi raot550nm iband pres tpres
     aot550nm rolutt transt xtsstep xtsmin xtvstep xtvmin sphalbt normext
     tsmax tsmin nbfic nbfi tts indts ttv uoz uwv tauray ogtransa1 ogtransb0
     ogtransb1 wvtransa wvtransb oztransa rotoa eps xtts xttv).

(** What a successful call returns, with the gas transmission known to be
    positive. *)
Lemma atmcorlamb2_success_outputs (rotoa : R) (o : atm_out) :
  solver rotoa = Success o ->
  0 < out_tgo o /\
  (let r := rotoa / out_tgo o - out_roatm o in
   out_roslamb o = r / (out_ttatmg o + out_satm o * r)) /\
  forall rotoa' : R,
    let r' := rotoa' / out_tgo o - out_roatm o in
    solver rotoa' =
    Success {| out_roslamb := r' / (out_ttatmg o + out_satm o * r');
               out_tgo := out_tgo o; out_roatm := out_roatm o;
               out_ttatmg := out_ttatmg o; out_satm := out_satm o;
               out_xrorayp := out_xrorayp o |}.
Proof.
  intros Hok.
  destruct (atmcorlamb2_cases sat xts xtv xmus xmuv xfi cosxfi raot550nm iband
              pres tpres aot550nm rolutt transt xtsstep xtsmin xtvstep xtvmin
              sphalbt normext tsmax tsmin nbfic nbfi tts indts ttv uoz uwv
              tauray ogtransa1 ogtransb0 ogtransb1 wvtransa wvtransb oztransa
              rotoa eps xtts xttv) as [[_ Herr] | [Hidx Hshape]].
  { rewrite Herr in Hok. discriminate. }
  pose proof (comptg_positive iband xmus xmuv uoz uwv
                (pres * ONE_DIV_ATMOS_PRES_0) ogtransa1 ogtransb0 ogtransb1
                wvtransa wvtransb oztransa) as Hpos.
  assert (Hother : forall rotoa' : R,
    let '(tgoz, tgwv, tgwvhalf, tgog) :=
      comptg iband xmus xmuv uoz uwv (pres * ONE_DIV_ATMOS_PRES_0) ogtransa1
        ogtransb0 ogtransb1 wvtransa wvtransb oztransa in
    exists o' : atm_out, solver rotoa' = Success o' /\
      out_tgo o' = tgog * tgoz /\ out_xrorayp o' = out_xrorayp o /\
      out_roatm o' = out_roatm o /\ out_ttatmg o' = out_ttatmg o /\
      out_satm o' = out_satm o /\
      out_roslamb o' =
        (rotoa' / (tgog * tgoz) - out_roatm o) /
        (out_ttatmg o + out_satm o * (rotoa' / (tgog * tgoz) - out_roatm o))).
  { intros rotoa'.
    destruct (atmcorlamb2_cases sat xts xtv xmus xmuv xfi cosxfi raot550nm
                iband pres tpres aot550nm rolutt transt xtsstep xtsmin xtvstep
                xtvmin sphalbt normext tsmax tsmin nbfic nbfi tts indts ttv
                uoz uwv tauray ogtransa1 ogtransb0 ogtransb1 wvtransa wvtransb
                oztransa rotoa' eps xtts xttv) as [[Hidx' _] | [_ Hshape']];
      [congruence |].
    destruct (comptg _ _ _ _ _ _ _ _ _ _ _ _) as [[[tgoz tgwv] tgwvhalf] tgog].
    cbn zeta in Hshape, Hshape'. rewrite Hshape in Hok.
    injection Hok as <-. eexists. split; [exact Hshape' |].
    cbn. repeat split; reflexivity. }
  destruct (comptg _ _ _ _ _ _ _ _ _ _ _ _) as [[[tgoz tgwv] tgwvhalf] tgog].
  cbn zeta in Hshape. rewrite Hshape in Hok. injection Hok as <-. cbn.
  destruct Hpos as (Hoz & _ & _ & Hog).
  split; [apply Rmult_lt_0_compat; assumption |].
  split; [reflexivity |].
  intros rotoa'.
  destruct (Hother rotoa') as (o' & Ho' & H1 & H2 & H3 & H4 & H5 & H6).
  rewrite Ho'. destruct o'; cbn in *. subst. reflexivity.
Qed.

(** The content of [roslamb] with the divisions of C: the real number of
    [out_roslamb] unless the divisor of line 335 is zero ([tgo] never
    is). *)
Lemma atmcorlamb2_roslamb_agrees (rotoa : R) (o : atm_out) :
  solver rotoa = Success o ->
  atmcorlamb2_roslamb sat xts xtv xmus xmuv xfi cosxfi raot550nm iband pres
    tpres aot550nm rolutt transt xtsstep xtsmin xtvstep xtvmin sphalbt
    normext tsmax tsmin nbfic nbfi tts indts ttv uoz uwv tauray ogtransa1
    ogtransb0 ogtransb1 wvtransa wvtransb oztransa rotoa eps xtts xttv =
  Success
    (if Req_dec_T
          (out_ttatmg o + out_satm o * (rotoa / out_tgo o - out_roatm o)) 0
     then NotFinite else Finite (out_roslamb o)).
Proof.
  intros Hok.
  destruct (atmcorlamb2_success_outputs rotoa o Hok) as (Htgo & Hros & _).
  unfold atmcorlamb2_roslamb. rewrite Hok.
  unfold atmcorlamb2_inversion, float_div.
  destruct (Req_dec_T (out_tgo o) 0) as [Hzero | _]; [exfalso; lra |].
  cbn zeta in Hros |- *. rewrite Hros. reflexivity.
Qed.

(** X1.  Round trip of the full-inversion solver.  If [atmcorlamb2] returns
    [SUCCESS] with outputs [o] and a nonzero total transmission, then (a)
    the surface reflectance it returns, put back into the Lambertian
    relation [tgo * (roatm + ttatmg * ros / (1 - satm * ros))] with the
    returned atmospheric quantities, gives the input [rotoa] again, provided
    the divisor of the last statement is not zero; and (b) called on the
    top-of-atmosphere reflectance of any surface reflectance [ros] with
    [1 - satm * ros <> 0] it returns [ros], the atmospheric outputs being
    the same. *)
Theorem atmcorlamb2_round_trip (rotoa : R) (o : atm_out) :
  solver rotoa = Success o ->
  out_ttatmg o <> 0 ->
  (out_ttatmg o + out_satm o * (rotoa / out_tgo o - out_roatm o) <> 0 ->
   lambertian_toa (out_tgo o) (out_roatm o) (out_ttatmg o) (out_satm o)
     (out_roslamb o) = rotoa) /\
  (forall ros : R,
     1 - out_satm o * ros <> 0 ->
     solver (lambertian_toa (out_tgo o) (out_roatm o) (out_ttatmg o)
               (out_satm o) ros) =
     Success {| out_roslamb := ros; out_tgo := out_tgo o;
                out_roatm := out_roatm o; out_ttatmg := out_ttatmg o;
                out_satm := out_satm o; out_xrorayp := out_xrorayp o |}).
Proof.
  intros Hok Htt.
  destruct (atmcorlamb2_success_outputs rotoa o Hok) as (Htgo & Hros & Hany).
  assert (Htgo' : out_tgo o <> 0) by lra.
  split.
  - intros Hdiv. cbn zeta in Hros. rewrite Hros.
    apply forward_of_inversion; assumption.
  - intros ros Hden. rewrite Hany.
    rewrite (inversion_of_forward _ _ _ _ _ Htgo' Htt Hden). reflexivity.
Qed.

(** X2.  The gas transmission [tgo] a successful call returns is strictly
    positive, so the division [rotoa / tgo] of line 334 never divides by
    zero; and the five atmospheric outputs do not depend on the
    top-of-atmosphere reflectance: a call on another [rotoa'] succeeds with
    the same [tgo], [roatm], [ttatmg], [satm] and [xrorayp]. *)
Theorem atmcorlamb2_atmosphere_independent_of_rotoa (rotoa rotoa' : R)
    (o : atm_out) :
  solver rotoa = Success o ->
  0 < out_tgo o /\
  exists o' : atm_out,
    solver rotoa' = Success o' /\
    out_tgo o' = out_tgo o /\ out_roatm o' = out_roatm o /\
    out_ttatmg o' = out_ttatmg o /\ out_satm o' = out_satm o /\
    out_xrorayp o' = out_xrorayp o.
Proof.
  intros Hok.
  destruct (atmcorlamb2_success_outputs rotoa o Hok) as (Htgo & _ & Hany).
  split; [exact Htgo |].
  eexists. split; [apply Hany |]. cbn. repeat split; reflexivity.
Qed.

(** X3.  The two solvers agree.  If the cubic fits handed to
    [atmcorlamb2_new] evaluate, at the AOT it uses, to the atmospheric
    reflectance, transmission and spherical albedo that [atmcorlamb2]
    computed, and it is given the [tgo] of [atmcorlamb2], then it returns
    the surface reflectance of [atmcorlamb2]: the form
    [(rotoa - tgo*roatm) / (tgo*ttatmg + satm*(rotoa - tgo*roatm))] of lines
    124-125 and the form of lines 334-335 are the same number when the
    divisor is not zero. *)
Theorem atmcorlamb2_new_agrees_with_atmcorlamb2 (rotoa : R) (o : atm_out)
    (sat' : Sat_t) (roatm_upper : R) (roatm_coef ttatmg_coef satm_coef : farray)
    (raot550nm' : R) (iband' : Z) (normext_ib_0_3 eps' : R) :
  let m := atmcorlamb2_new_mraot550nm sat' roatm_upper raot550nm' iband'
             normext_ib_0_3 eps' in
  solver rotoa = Success o ->
  poly_fit roatm_coef m = out_roatm o ->
  poly_fit ttatmg_coef m = out_ttatmg o ->
  poly_fit satm_coef m = out_satm o ->
  out_ttatmg o + out_satm o * (rotoa / out_tgo o - out_roatm o) <> 0 ->
  atmcorlamb2_new sat' (out_tgo o) roatm_upper roatm_coef ttatmg_coef
    satm_coef raot550nm' iband' normext_ib_0_3 rotoa eps' = out_roslamb o.
Proof.
  intros m Hok Hro Htt Hsa Hdiv.
  destruct (atmcorlamb2_success_outputs rotoa o Hok) as (Htgo & Hros & _).
  assert (Htgo' : out_tgo o <> 0) by lra.
  rewrite atmcorlamb2_new_formula. cbn zeta. fold m.
  rewrite Hro, Htt, Hsa. cbn zeta in Hros. rewrite Hros.
  apply scaled_inversion; assumption.
Qed.

(** X16.  The inversion is monotone.  With a positive total transmission,
    of two top-of-atmosphere reflectances for which the divisor of line 335
    is positive the larger gives the larger surface reflectance; and the
    surface reflectance is 0 for [rotoa = tgo * roatm], the reflectance of
    the atmosphere alone. *)
Theorem atmcorlamb2_monotone_in_rotoa (rotoa1 rotoa2 : R) (o1 o2 : atm_out) :
  solver rotoa1 = Success o1 ->
  solver rotoa2 = Success o2 ->
  0 < out_ttatmg o1 ->
  0 < out_ttatmg o1 + out_satm o1 * (rotoa1 / out_tgo o1 - out_roatm o1) ->
  0 < out_ttatmg o1 + out_satm o1 * (rotoa2 / out_tgo o1 - out_roatm o1) ->
  (rotoa1 < rotoa2 -> out_roslamb o1 < out_roslamb o2) /\
  (rotoa1 = out_tgo o1 * out_roatm o1 -> out_roslamb o1 = 0).
Proof.
  intros Hok1 Hok2 Htt Hd1 Hd2.
  destruct (atmcorlamb2_success_outputs rotoa1 o1 Hok1) as (Htgo & Hros & Hany).
  specialize (Hany rotoa2). cbn zeta in Hany, Hros.
  rewrite Hok2 in Hany. injection Hany as ->. cbn [out_roslamb].
  rewrite Hros.
  set (r1 := rotoa1 / out_tgo o1 - out_roatm o1) in *.
  set (r2 := rotoa2 / out_tgo o1 - out_roatm o1) in *.
  split.
  - intros Hlt.
    assert (Hr : r1 < r2).
    { unfold r1, r2. apply Rplus_lt_compat_r.
      apply Rmult_lt_compat_r; [| exact Hlt].
      apply Rinv_0_lt_compat. exact Htgo. }
    clear Hok1 Hok2 Hros.
    generalize dependent (out_ttatmg o1). generalize dependent (out_satm o1).
    intros s t Ht Hd1 Hd2.
    apply (Rmult_lt_reg_r ((t + s * r1) * (t + s * r2)));
      [apply Rmult_lt_0_compat; assumption |].
    replace (r1 / (t + s * r1) * ((t + s * r1) * (t + s * r2)))
      with (r1 * (t + s * r2)) by (field; lra).
    replace (r2 / (t + s * r2) * ((t + s * r1) * (t + s * r2)))
      with (r2 * (t + s * r1)) by (field; lra).
    nra.
  - intros Heq.
    assert (Hr : r1 = 0).
    { unfold r1. rewrite Heq. field. lra. }
    rewrite Hr. unfold Rdiv. apply Rmult_0_l.
Qed.

End Inversion.

(** X4.  Round trip of the coefficient-fit solver [atmcorlamb2_new], for a
    nonzero [tgo] and a nonzero fitted transmission: it returns [ros] on the
    top-of-atmosphere reflectance of a Lambertian surface of reflectance
    [ros] when [1 - satm * ros <> 0], and its result put back into the
    relation gives [rotoa] again when the divisor of line 125 is not zero. *)
Theorem atmcorlamb2_new_round_trip {hdr : lut_header} (sat : Sat_t)
    (tgo roatm_upper : R) (roatm_coef ttatmg_coef satm_coef : farray)
    (raot550nm : R) (iband : Z) (normext_ib_0_3 eps : R) :
  let m := atmcorlamb2_new_mraot550nm sat roatm_upper raot550nm iband
             normext_ib_0_3 eps in
  let roatm := poly_fit roatm_coef m in
  let ttatmg := poly_fit ttatmg_coef m in
  let satm := poly_fit satm_coef m in
  tgo <> 0 -> ttatmg <> 0 ->
  (forall ros : R,
     1 - satm * ros <> 0 ->
     atmcorlamb2_new sat tgo roatm_upper roatm_coef ttatmg_coef satm_coef
       raot550nm iband normext_ib_0_3 (lambertian_toa tgo roatm ttatmg satm ros)
       eps = ros) /\
  (forall rotoa : R,
     tgo * ttatmg + satm * (rotoa - tgo * roatm) <> 0 ->
     lambertian_toa tgo roatm ttatmg satm
       (atmcorlamb2_new sat tgo roatm_upper roatm_coef ttatmg_coef satm_coef
          raot550nm iband normext_ib_0_3 rotoa eps) = rotoa).
Proof.
  intros m roatm ttatmg satm Htgo Htt.
  assert (Hdiv_eq : forall rotoa : R,
    tgo * ttatmg + satm * (rotoa - tgo * roatm) =
    tgo * (ttatmg + satm * (rotoa / tgo - roatm)))
    by (intros; field; exact Htgo).
  assert (Hshape : forall rotoa : R,
    ttatmg + satm * (rotoa / tgo - roatm) <> 0 ->
    atmcorlamb2_new sat tgo roatm_upper roatm_coef ttatmg_coef satm_coef
      raot550nm iband normext_ib_0_3 rotoa eps =
    (rotoa / tgo - roatm) / (ttatmg + satm * (rotoa / tgo - roatm))).
  { intros rotoa Hdiv. rewrite atmcorlamb2_new_formula. cbn zeta.
    fold m. fold roatm. fold ttatmg. fold satm.
    apply scaled_inversion; assumption. }
  split.
  - intros ros Hden.
    assert (Hr : lambertian_toa tgo roatm ttatmg satm ros / tgo - roatm =
                 ttatmg * ros / (1 - satm * ros)).
    { unfold lambertian_toa. field. split; assumption. }
    rewrite Hshape.
    + apply inversion_of_forward; assumption.
    + rewrite Hr.
      replace (ttatmg + satm * (ttatmg * ros / (1 - satm * ros)))
        with (ttatmg / (1 - satm * ros)) by (field; assumption).
      unfold Rdiv. apply Rmult_integral_contrapositive_currified;
        [assumption | apply Rinv_neq_0_compat; assumption].
  - intros rotoa Hdiv. rewrite Hdiv_eq in Hdiv.
    assert (Hdiv' : ttatmg + satm * (rotoa / tgo - roatm) <> 0).
    { intros E. apply Hdiv. rewrite E. ring. }
    rewrite Hshape by exact Hdiv'.
    apply forward_of_inversion; assumption.
Qed.

(** ** Gas transmittances and the Rayleigh reflectance *)

Lemma Rpower_base_monotone (x y b : R) :
  0 < x -> x <= y -> 0 <= b -> Rpower x b <= Rpower y b.
Proof.
  intros Hx Hxy Hb. unfold Rpower.
  destruct (Rle_lt_or_eq_dec _ _ Hxy) as [Hlt | ->]; [| lra].
  destruct (Rle_lt_or_eq_dec _ _ Hb) as [Hb' | <-].
  - left. apply exp_increasing. apply Rmult_lt_compat_l; [exact Hb' |].
    apply ln_increasing; assumption.
  - rewrite !Rmult_0_l. lra.
Qed.

Lemma exp_nonpos_le_1 (x : R) : x <= 0 -> exp x <= 1.
Proof.
  intros Hx. rewrite <- exp_0.
  destruct (Rle_lt_or_eq_dec _ _ Hx) as [Hlt | ->]; [| lra].
  left. apply exp_increasing. exact Hlt.
Qed.

Lemma Rpower_pos (x y : R) : 0 < Rpower x y.
Proof. unfold Rpower. apply exp_pos. Qed.

(** X5.  The gas transmissions are transmittances.  For positive cosines, a
    non-negative ozone amount and pressure, a non-positive ozone coefficient
    and non-negative water-vapour and other-gas coefficients (the signs of
    the coefficient tables of the instruments), each of the four outputs of
    [comptg] lies in (0, 1], and the transmission for half the water vapour
    is not below the transmission for all of it. *)
Theorem comptg_transmittances (iband : Z) (xmus xmuv uoz uwv atm_pres : R)
    (ogtransa1 ogtransb0 ogtransb1 wvtransa wvtransb oztransa : farray) :
  0 < xmus -> 0 < xmuv -> 0 <= uoz -> 0 <= atm_pres ->
  oztransa iband <= 0 -> 0 <= wvtransa iband -> 0 <= wvtransb iband ->
  0 <= ogtransa1 iband ->
  let '(tgoz, tgwv, tgwvhalf, tgog) :=
    comptg iband xmus xmuv uoz uwv atm_pres ogtransa1 ogtransb0 ogtransb1
      wvtransa wvtransb oztransa in
  0 < tgoz <= 1 /\ 0 < tgwv <= tgwvhalf /\ tgwvhalf <= 1 /\ 0 < tgog <= 1.
Proof.
  intros Hmus Hmuv Huoz Hpres Hoz Hwa Hwb Hog.
  unfold comptg. cbn zeta.
  assert (Hm : 0 < 1.0 / xmus + 1.0 / xmuv).
  { apply Rplus_lt_0_compat; apply Rdiv_lt_0_compat; lra. }
  set (m := 1.0 / xmus + 1.0 / xmuv) in *.
  set (a := wvtransa iband) in *. set (b := wvtransb iband) in *.
  assert (Hwv : forall x, exp (- a * Rpower x b) <= 1).
  { intros x. apply exp_nonpos_le_1. pose proof (Rpower_pos x b). nra. }
  split; [split; [apply exp_pos |] |].
  { apply exp_nonpos_le_1.
    assert (oztransa iband * m <= 0) by nra. nra. }
  split; [split |].
  - destruct (Rgt_dec (m * uwv) 1.0e-06); [apply exp_pos | lra].
  - destruct (Rgt_dec (m * uwv) 1.0e-06) as [Hx | Hx];
      destruct (Rgt_dec (m * uwv * 0.5) 1.0e-06) as [Hh | Hh].
    + destruct (Rle_lt_or_eq_dec _ _ Hwa) as [Ha | <-].
      * assert (Hle : Rpower (m * uwv * 0.5) b <= Rpower (m * uwv) b)
          by (apply Rpower_base_monotone; lra).
        assert (Harg : - a * Rpower (m * uwv) b <=
                       - a * Rpower (m * uwv * 0.5) b) by nra.
        destruct (Rle_lt_or_eq_dec _ _ Harg) as [Hlt | ->]; [| lra].
        left. apply exp_increasing. exact Hlt.
      * replace (- 0 * Rpower (m * uwv) b) with 0 by ring.
        replace (- 0 * Rpower (m * uwv * 0.5) b) with 0 by ring. lra.
    + pose proof (Hwv (m * uwv)). lra.
    + exfalso. lra.
    + lra.
  - split.
    + destruct (Rgt_dec (m * uwv * 0.5) 1.0e-06);
        [pose proof (Hwv (m * uwv * 0.5)); lra | lra].
    + split; [apply exp_pos |]. apply exp_nonpos_le_1.
      pose proof (Rpower_pos m
                    (exp (- (ogtransb0 iband + ogtransb1 iband * atm_pres)))).
      assert (0 <= ogtransa1 iband * atm_pres) by nra. nra.
Qed.

Lemma local_chand_swap {hdr : lut_header} (xphi xmuv xmus xtau : R) :
  local_chand xphi xmuv xmus xtau = local_chand xphi xmus xmuv xtau.
Proof.
  unfold local_chand. cbv [for_loop]. cbn zeta.
  cbv [of_list nth Z.to_nat Pos.to_nat Pos.iter_op Nat.add Z.add Pos.add
       Pos.succ].
  replace (1.0 / xmuv + 1.0 / xmus) with (1.0 / xmus + 1.0 / xmuv) by ring.
  replace ((1.0 - xmuv * xmuv) * (1.0 - xmus * xmus))
    with ((1.0 - xmus * xmus) * (1.0 - xmuv * xmuv)) by ring.
  replace (xmuv + xmus) with (xmus + xmuv) by ring.
  ring.
Qed.

Lemma local_chand_azimuth_even {hdr : lut_header} (xphi xmuv xmus xtau : R) :
  local_chand (- xphi) xmuv xmus xtau = local_chand xphi xmuv xmus xtau.
Proof.
  unfold local_chand. cbn zeta.
  replace (- xphi * DEG2RAD) with (- (xphi * DEG2RAD)) by ring.
  replace (2.0 * - (xphi * DEG2RAD)) with (- (2.0 * (xphi * DEG2RAD))) by ring.
  rewrite !cos_neg. reflexivity.
Qed.

Lemma comptg_swap (iband : Z) (xmus xmuv uoz uwv atm_pres : R)
    (ogtransa1 ogtransb0 ogtransb1 wvtransa wvtransb oztransa : farray) :
  comptg iband xmuv xmus uoz uwv atm_pres ogtransa1 ogtransb0 ogtransb1
    wvtransa wvtransb oztransa =
  comptg iband xmus xmuv uoz uwv atm_pres ogtransa1 ogtransb0 ogtransb1
    wvtransa wvtransb oztransa.
Proof.
  unfold comptg. cbn zeta.
  replace (1.0 / xmuv + 1.0 / xmus) with (1.0 / xmus + 1.0 / xmuv) by ring.
  reflexivity.
Qed.

(** X6.  Reciprocity.  Exchanging the cosines of the sun and view zenith
    angles changes neither the Rayleigh reflectance of [local_chand] nor any
    of the gas transmissions of [comptg], and [local_chand] does not depend
    on the sign of the relative azimuth. *)
Theorem molecular_terms_reciprocity {hdr : lut_header} (xphi xmus xmuv xtau : R)
    (iband : Z) (uoz uwv atm_pres : R)
    (ogtransa1 ogtransb0 ogtransb1 wvtransa wvtransb oztransa : farray) :
  local_chand xphi xmuv xmus xtau = local_chand xphi xmus xmuv xtau /\
  local_chand (- xphi) xmuv xmus xtau = local_chand xphi xmuv xmus xtau /\
  comptg iband xmuv xmus uoz uwv atm_pres ogtransa1 ogtransb0 ogtransb1
    wvtransa wvtransb oztransa =
  comptg iband xmus xmuv uoz uwv atm_pres ogtransa1 ogtransb0 ogtransb1
    wvtransa wvtransb oztransa.
Proof.
  split; [apply local_chand_swap |].
  split; [apply local_chand_azimuth_even | apply comptg_swap].
Qed.

(** ** Brackets of a query that is not a grid point *)

(** The blend fraction of [x] between the table values [a] and [b]. *)
Lemma blend_fraction_spec (x a b : R) :
  a <> b -> x - a = (x - a) / (b - a) * (b - a).
Proof. intros Hab. field. lra. Qed.

Lemma blend_fraction_inside (x a b : R) :
  (a < x <= b \/ b <= x < a) -> 0 < (x - a) / (b - a) <= 1.
Proof.
  intros H. assert (Hab : a <> b) by lra.
  pose proof (blend_fraction_spec x a b Hab) as Hw.
  set (w := (x - a) / (b - a)) in *. clearbody w.
  destruct H as [H | H]; split; nra.
Qed.

Lemma blend_fraction_before (x a b : R) :
  (x <= a < b \/ b < a <= x) -> (x - a) / (b - a) <= 0.
Proof.
  intros H. assert (Hab : a <> b) by lra.
  pose proof (blend_fraction_spec x a b Hab) as Hw.
  set (w := (x - a) / (b - a)) in *. clearbody w.
  destruct H as [H | H]; nra.
Qed.

Lemma blend_fraction_beyond (x a b : R) :
  (a < b < x \/ x < b < a) -> 1 < (x - a) / (b - a).
Proof.
  intros H. assert (Hab : a <> b) by lra.
  pose proof (blend_fraction_spec x a b Hab) as Hw.
  set (w := (x - a) / (b - a)) in *. clearbody w.
  destruct H as [H | H]; nra.
Qed.

(** The pressure scan for a pressure within a strictly descending table. *)
Lemma atmcorlamb2_ip1_inside {hdr : lut_header} (tpres : farray) (pres : R) :
  (2 <= NPRES_VALS)%Z ->
  (forall i j : Z,
     (0 <= i < j)%Z -> (j <= NPRES_VALS - 1)%Z -> tpres j < tpres i) ->
  tpres (NPRES_VALS - 1)%Z <= pres < tpres 0%Z ->
  let ip1 := atmcorlamb2_ip1 pres tpres in
  (0 <= ip1 <= NPRES_VALS - 2)%Z /\ tpres (ip1 + 1)%Z <= pres < tpres ip1.
Proof.
  intros Hn Hdesc [Hlow Hhigh]. cbn zeta. unfold atmcorlamb2_ip1.
  pose proof (for_loop_last (fun i => pres < tpres i)
                (fun i => Rlt_dec pres (tpres i))
                (Z.to_nat (NPRES_VALS - 1)) 0 0) as Hscan.
  cbn zeta in Hscan. rewrite Z2Nat.id in Hscan by lia.
  set (r := for_loop _ _ _ _) in *.
  destruct Hscan as [[_ Hno] | [Hrng [HP Hno]]].
  { exfalso. apply (Hno 0%Z); [lia | exact Hhigh]. }
  split; [lia |]. split; [| exact HP].
  destruct (Z.eq_dec r (NPRES_VALS - 2)) as [Heq | Hne].
  - replace (r + 1)%Z with (NPRES_VALS - 1)%Z by lia. exact Hlow.
  - apply Rnot_lt_le. apply Hno. lia.
Qed.

(** The AOT scan for an AOT within a strictly ascending table. *)
Lemma atmcorlamb2_iaot1_inside (aot550nm : farray) (m : R) :
  (forall i j : Z, (0 <= i < j)%Z -> (j <= 21)%Z -> aot550nm i < aot550nm j) ->
  aot550nm 0%Z < m <= aot550nm 21%Z ->
  let iaot1 := atmcorlamb2_iaot1 m aot550nm in
  (0 <= iaot1 <= 20)%Z /\ aot550nm iaot1 < m <= aot550nm (iaot1 + 1)%Z.
Proof.
  intros Hasc [Hlow Hhigh]. cbn zeta. unfold atmcorlamb2_iaot1.
  pose proof (for_loop_last (fun i => m > aot550nm i)
                (fun i => Rgt_dec m (aot550nm i)) 21 0 0) as Hscan.
  cbn zeta in Hscan.
  set (r := for_loop _ _ _ _) in *.
  destruct Hscan as [[_ Hno] | [Hrng [HP Hno]]].
  { exfalso. apply (Hno 0%Z); [lia | exact Hlow]. }
  split; [lia |]. split; [exact HP |].
  destruct (Z.eq_dec r 20) as [Heq | Hne].
  - replace (r + 1)%Z with 21%Z by lia. exact Hhigh.
  - apply Rnot_gt_le. apply Hno. lia.
Qed.

(** X7.  The pressure bracket on a strictly descending table of at least two
    levels.  The index [ip1] of [atmcorlamb2] always leaves room for
    [ip2 = ip1 + 1]; for a pressure within the table,
    [tpres[N-1] <= pres < tpres[0]], the two levels enclose it and the
    fraction [dpres] the composers compute lies in (0, 1]; a pressure at or
    above [tpres[0]] is extrapolated from the levels 0 and 1 with
    [dpres <= 0], a pressure below the last level from the last two levels
    with [dpres > 1]: the routine does not clamp. *)
Theorem atmcorlamb2_ip1_bracket {hdr : lut_header} (tpres : farray) (pres : R) :
  (2 <= NPRES_VALS)%Z ->
  (forall i j : Z,
     (0 <= i < j)%Z -> (j <= NPRES_VALS - 1)%Z -> tpres j < tpres i) ->
  let ip1 := atmcorlamb2_ip1 pres tpres in
  let dpres := (pres - tpres ip1) / (tpres (ip1 + 1)%Z - tpres ip1) in
  (0 <= ip1 <= NPRES_VALS - 2)%Z /\
  (tpres (NPRES_VALS - 1)%Z <= pres < tpres 0%Z ->
   tpres (ip1 + 1)%Z <= pres < tpres ip1 /\ 0 < dpres <= 1) /\
  (tpres 0%Z <= pres -> ip1 = 0%Z /\ dpres <= 0) /\
  (pres < tpres (NPRES_VALS - 1)%Z -> ip1 = (NPRES_VALS - 2)%Z /\ 1 < dpres).
Proof.
  intros Hn Hdesc. cbn zeta. unfold atmcorlamb2_ip1.
  pose proof (for_loop_last (fun i => pres < tpres i)
                (fun i => Rlt_dec pres (tpres i))
                (Z.to_nat (NPRES_VALS - 1)) 0 0) as Hscan.
  cbn zeta in Hscan. rewrite Z2Nat.id in Hscan by lia.
  set (r := for_loop _ _ _ _) in *.
  assert (Hrange : (0 <= r <= NPRES_VALS - 2)%Z).
  { destruct Hscan as [[Hr _] | [Hrng _]]; lia. }
  assert (Hstep : tpres (r + 1)%Z < tpres r) by (apply Hdesc; lia).
  split; [exact Hrange |].
  split; [| split].
  - intros Hin.
    destruct (atmcorlamb2_ip1_inside tpres pres Hn Hdesc Hin) as [_ Hencl].
    split; [exact Hencl |].
    apply blend_fraction_inside. right. exact Hencl.
  - intros Hhigh.
    assert (Hnone : forall j, (0 <= j <= NPRES_VALS - 1)%Z -> ~ pres < tpres j).
    { intros j Hj Hlt. destruct (Z.eq_dec j 0) as [-> | Hne]; [lra |].
      assert (tpres j < tpres 0%Z) by (apply Hdesc; lia). lra. }
    assert (Hr : r = 0%Z).
    { destruct Hscan as [[Hr _] | [Hrng [HP _]]]; [exact Hr |].
      exfalso. apply (Hnone r); [lia | exact HP]. }
    split; [exact Hr |]. rewrite Hr in *.
    apply blend_fraction_before. right. split; assumption.
  - intros Hlow.
    assert (Hall : forall j, (0 <= j <= NPRES_VALS - 1)%Z -> pres < tpres j).
    { intros j Hj. destruct (Z.eq_dec j (NPRES_VALS - 1)) as [-> | Hne];
        [exact Hlow |].
      assert (tpres (NPRES_VALS - 1)%Z < tpres j) by (apply Hdesc; lia). lra. }
    assert (Hr : r = (NPRES_VALS - 2)%Z).
    { destruct Hscan as [[_ Hno] | [Hrng [_ Hno]]].
      - exfalso. apply (Hno 0%Z); [lia | apply Hall; lia].
      - destruct (Z.eq_dec r (NPRES_VALS - 2)) as [Heq | Hne]; [exact Heq |].
        exfalso. apply (Hno (NPRES_VALS - 2)%Z); [lia | apply Hall; lia]. }
    split; [exact Hr |].
    assert (Hlt : pres < tpres (r + 1)%Z).
    { replace (r + 1)%Z with (NPRES_VALS - 1)%Z by lia. exact Hlow. }
    apply blend_fraction_beyond. right. split; assumption.
Qed.

(** X8.  The AOT bracket on a strictly ascending table of 22 values.  For
    an AOT within the table, [aot550nm[0] < m <= aot550nm[21]], the entries
    [iaot1] and [iaot1 + 1] enclose it and the linear fraction [deltaaot] of
    [compsalb] and [comptrans] lies in (0, 1]; an AOT at or below the first
    entry is extrapolated from the entries 0 and 1 with [deltaaot <= 0], an
    AOT above the last entry from the entries 20 and 21 with
    [deltaaot > 1]: [atmcorlamb2] does not clamp the AOT. *)
Theorem atmcorlamb2_iaot1_encloses (aot550nm : farray) (m : R) :
  (forall i j : Z, (0 <= i < j)%Z -> (j <= 21)%Z -> aot550nm i < aot550nm j) ->
  let iaot1 := atmcorlamb2_iaot1 m aot550nm in
  let deltaaot :=
    (m - aot550nm iaot1) / (aot550nm (iaot1 + 1)%Z - aot550nm iaot1) in
  (aot550nm 0%Z < m <= aot550nm 21%Z ->
   aot550nm iaot1 < m <= aot550nm (iaot1 + 1)%Z /\ 0 < deltaaot <= 1) /\
  (m <= aot550nm 0%Z -> iaot1 = 0%Z /\ deltaaot <= 0) /\
  (aot550nm 21%Z < m -> iaot1 = 20%Z /\ 1 < deltaaot).
Proof.
  intros Hasc. cbn zeta. unfold atmcorlamb2_iaot1.
  pose proof (for_loop_last (fun i => m > aot550nm i)
                (fun i => Rgt_dec m (aot550nm i)) 21 0 0) as Hscan.
  cbn zeta in Hscan.
  set (r := for_loop _ _ _ _) in *.
  assert (Hrange : (0 <= r <= 20)%Z).
  { destruct Hscan as [[Hr _] | [Hrng _]]; lia. }
  assert (Hstep : aot550nm r < aot550nm (r + 1)%Z) by (apply Hasc; lia).
  split; [| split].
  - intros Hin.
    destruct (atmcorlamb2_iaot1_inside aot550nm m Hasc Hin) as [_ Hencl].
    split; [exact Hencl |].
    apply blend_fraction_inside. left. exact Hencl.
  - intros Hlow.
    assert (Hnone : forall j, (0 <= j <= 21)%Z -> ~ m > aot550nm j).
    { intros j Hj Hgt. destruct (Z.eq_dec j 0) as [-> | Hne]; [lra |].
      assert (aot550nm 0%Z < aot550nm j) by (apply Hasc; lia). lra. }
    assert (Hr : r = 0%Z).
    { destruct Hscan as [[Hr _] | [Hrng [HP _]]]; [exact Hr |].
      exfalso. apply (Hnone r); [lia | exact HP]. }
    split; [exact Hr |]. rewrite Hr in *.
    apply blend_fraction_before. left. split; assumption.
  - intros Hhigh.
    assert (Hall : forall j, (0 <= j <= 21)%Z -> m > aot550nm j).
    { intros j Hj. destruct (Z.eq_dec j 21) as [-> | Hne]; [exact Hhigh |].
      assert (aot550nm j < aot550nm 21%Z) by (apply Hasc; lia). lra. }
    assert (Hr : r = 20%Z).
    { destruct Hscan as [[_ Hno] | [Hrng [_ Hno]]].
      - exfalso. apply (Hno 0%Z); [lia | apply Hall; lia].
      - destruct (Z.eq_dec r 20) as [Heq | Hne]; [exact Heq |].
        exfalso. apply (Hno 20%Z); [lia | apply Hall; lia]. }
    split; [exact Hr |].
    assert (Hlt : aot550nm (r + 1)%Z < m).
    { replace (r + 1)%Z with 21%Z by lia. exact Hhigh. }
    apply blend_fraction_beyond. left. split; assumption.
Qed.

(** ** Angle indices *)

Lemma Zfloor_scaled_index (x step : R) (n : Z) :
  0 < step -> ((Zfloor (x / step) <= n)%Z <-> x < (IZR n + 1) * step).
Proof.
  intros Hstep.
  pose proof (Zfloor_bound (x / step)) as [Hlo Hhi].
  assert (Hx : x = x / step * step) by (field; lra).
  split.
  - intros Hle. apply IZR_le in Hle.
    rewrite Hx at 1. apply Rmult_lt_compat_r; lra.
  - intros Hlt.
    assert (Hq : x / step < IZR n + 1).
    { apply Rmult_lt_reg_r with step; [exact Hstep |]. lra. }
    assert (Hfl : IZR (Zfloor (x / step)) < IZR (n + 1)).
    { rewrite plus_IZR. simpl. lra. }
    apply lt_IZR in Hfl. lia.
Qed.

(** On the regular table the index of an angle that is not below [xtsmin]
    is the entry at or below it. *)
Lemma sun_angle_index_regular_inside (xts xtsstep xtsmin : R) (tts : farray) :
  0 < xtsstep ->
  (forall j : Z, tts j = xtsmin + xtsstep * IZR j) ->
  xtsmin <= xts ->
  let its := sun_angle_index xts xtsstep xtsmin in
  (0 <= its)%Z /\ tts its <= xts < tts (its + 1)%Z.
Proof.
  intros Hstep Htts Hge. cbn zeta. unfold sun_angle_index.
  destruct (Rle_dec xts xtsmin) as [Hle | Hgt].
  - split; [lia |]. rewrite !Htts. simpl. lra.
  - assert (Hpos : 0 <= (xts - xtsmin) / xtsstep).
    { apply Rlt_le. apply Rdiv_lt_0_compat; lra. }
    rewrite int_of_float_nonneg by exact Hpos.
    pose proof (Zfloor_bound ((xts - xtsmin) / xtsstep)) as [Hlo Hhi].
    assert (Hx : xts - xtsmin = (xts - xtsmin) / xtsstep * xtsstep)
      by (field; lra).
    split; [apply Zfloor_lub; simpl; exact Hpos |].
    rewrite !Htts, plus_IZR. simpl.
    set (q := (xts - xtsmin) / xtsstep) in *.
    set (f := IZR (Zfloor q)) in *. clearbody f.
    assert (xtsstep * f <= q * xtsstep) by nra.
    assert (q * xtsstep < xtsstep * (f + 1)) by nra.
    lra.
Qed.

(** X9.  The sun angle index on a regular table.  For a positive step the
    index is never negative and is within the domain [0, 19] of
    [atmcorlamb2] and [comptrans] exactly when [xts] is below
    [xtsmin + 20 * xtsstep]; on the regular table
    [tts[j] = xtsmin + xtsstep * j] the entries [its] and [its + 1] enclose
    an angle that is not below [xtsmin], the weight
    [(xts - tts[its]) * 0.25] of [comptrans] lies in [0, xtsstep / 4), that
    is in [0, 1) for the 4 degree step the constant 0.25 stands for, and the
    weight [t] of [comproatm] lies in (0, 1]; an angle below [xtsmin] gets
    the index 0 and a negative weight in [comptrans]. *)
Theorem sun_angle_index_regular_table (xts xtsstep xtsmin : R) (tts : farray) :
  0 < xtsstep ->
  (forall j : Z, tts j = xtsmin + xtsstep * IZR j) ->
  let its := sun_angle_index xts xtsstep xtsmin in
  (0 <= its)%Z /\
  ((its <= 19)%Z <-> xts < xtsmin + 20 * xtsstep) /\
  (xtsmin <= xts ->
   tts its <= xts < tts (its + 1)%Z /\
   0 <= (xts - tts its) * 0.25 < xtsstep * 0.25 /\
   0 < (tts (its + 1)%Z - xts) / (tts (its + 1)%Z - tts its) <= 1) /\
  (xts < xtsmin -> its = 0%Z /\ (xts - tts its) * 0.25 < 0).
Proof.
  intros Hstep Htts. cbn zeta.
  split; [| split; [| split]].
  - unfold sun_angle_index.
    destruct (Rle_dec xts xtsmin) as [Hle | Hgt]; [lia |].
    rewrite int_of_float_nonneg
      by (apply Rlt_le; apply Rdiv_lt_0_compat; lra).
    apply Zfloor_lub. simpl. apply Rlt_le. apply Rdiv_lt_0_compat; lra.
  - unfold sun_angle_index.
    destruct (Rle_dec xts xtsmin) as [Hle | Hgt].
    + split; [intros _; lra | intros _; lia].
    + rewrite int_of_float_nonneg
        by (apply Rlt_le; apply Rdiv_lt_0_compat; lra).
      rewrite (Zfloor_scaled_index (xts - xtsmin) xtsstep 19 Hstep).
      split; intros H; lra.
  - intros Hge.
    destruct (sun_angle_index_regular_inside xts xtsstep xtsmin tts Hstep Htts
                Hge) as [Hnn Hencl].
    cbn zeta in Hencl.
    set (its := sun_angle_index xts xtsstep xtsmin) in *.
    split; [exact Hencl |].
    assert (Hwidth : tts (its + 1)%Z - tts its = xtsstep).
    { rewrite !Htts, plus_IZR. simpl. ring. }
    split; [lra |].
    rewrite Hwidth. split.
    + apply Rdiv_lt_0_compat; lra.
    + apply Rmult_le_reg_r with xtsstep; [exact Hstep |].
      replace ((tts (its + 1)%Z - xts) / xtsstep * xtsstep)
        with (tts (its + 1)%Z - xts) by (field; lra).
      lra.
  - intros Hlt. rewrite sun_angle_index_low by lra.
    split; [reflexivity |]. rewrite Htts. simpl. lra.
Qed.

(** ** The scattering-angle bracket *)

(** X10.  The unclamped scattering-angle bracket.  When the cell holds more
    samples than the index the angle asks for,
    [(xtsmax - scaa) / 4 + 2 < nbfi], a scattering angle that does not
    exceed [xtsmax] gets the index [floor ((xtsmax - scaa) / 4) + 1], its
    bracket [sca2 < scaa <= sca1] is 4 degrees wide and the weight
    [(scaa - sca1) / (sca2 - sca1)] lies in [0, 1); a scattering angle above
    [xtsmax] (with [2 < nbfi]) gets the index 1, the bracket
    [(xtsmax - 4, xtsmax)] and a negative weight. *)
Theorem scat_bracket_unclamped (xtsmax_i xtsmin_i scaa nbfi_i : R) :
  let '(isca, sca1, sca2) := scat_bracket xtsmax_i xtsmin_i scaa nbfi_i in
  let w := (scaa - sca1) / (sca2 - sca1) in
  (scaa <= xtsmax_i /\ (xtsmax_i - scaa) * 0.25 + 2 < nbfi_i ->
   isca = (Zfloor ((xtsmax_i - scaa) * 0.25) + 1)%Z /\ (1 <= isca)%Z /\
   sca1 - sca2 = 4 /\ sca2 < scaa <= sca1 /\ 0 <= w < 1) /\
  (xtsmax_i < scaa /\ 2 < nbfi_i ->
   isca = 1%Z /\ sca1 = xtsmax_i /\ sca2 = xtsmax_i - 4 /\ w < 0).
Proof.
  unfold scat_bracket. cbn zeta.
  set (v := (xtsmax_i - scaa) * 0.25).
  assert (Hw : forall s : R, (scaa - s) / (s - 4 - s) = (s - scaa) * 0.25)
    by (intros s; replace (s - 4 - s) with (-4) by ring; lra).
  destruct (Rle_dec scaa xtsmax_i) as [Hle | Hgt].
  - assert (Hv : 0 <= v) by (unfold v; lra).
    rewrite (int_of_float_nonneg (v + 1)) by lra.
    pose proof (Zfloor_bound v) as [Hlo Hhi].
    assert (Hfl : Zfloor (v + 1) = (Zfloor v + 1)%Z).
    { apply Zfloor_eq. rewrite plus_IZR. simpl. lra. }
    assert (Hnn : (0 <= Zfloor v)%Z) by (apply Zfloor_lub; simpl; exact Hv).
    rewrite Hfl.
    destruct (Z.leb_spec (Zfloor v + 1) 0) as [Hneg | _]; [lia |].
    destruct (Rlt_dec (IZR (Zfloor v + 1 + 1)) nbfi_i) as [Hroom | Hfull].
    + split; [| intros [Habs _]; exfalso; lra].
      intros _. split; [reflexivity |]. split; [lia |].
      replace (Zfloor v + 1 - 1)%Z with (Zfloor v) by lia.
      set (f := IZR (Zfloor v)) in *. clearbody f.
      assert (Hs : scaa = xtsmax_i - 4 * v) by (unfold v; lra).
      split; [lra |]. split; [lra |].
      rewrite Hw. split; lra.
    + split; [| intros [Habs _]; exfalso; lra].
      intros [_ Hroom]. exfalso. apply Hfull.
      rewrite !plus_IZR. simpl. lra.
  - assert (Hv : v + 1 < 1) by (unfold v; lra).
    assert (Hidx : (int_of_float (v + 1) <= 0)%Z).
    { unfold int_of_float. destruct (Rlt_dec (v + 1) 0) as [Hneg | Hnn].
      - apply Zceil_neg. exact Hneg.
      - assert (Zfloor (v + 1) = 0%Z); [| lia].
        apply Zfloor_eq. simpl. lra. }
    destruct (Z.leb_spec (int_of_float (v + 1)) 0) as [_ | Hpos]; [| lia].
    destruct (Rlt_dec (IZR (1 + 1)) nbfi_i) as [_ | Hfull].
    + split; [intros [Habs _]; exfalso; lra |].
      intros [_ Hn]. simpl.
      replace (xtsmax_i - 0 * 4.0) with xtsmax_i by lra.
      split; [reflexivity |]. split; [reflexivity |]. split; [reflexivity |].
      rewrite Hw. lra.
    + split; [intros [Habs _]; exfalso; lra |].
      intros [_ Hn]. exfalso. apply Hfull. simpl. lra.
Qed.

(** ** The interpolation over the four angle corners *)


(** ** The composers at the nodes of their tables *)

Section Table_nodes.

Context {hdr : lut_header}.

Variables (tpres aot550nm : farray) (j k : Z).

Hypothesis pressure_levels : (2 <= NPRES_VALS)%Z.

Hypothesis tpres_descending :
  forall a b : Z,
    (0 <= a < b)%Z -> (b <= NPRES_VALS - 1)%Z -> tpres b < tpres a.

Hypothesis aot550nm_ascending :
  forall a b : Z, (0 <= a < b)%Z -> (b <= 21)%Z -> aot550nm a < aot550nm b.

Hypothesis j_in_grid : (0 <= j <= NPRES_VALS - 1)%Z.

Hypothesis k_in_grid : (0 <= k <= 21)%Z.

(** The AOT scan at a grid point: the entry below it, or entry 0 for the
    first entry. *)
Lemma atmcorlamb2_iaot1_grid_point :
  atmcorlamb2_iaot1 (aot550nm k) aot550nm = (if (k =? 0)%Z then 0 else k - 1)%Z.
Proof.
  unfold atmcorlamb2_iaot1.
  pose proof (for_loop_last (fun i => aot550nm k > aot550nm i)
                (fun i => Rgt_dec (aot550nm k) (aot550nm i)) 21 0 0) as Hscan.
  cbn zeta in Hscan.
  set (r := for_loop _ _ _ _) in *.
  assert (Hbelow : forall i, (0 <= i < k)%Z -> aot550nm k > aot550nm i).
  { intros i Hi. apply Rlt_gt. apply aot550nm_ascending; lia. }
  assert (Habove : forall i, (k <= i <= 21)%Z -> ~ aot550nm k > aot550nm i).
  { intros i Hi Hgt. destruct (Z.eq_dec i k) as [-> | Hne]; [lra |].
    assert (aot550nm k < aot550nm i) by (apply aot550nm_ascending; lia). lra. }
  destruct (Z.eqb_spec k 0) as [Hk0 | Hk0].
  - destruct Hscan as [[Hr _] | [Hrng [HP _]]]; [exact Hr |].
    exfalso. apply Habove in HP; [exact HP | lia].
  - destruct Hscan as [[_ Hno] | [Hrng [HP Hno]]].
    + exfalso. apply (Hno (k - 1)%Z); [lia | apply Hbelow; lia].
    + assert (Hlt : (r < k)%Z).
      { destruct (Z_lt_le_dec r k) as [Hlt | Hge]; [exact Hlt |].
        exfalso. apply Habove in HP; [exact HP | lia]. }
      destruct (Z.eq_dec r (k - 1)) as [Heq | Hne]; [exact Heq |].
      exfalso. apply (Hno (k - 1)%Z); [lia | apply Hbelow; lia].
Qed.

(** A grid point is its own bracket end: the AOT fraction is 0 at the first
    entry and 1 at every other one, and likewise for the pressure. *)
Lemma aot_fraction_grid_point :
  let iaot1 := atmcorlamb2_iaot1 (aot550nm k) aot550nm in
  let deltaaot :=
    (aot550nm k - aot550nm iaot1) /
    (aot550nm (iaot1 + 1)%Z - aot550nm iaot1) in
  (iaot1 = k /\ deltaaot = 0) \/ ((iaot1 + 1)%Z = k /\ deltaaot = 1).
Proof.
  cbn zeta. rewrite atmcorlamb2_iaot1_grid_point.
  destruct (Z.eqb_spec k 0) as [Hk0 | Hk0].
  - left. split; [lia |]. rewrite Hk0.
    unfold Rdiv. rewrite Rminus_diag. apply Rmult_0_l.
  - right. replace (k - 1 + 1)%Z with k by lia. split; [reflexivity |].
    assert (aot550nm (k - 1)%Z < aot550nm k)
      by (apply aot550nm_ascending; lia).
    field. lra.
Qed.

Lemma pressure_fraction_grid_point :
  let ip1 := atmcorlamb2_ip1 (tpres j) tpres in
  let dpres := (tpres j - tpres ip1) / (tpres (ip1 + 1)%Z - tpres ip1) in
  (ip1 = j /\ dpres = 0) \/ ((ip1 + 1)%Z = j /\ dpres = 1).
Proof.
  cbn zeta.
  rewrite (atmcorlamb2_ip1_grid_point tpres j tpres_descending j_in_grid).
  destruct (Z.eqb_spec j 0) as [Hj0 | Hj0].
  - left. split; [lia |]. rewrite Hj0.
    unfold Rdiv. rewrite Rminus_diag. apply Rmult_0_l.
  - right. replace (j - 1 + 1)%Z with j by lia. split; [reflexivity |].
    assert (tpres j < tpres (j - 1)%Z) by (apply tpres_descending; lia).
    field. lra.
Qed.

(** X12.  The linear composers reproduce their tables at the nodes.  With
    the brackets [atmcorlamb2] computes on a strictly descending pressure
    table and a strictly ascending AOT table, a query at the pressure
    [tpres[j]] and the AOT [aot550nm[k]] makes [compsalb] return the entry
    [sphalbt[iband][j][k]] itself; and [comptrans], for a sun angle at the
    node [i <= 19] of the regular table [tts[i] = xtsmin + xtsstep * i],
    returns the entry [transt[iband][j][k][i]] itself.  Both brackets and
    their upper neighbours are indices of the tables. *)
Theorem composers_reproduce_table_nodes :
  let ip1 := atmcorlamb2_ip1 (tpres j) tpres in
  let iaot1 := atmcorlamb2_iaot1 (aot550nm k) aot550nm in
  (0 <= ip1 /\ ip1 + 1 <= NPRES_VALS - 1)%Z /\
  (0 <= iaot1 /\ iaot1 + 1 <= 21)%Z /\
  (forall (iband : Z) (sphalbt normext : farray),
     compsalb ip1 (ip1 + 1) iaot1 (iaot1 + 1) (aot550nm k) iband (tpres j)
       tpres aot550nm sphalbt normext =
     sphalbt (iband * NPRES_VALS * NAOT_VALS + j * NAOT_VALS + k)%Z) /\
  (forall (iband i : Z) (transt tts : farray) (xtsstep xtsmin xtts : R),
     0 < xtsstep -> (0 <= i <= 19)%Z ->
     (forall n : Z, tts n = xtsmin + xtsstep * IZR n) ->
     comptrans ip1 (ip1 + 1) iaot1 (iaot1 + 1) (tts i) (aot550nm k) iband
       (tpres j) tpres aot550nm transt xtsstep xtsmin tts xtts =
     transt (iband * NPRES_VALS * NAOTxNSUNANGLE_VALS +
             j * NAOTxNSUNANGLE_VALS + k * NSUNANGLE_VALS + i)%Z).
Proof.
  cbn zeta.
  pose proof aot_fraction_grid_point as Haot.
  pose proof pressure_fraction_grid_point as Hpres.
  cbn zeta in Haot, Hpres.
  set (ip1 := atmcorlamb2_ip1 (tpres j) tpres) in *.
  set (iaot1 := atmcorlamb2_iaot1 (aot550nm k) aot550nm) in *.
  split.
  { unfold ip1.
    rewrite (atmcorlamb2_ip1_grid_point tpres j tpres_descending j_in_grid).
    destruct (Z.eqb_spec j 0); lia. }
  split.
  { unfold iaot1. rewrite atmcorlamb2_iaot1_grid_point.
    destruct (Z.eqb_spec k 0); lia. }
  split.
  - intros iband sphalbt normext. unfold compsalb. cbn zeta.
    set (da := (aot550nm k - aot550nm iaot1) /
               (aot550nm (iaot1 + 1)%Z - aot550nm iaot1)) in *.
    set (dp := (tpres j - tpres ip1) / (tpres (ip1 + 1)%Z - tpres ip1)) in *.
    destruct Haot as [[Hi Hda] | [Hi Hda]];
      destruct Hpres as [[Hp Hdp] | [Hp Hdp]];
      rewrite Hda, Hdp; ring_simplify; f_equal; lia.
  - intros iband i transt tts xtsstep xtsmin xtts Hstep Hi Htts.
    assert (Hidx : sun_angle_index (tts i) xtsstep xtsmin = i).
    { unfold sun_angle_index. rewrite Htts.
      destruct (Rle_dec (xtsmin + xtsstep * IZR i) xtsmin) as [Hle | Hgt].
      - assert (Hi0 : IZR i <= 0) by nra.
        apply (le_IZR i 0) in Hi0. lia.
      - replace ((xtsmin + xtsstep * IZR i - xtsmin) / xtsstep) with (IZR i)
          by (field; lra).
        apply int_of_float_eq; [lia | lra]. }
    unfold comptrans. cbn zeta. rewrite Hidx.
    destruct (Z.gtb_spec i 19) as [Hbig | _]; [lia |].
    replace ((tts i - tts i) * 0.25) with 0 by lra.
    set (da := (aot550nm k - aot550nm iaot1) /
               (aot550nm (iaot1 + 1)%Z - aot550nm iaot1)) in *.
    set (dp := (tpres j - tpres ip1) / (tpres (ip1 + 1)%Z - tpres ip1)) in *.
    destruct Haot as [[Hk Hda] | [Hk Hda]];
      destruct Hpres as [[Hp Hdp] | [Hp Hdp]];
      rewrite Hda, Hdp; ring_simplify; f_equal; lia.
Qed.

End Table_nodes.

(** ** The composers within their tables *)

Lemma blend_bounds (a b w lo hi : R) :
  0 <= w <= 1 -> lo <= a <= hi -> lo <= b <= hi ->
  lo <= a + (b - a) * w <= hi.
Proof. intros Hw Ha Hb. split; nra. Qed.

(** X13.  Interpolation does not overshoot.  For a pressure and an AOT
    within their tables (strictly descending and strictly ascending), with
    the brackets [atmcorlamb2] computes, [compsalb] returns a value within
    any bounds the entries of the albedo table satisfy; and so does
    [comptrans] for the transmission table, for an angle in the domain of
    the regular 4 degree table the routine is written for. *)
Theorem composers_within_table_bounds {hdr : lut_header}
    (tpres aot550nm : farray) (pres m lo hi : R) :
  (2 <= NPRES_VALS)%Z ->
  (forall i j : Z,
     (0 <= i < j)%Z -> (j <= NPRES_VALS - 1)%Z -> tpres j < tpres i) ->
  (forall i j : Z, (0 <= i < j)%Z -> (j <= 21)%Z -> aot550nm i < aot550nm j) ->
  tpres (NPRES_VALS - 1)%Z <= pres < tpres 0%Z ->
  aot550nm 0%Z < m <= aot550nm 21%Z ->
  let ip1 := atmcorlamb2_ip1 pres tpres in
  let iaot1 := atmcorlamb2_iaot1 m aot550nm in
  (forall (iband : Z) (sphalbt normext : farray),
     (forall i : Z, lo <= sphalbt i <= hi) ->
     lo <= compsalb ip1 (ip1 + 1) iaot1 (iaot1 + 1) m iband pres tpres
             aot550nm sphalbt normext <= hi) /\
  (forall (iband : Z) (transt tts : farray) (xts xtsmin xtts : R),
     (forall i : Z, lo <= transt i <= hi) ->
     (forall n : Z, tts n = xtsmin + 4 * IZR n) ->
     xtsmin <= xts < xtsmin + 20 * 4 ->
     lo <= comptrans ip1 (ip1 + 1) iaot1 (iaot1 + 1) xts m iband pres tpres
             aot550nm transt 4 xtsmin tts xtts <= hi).
Proof.
  intros Hn Hdesc Hasc Hpres Haot. cbn zeta.
  destruct (atmcorlamb2_ip1_inside tpres pres Hn Hdesc Hpres) as [_ Hp].
  destruct (atmcorlamb2_iaot1_inside aot550nm m Hasc Haot) as [_ Ha].
  cbn zeta in Hp, Ha.
  set (ip1 := atmcorlamb2_ip1 pres tpres) in *.
  set (iaot1 := atmcorlamb2_iaot1 m aot550nm) in *.
  assert (Hdp : 0 <= (pres - tpres ip1) / (tpres (ip1 + 1)%Z - tpres ip1) <= 1).
  { pose proof (blend_fraction_inside pres (tpres ip1) (tpres (ip1 + 1)%Z)
                  (or_intror Hp)). lra. }
  assert (Hda : 0 <= (m - aot550nm iaot1) /
                     (aot550nm (iaot1 + 1)%Z - aot550nm iaot1) <= 1).
  { pose proof (blend_fraction_inside m (aot550nm iaot1)
                  (aot550nm (iaot1 + 1)%Z) (or_introl Ha)). lra. }
  split.
  - intros iband sphalbt normext Htab. unfold compsalb. cbn zeta.
    apply blend_bounds; [exact Hdp | |]; apply blend_bounds;
      solve [exact Hda | apply Htab].
  - intros iband transt tts xts xtsmin xtts Htab Htts Hdom.
    assert (Hstep : 0 < 4) by lra.
    destruct (sun_angle_index_regular_inside xts 4 xtsmin tts Hstep Htts
                (proj1 Hdom)) as [Hnn Hencl].
    cbn zeta in Hencl.
    assert (Hidx : (sun_angle_index xts 4 xtsmin <= 19)%Z).
    { unfold sun_angle_index.
      destruct (Rle_dec xts xtsmin) as [Hle | Hgt]; [lia |].
      rewrite int_of_float_nonneg
        by (apply Rlt_le; apply Rdiv_lt_0_compat; lra).
      apply (Zfloor_scaled_index (xts - xtsmin) 4 19 Hstep). lra. }
    unfold comptrans. cbn zeta.
    destruct (Z.gtb_spec (sun_angle_index xts 4 xtsmin) 19) as [Hbig | _];
      [lia |].
    set (its := sun_angle_index xts 4 xtsmin) in *.
    assert (Hw : 0 <= (xts - tts its) * 0.25 <= 1).
    { rewrite !Htts, plus_IZR in Hencl. rewrite Htts. simpl in Hencl. lra. }
    apply blend_bounds; [exact Hdp | |]; apply blend_bounds;
      try exact Hda; apply blend_bounds; solve [exact Hw | apply Htab].
Qed.

(** ** The layout of the intrinsic reflectance table *)

Lemma store_same (a : farray) (i : Z) (v : R) : store a i v i = v.
Proof. unfold store. rewrite Z.eqb_refl. reflexivity. Qed.

Lemma store_other (a : farray) (i j : Z) (v : R) :
  j <> i -> store a i v j = a j.
Proof.
  intros Hne. unfold store.
  destruct (Z.eqb_spec j i) as [Heq | _]; [contradiction | reflexivity].
Qed.

(** A loop that copies a strided run of [src] into consecutive cells. *)
Lemma for_loop_copy_run (src : farray) (stride : Z) (n : nat) :
  forall (i0 : Z) (a : farray) (c t : Z),
    let r := for_loop n i0
               (fun (_ : Z) '(a, (c, t)) =>
                  (store a c (src t), ((c + 1)%Z, (t + stride)%Z)))
               (a, (c, t)) in
    (forall k : Z, (0 <= k < Z.of_nat n)%Z ->
                   fst r (c + k)%Z = src (t + k * stride)%Z) /\
    (forall x : Z, ~ (c <= x < c + Z.of_nat n)%Z -> fst r x = a x).
Proof.
  induction n as [| n IH]; intros i0 a c t; cbn zeta.
  - split; [intros k Hk; lia | intros x _; reflexivity].
  - cbn [for_loop].
    specialize (IH (i0 + 1)%Z (store a c (src t)) (c + 1)%Z (t + stride)%Z).
    cbn zeta in IH. destruct IH as [Hcells Hframe].
    split.
    + intros k Hk. destruct (Z.eq_dec k 0) as [-> | Hne].
      * rewrite Hframe by lia.
        replace (c + 0)%Z with c by lia.
        replace (t + 0 * stride)%Z with t by lia.
        apply store_same.
      * replace (c + k)%Z with (c + 1 + (k - 1))%Z by lia.
        rewrite Hcells by lia. f_equal. lia.
    + intros x Hx. rewrite Hframe by lia. apply store_other. lia.
Qed.

(** A loop whose iteration [i] fills the block [i] of [len] cells. *)
Lemma for_loop_blocks (base len : Z) (v : Z -> Z -> R)
    (body : Z -> farray -> farray) :
  (0 <= len)%Z ->
  (forall (i : Z) (a : farray) (k : Z),
      (0 <= k < len)%Z -> body i a (base + i * len + k)%Z = v i k) ->
  (forall (i : Z) (a : farray) (x : Z),
      ~ (base + i * len <= x < base + (i + 1) * len)%Z -> body i a x = a x) ->
  forall (n : nat) (i0 : Z) (a : farray),
    let r := for_loop n i0 body a in
    (forall i k : Z,
        (i0 <= i < i0 + Z.of_nat n)%Z -> (0 <= k < len)%Z ->
        r (base + i * len + k)%Z = v i k) /\
    (forall x : Z,
        ~ (base + i0 * len <= x < base + (i0 + Z.of_nat n) * len)%Z ->
        r x = a x).
Proof.
  intros Hlen Hcell Hkeep.
  induction n as [| n IH]; intros i0 a; cbn zeta.
  - split; [intros i k Hi; lia | intros x _; reflexivity].
  - cbn [for_loop].
    specialize (IH (i0 + 1)%Z (body i0 a)). cbn zeta in IH.
    destruct IH as [Hcells Hframe].
    split.
    + intros i k Hi Hk. destruct (Z.eq_dec i i0) as [-> | Hne].
      * rewrite Hframe by nia. apply Hcell. exact Hk.
      * apply Hcells; [lia | exact Hk].
    + intros x Hx. rewrite Hframe by nia. apply Hkeep. nia.
Qed.

Section Flip.

Context {hdr : lut_header}.

Hypothesis product : NAOTxNSOLAR_VALS = (NAOT_VALS * NSOLAR_VALS)%Z.
Hypothesis pressures : (0 <= NPRES_VALS)%Z.
Hypothesis aots : (0 <= NAOT_VALS)%Z.
Hypothesis solars : (0 <= NSOLAR_VALS)%Z.

(** The cells of a band after the flip, and the cells it leaves alone. *)
Lemma readluts_flip_cells (ibndx : Z) (rolut rolutt : farray) :
  (forall ipres itau ival : Z,
      (0 <= ipres < NPRES_VALS)%Z -> (0 <= itau < NAOT_VALS)%Z ->
      (0 <= ival < NSOLAR_VALS)%Z ->
      readluts_flip ibndx rolut rolutt
        (ibndx * NPRES_VALS * NAOTxNSOLAR_VALS + ipres * NAOTxNSOLAR_VALS +
         itau * NSOLAR_VALS + ival)%Z =
      rolut (ival * (NAOT_VALS * NPRES_VALS) + itau * NPRES_VALS + ipres)%Z) /\
  (forall x : Z,
      ~ (ibndx * NPRES_VALS * NAOTxNSOLAR_VALS <= x <
         (ibndx + 1) * NPRES_VALS * NAOTxNSOLAR_VALS)%Z ->
      readluts_flip ibndx rolut rolutt x = rolutt x).
Proof.
  unfold readluts_flip. cbn zeta.
  set (band := (ibndx * NPRES_VALS * NAOTxNSOLAR_VALS)%Z).
  set (inner := fun (curr tmp : Z) (a : farray) =>
         fst (for_loop (Z.to_nat NSOLAR_VALS) 0%Z
                (fun (_ : Z) '(a, (c, t)) =>
                   (store a c (rolut t),
                    ((c + 1)%Z, (t + NAOT_VALS * NPRES_VALS)%Z)))
                (a, (curr, tmp)))).
  assert (Hinner : forall (curr tmp : Z) (a : farray),
    (forall k : Z, (0 <= k < NSOLAR_VALS)%Z ->
       inner curr tmp a (curr + k)%Z =
       rolut (tmp + k * (NAOT_VALS * NPRES_VALS))%Z) /\
    (forall x : Z, ~ (curr <= x < curr + NSOLAR_VALS)%Z ->
       inner curr tmp a x = a x)).
  { intros curr tmp a.
    pose proof (for_loop_copy_run rolut (NAOT_VALS * NPRES_VALS)%Z
                  (Z.to_nat NSOLAR_VALS) 0%Z a curr tmp) as H.
    cbn zeta in H. rewrite Z2Nat.id in H by exact solars. exact H. }
  set (middle := fun (ipres : Z) (a : farray) =>
         for_loop (Z.to_nat NAOT_VALS) 0%Z
           (fun (itau : Z) (a : farray) =>
              inner (band + ipres * NAOTxNSOLAR_VALS + itau * NSOLAR_VALS)%Z
                    (itau * NPRES_VALS + ipres)%Z a) a).
  assert (Hmiddle : forall (ipres : Z) (a : farray),
    (forall itau k : Z, (0 <= itau < NAOT_VALS)%Z -> (0 <= k < NSOLAR_VALS)%Z ->
       middle ipres a
         (band + ipres * NAOTxNSOLAR_VALS + itau * NSOLAR_VALS + k)%Z =
       rolut (itau * NPRES_VALS + ipres + k * (NAOT_VALS * NPRES_VALS))%Z) /\
    (forall x : Z,
       ~ (band + ipres * NAOTxNSOLAR_VALS <= x <
          band + (ipres + 1) * NAOTxNSOLAR_VALS)%Z ->
       middle ipres a x = a x)).
  { intros ipres a.
    pose proof (for_loop_blocks (band + ipres * NAOTxNSOLAR_VALS)%Z
                  NSOLAR_VALS
                  (fun itau k =>
                     rolut (itau * NPRES_VALS + ipres +
                            k * (NAOT_VALS * NPRES_VALS))%Z)
                  (fun (itau : Z) (a : farray) =>
                     inner (band + ipres * NAOTxNSOLAR_VALS +
                            itau * NSOLAR_VALS)%Z
                           (itau * NPRES_VALS + ipres)%Z a)
                  solars) as H.
    assert (Hc : forall (i : Z) (a0 : farray) (k : Z),
      (0 <= k < NSOLAR_VALS)%Z ->
      inner (band + ipres * NAOTxNSOLAR_VALS + i * NSOLAR_VALS)%Z
            (i * NPRES_VALS + ipres)%Z a0
            (band + ipres * NAOTxNSOLAR_VALS + i * NSOLAR_VALS + k)%Z =
      rolut (i * NPRES_VALS + ipres + k * (NAOT_VALS * NPRES_VALS))%Z).
    { intros i a0 k Hk. apply (proj1 (Hinner _ _ a0)). exact Hk. }
    assert (Hk : forall (i : Z) (a0 : farray) (x : Z),
      ~ (band + ipres * NAOTxNSOLAR_VALS + i * NSOLAR_VALS <= x <
         band + ipres * NAOTxNSOLAR_VALS + (i + 1) * NSOLAR_VALS)%Z ->
      inner (band + ipres * NAOTxNSOLAR_VALS + i * NSOLAR_VALS)%Z
            (i * NPRES_VALS + ipres)%Z a0 x = a0 x).
    { intros i a0 x Hx. apply (proj2 (Hinner _ _ a0)). lia. }
    specialize (H Hc Hk (Z.to_nat NAOT_VALS) 0%Z a). cbn zeta in H.
    rewrite Z2Nat.id in H by exact aots.
    destruct H as [Hcells Hframe]. split.
    - intros itau k Hitau Hkk. apply Hcells; lia.
    - intros x Hx. apply Hframe. rewrite product in Hx. lia. }
  pose proof (for_loop_blocks band NAOTxNSOLAR_VALS
                (fun ipres k =>
                   rolut ((k / NSOLAR_VALS) * NPRES_VALS + ipres +
                          (k mod NSOLAR_VALS) * (NAOT_VALS * NPRES_VALS))%Z)
                middle) as H.
  assert (Hlen : (0 <= NAOTxNSOLAR_VALS)%Z) by (rewrite product; nia).
  assert (Hc : forall (i : Z) (a : farray) (k : Z),
    (0 <= k < NAOTxNSOLAR_VALS)%Z ->
    middle i a (band + i * NAOTxNSOLAR_VALS + k)%Z =
    rolut ((k / NSOLAR_VALS) * NPRES_VALS + i +
           (k mod NSOLAR_VALS) * (NAOT_VALS * NPRES_VALS))%Z).
  { intros i a k Hk.
    assert (Hpos : (0 < NSOLAR_VALS)%Z) by (rewrite product in Hk; nia).
    assert (Hnz : NSOLAR_VALS <> 0%Z) by lia.
    pose proof (Z.div_mod k NSOLAR_VALS Hnz) as Hdm.
    pose proof (Z.mod_pos_bound k NSOLAR_VALS Hpos) as Hmod.
    assert (Hdiv : (0 <= k / NSOLAR_VALS < NAOT_VALS)%Z).
    { split; [apply Z.div_pos; lia |].
      apply Z.div_lt_upper_bound; [exact Hpos |]. rewrite product in Hk. lia. }
    replace (band + i * NAOTxNSOLAR_VALS + k)%Z
      with (band + i * NAOTxNSOLAR_VALS + (k / NSOLAR_VALS) * NSOLAR_VALS +
            k mod NSOLAR_VALS)%Z by lia.
    apply (proj1 (Hmiddle i a)); assumption. }
  assert (Hk : forall (i : Z) (a : farray) (x : Z),
    ~ (band + i * NAOTxNSOLAR_VALS <= x <
       band + (i + 1) * NAOTxNSOLAR_VALS)%Z -> middle i a x = a x).
  { intros i a x Hx. apply (proj2 (Hmiddle i a)). exact Hx. }
  specialize (H Hlen Hc Hk (Z.to_nat NPRES_VALS) 0%Z rolutt). cbn zeta in H.
  rewrite Z2Nat.id in H by exact pressures.
  destruct H as [Hcells Hframe]. split.
  - intros ipres itau ival Hipres Hitau Hival.
    assert (Hpos : (0 < NSOLAR_VALS)%Z) by lia.
    replace (band + ipres * NAOTxNSOLAR_VALS + itau * NSOLAR_VALS + ival)%Z
      with (band + ipres * NAOTxNSOLAR_VALS + (itau * NSOLAR_VALS + ival))%Z
      by lia.
    change (for_loop (Z.to_nat NPRES_VALS) 0%Z middle rolutt
              (band + ipres * NAOTxNSOLAR_VALS +
               (itau * NSOLAR_VALS + ival))%Z =
            rolut (ival * (NAOT_VALS * NPRES_VALS) + itau * NPRES_VALS +
                   ipres)%Z).
    rewrite Hcells; [| lia | rewrite product; nia].
    assert (Hq : ((itau * NSOLAR_VALS + ival) / NSOLAR_VALS = itau)%Z).
    { rewrite Z.div_add_l by lia. rewrite Z.div_small by lia. lia. }
    assert (Hr : ((itau * NSOLAR_VALS + ival) mod NSOLAR_VALS = ival)%Z).
    { rewrite Z.add_comm, Z.mod_add by lia. apply Z.mod_small. lia. }
    rewrite Hq, Hr. f_equal. lia.
  - intros x Hx.
    change (for_loop (Z.to_nat NPRES_VALS) 0%Z middle rolutt x = rolutt x).
    apply Hframe. unfold band. nia.
Qed.

(** X14.  The flip of [readluts] is the transposition the consumers rely
    on.  With [NAOTxNSOLAR_VALS = NAOT_VALS * NSOLAR_VALS], after the flip
    of band [ibndx] the cell
    [ibndx*NPRES_VALS*NAOTxNSOLAR_VALS + ipres*NAOTxNSOLAR_VALS +
     itau*NSOLAR_VALS + ival] of [rolutt], which is where [comproatm] looks
    for pressure [ipres], AOT [itau] and offset [ival], holds the entry
    [rolut[ival][itau][ipres]] of the band as read from the file, for every
    index triple within the table; every cell outside the block of band
    [ibndx] keeps its content. *)
Theorem readluts_flip_layout (ibndx : Z) (rolut rolutt : farray) :
  let flipped := readluts_flip ibndx rolut rolutt in
  (forall ipres itau ival : Z,
      (0 <= ipres < NPRES_VALS)%Z -> (0 <= itau < NAOT_VALS)%Z ->
      (0 <= ival < NSOLAR_VALS)%Z ->
      flipped (ibndx * NPRES_VALS * NAOTxNSOLAR_VALS +
               ipres * NAOTxNSOLAR_VALS + itau * NSOLAR_VALS + ival)%Z =
      rolut (ival * (NAOT_VALS * NPRES_VALS) + itau * NPRES_VALS + ipres)%Z) /\
  (forall x : Z,
      ~ (ibndx * NPRES_VALS * NAOTxNSOLAR_VALS <= x <
         (ibndx + 1) * NPRES_VALS * NAOTxNSOLAR_VALS)%Z ->
      flipped x = rolutt x).
Proof. cbn zeta. apply readluts_flip_cells. Qed.

End Flip.

(** ** The bands of the intrinsic reflectance table *)

Section Band_loop.

Context {hdr : lut_header} {bands : band_header}.

Hypothesis product : NAOTxNSOLAR_VALS = (NAOT_VALS * NSOLAR_VALS)%Z.
Hypothesis pressures : (0 <= NPRES_VALS)%Z.
Hypothesis aots : (0 <= NAOT_VALS)%Z.
Hypothesis solars : (0 <= NSOLAR_VALS)%Z.
Hypothesis band_order : (0 <= SBAND9 < SBAND10)%Z.

Variables (sat : Sat_t) (read_band : Z -> result farray).

(** Whether the loop leaves the band [b] of the file out, and the index
    under which it stores it otherwise: the bands of the file below [b],
    less the ones left out. *)
Local Abbreviation skipped b :=
  (match sat with
   | SAT_SENTINEL_2 => (b =? SBAND9)%Z || (b =? SBAND10)%Z
   | _ => false
   end).
Local Abbreviation stored b :=
  (match sat with
   | SAT_SENTINEL_2 =>
       b - (if SBAND9 <? b then 1 else 0) - (if SBAND10 <? b then 1 else 0)
   | _ => b
   end)%Z.
Local Abbreviation block := (NPRES_VALS * NAOTxNSOLAR_VALS)%Z.

Lemma stored_next (b : Z) :
  stored (b + 1)%Z = (stored b + (if skipped b then 0 else 1))%Z.
Proof.
  destruct sat; try lia.
  destruct (Z.ltb_spec SBAND9 (b + 1)); destruct (Z.ltb_spec SBAND9 b);
    destruct (Z.ltb_spec SBAND10 (b + 1)); destruct (Z.ltb_spec SBAND10 b);
    destruct (Z.eqb_spec b SBAND9); destruct (Z.eqb_spec b SBAND10);
    cbn [orb]; lia.
Qed.

Lemma stored_monotone (b c : Z) : (b <= c)%Z -> (stored b <= stored c)%Z.
Proof.
  intros Hbc. destruct sat; try lia.
  destruct (Z.ltb_spec SBAND9 b); destruct (Z.ltb_spec SBAND9 c);
    destruct (Z.ltb_spec SBAND10 b); destruct (Z.ltb_spec SBAND10 c); lia.
Qed.

Lemma stored_0 : stored 0%Z = 0%Z.
Proof.
  destruct sat; try reflexivity.
  destruct (Z.ltb_spec SBAND9 0); destruct (Z.ltb_spec SBAND10 0); lia.
Qed.

Lemma readluts_band_index_stored (b : Z) :
  readluts_band_index sat b (stored b - 1) =
  if skipped b then None else Some (stored b).
Proof.
  unfold readluts_band_index. destruct sat; try reflexivity.
  destruct ((b =? SBAND9)%Z || (b =? SBAND10)%Z); [reflexivity |].
  f_equal. lia.
Qed.

Lemma block_nonneg : (0 <= block)%Z.
Proof. rewrite product. nia. Qed.

Lemma cell_in_block (k ipres itau ival : Z) :
  (0 <= ipres < NPRES_VALS)%Z -> (0 <= itau < NAOT_VALS)%Z ->
  (0 <= ival < NSOLAR_VALS)%Z ->
  (k * block <=
   k * NPRES_VALS * NAOTxNSOLAR_VALS + ipres * NAOTxNSOLAR_VALS +
   itau * NSOLAR_VALS + ival < (k + 1) * block)%Z.
Proof.
  intros Hp Ha Hs. rewrite product.
  assert (0 <= itau * NSOLAR_VALS + ival < NAOT_VALS * NSOLAR_VALS)%Z by nia.
  assert (0 <= ipres * (NAOT_VALS * NSOLAR_VALS) +
               (itau * NSOLAR_VALS + ival) <
          NPRES_VALS * (NAOT_VALS * NSOLAR_VALS))%Z by nia.
  nia.
Qed.

Lemma for_loop_band_error (n : nat) (i0 : Z) (msg : string) :
  for_loop n i0 (readluts_rolutt_band sat read_band) (Error msg) = Error msg.
Proof.
  revert i0. induction n as [| n IH]; intros i0; [reflexivity |].
  cbn [for_loop]. apply IH.
Qed.

(** The loop from the band [i0] on, entered with the index of the band
    stored last. *)
Lemma for_loop_bands (n : nat) :
  forall (i0 : Z) (a : farray),
    (forall b : Z, (i0 <= b < i0 + Z.of_nat n)%Z -> skipped b = false ->
                   exists rolut, read_band b = Success rolut) ->
    exists a' : farray,
      for_loop n i0 (readluts_rolutt_band sat read_band)
        (Success ((stored i0 - 1)%Z, a)) =
      Success ((stored (i0 + Z.of_nat n) - 1)%Z, a') /\
      (forall (b : Z) (rolut : farray) (ipres itau ival : Z),
          (i0 <= b < i0 + Z.of_nat n)%Z -> skipped b = false ->
          read_band b = Success rolut ->
          (0 <= ipres < NPRES_VALS)%Z -> (0 <= itau < NAOT_VALS)%Z ->
          (0 <= ival < NSOLAR_VALS)%Z ->
          a' (stored b * NPRES_VALS * NAOTxNSOLAR_VALS +
              ipres * NAOTxNSOLAR_VALS + itau * NSOLAR_VALS + ival)%Z =
          rolut (ival * (NAOT_VALS * NPRES_VALS) + itau * NPRES_VALS +
                 ipres)%Z) /\
      (forall x : Z,
          ~ (stored i0 * block <= x < stored (i0 + Z.of_nat n) * block)%Z ->
          a' x = a x).
Proof.
  pose proof block_nonneg as Hblock.
  induction n as [| n IH]; intros i0 a Hread.
  - exists a. cbn [for_loop]. replace (i0 + Z.of_nat 0)%Z with i0 by lia.
    split; [reflexivity |]. split; [intros; lia | reflexivity].
  - cbn [for_loop]. unfold readluts_rolutt_band at 2.
    rewrite readluts_band_index_stored.
    pose proof (stored_next i0) as Hnext.
    replace (i0 + Z.of_nat (S n))%Z with (i0 + 1 + Z.of_nat n)%Z by lia.
    assert (Hread' : forall b : Z,
      (i0 + 1 <= b < i0 + 1 + Z.of_nat n)%Z -> skipped b = false ->
      exists rolut, read_band b = Success rolut).
    { intros b Hb. apply Hread. lia. }
    pose proof (stored_monotone (i0 + 1) (i0 + 1 + Z.of_nat n) ltac:(lia))
      as Hmono.
    destruct (skipped i0) eqn:Hskip.
    + destruct (IH (i0 + 1)%Z a Hread') as (a' & Hrun & Hcells & Hframe).
      exists a'.
      replace (stored i0 - 1)%Z with (stored (i0 + 1) - 1)%Z by lia.
      split; [exact Hrun |]. split.
      * intros b rolut ipres itau ival Hb Hnot. apply Hcells; [| exact Hnot].
        destruct (Z.eq_dec b i0) as [-> | Hne]; [congruence | lia].
      * intros x Hx. apply Hframe.
        replace (stored (i0 + 1)) with (stored i0) by lia. exact Hx.
    + destruct (Hread i0 ltac:(lia) Hskip) as [rolut0 Hrolut0].
      rewrite Hrolut0.
      destruct (IH (i0 + 1)%Z (readluts_flip (stored i0) rolut0 a) Hread')
        as (a' & Hrun & Hcells & Hframe).
      destruct (readluts_flip_cells product pressures aots solars (stored i0)
                  rolut0 a) as [Hflip Hkeep].
      exists a'.
      replace (stored i0) with (stored (i0 + 1) - 1)%Z at 1 by lia.
      split; [exact Hrun |]. split.
      * intros b rolut ipres itau ival Hb Hnot Hrolut Hp Ha Hs.
        destruct (Z.eq_dec b i0) as [-> | Hne].
        -- rewrite Hrolut0 in Hrolut. injection Hrolut as <-.
           pose proof (cell_in_block (stored i0) ipres itau ival Hp Ha Hs)
             as Hin.
           rewrite Hframe.
           ++ apply Hflip; assumption.
           ++ intros [Hlo _].
              assert ((stored i0 + 1) * block <= stored (i0 + 1) * block)%Z
                by (apply Z.mul_le_mono_nonneg_r; lia).
              lia.
        -- apply Hcells; try assumption. lia.
      * intros x Hx.
        assert (Hle1 : (stored i0 * block <= (stored i0 + 1) * block)%Z)
          by (apply Z.mul_le_mono_nonneg_r; lia).
        assert (Hle2 : ((stored i0 + 1) * block <=
                        stored (i0 + 1 + Z.of_nat n) * block)%Z)
          by (apply Z.mul_le_mono_nonneg_r; lia).
        rewrite Hframe.
        -- apply Hkeep.
           replace (stored i0 * NPRES_VALS * NAOTxNSOLAR_VALS)%Z
             with (stored i0 * block)%Z by ring.
           replace ((stored i0 + 1) * NPRES_VALS * NAOTxNSOLAR_VALS)%Z
             with ((stored i0 + 1) * block)%Z by ring.
           lia.
        -- replace (stored (i0 + 1)) with (stored i0 + 1)%Z by lia. lia.
Qed.

(** The loop up to the first band whose HDF calls fail. *)
Lemma for_loop_bands_failure (n : nat) :
  forall (i0 : Z) (a : farray) (f : Z) (msg : string),
    (i0 <= f < i0 + Z.of_nat n)%Z -> skipped f = false ->
    read_band f = Error msg ->
    (forall b : Z, (i0 <= b < f)%Z -> skipped b = false ->
                   exists rolut, read_band b = Success rolut) ->
    for_loop n i0 (readluts_rolutt_band sat read_band)
      (Success ((stored i0 - 1)%Z, a)) = Error msg.
Proof.
  induction n as [| n IH]; intros i0 a f msg Hf Hnot Hfail Hread; [lia |].
  cbn [for_loop]. unfold readluts_rolutt_band at 2.
  rewrite readluts_band_index_stored.
  pose proof (stored_next i0) as Hnext.
  destruct (Z.eq_dec f i0) as [-> | Hne].
  - rewrite Hnot, Hfail. apply for_loop_band_error.
  - assert (Hread' : forall b : Z,
      (i0 + 1 <= b < f)%Z -> skipped b = false ->
      exists rolut, read_band b = Success rolut).
    { intros b Hb. apply Hread. lia. }
    destruct (skipped i0) eqn:Hskip.
    + replace (stored i0 - 1)%Z with (stored (i0 + 1) - 1)%Z by lia.
      apply (IH (i0 + 1)%Z a f msg); try assumption. lia.
    + destruct (Hread i0 ltac:(lia) Hskip) as [rolut0 Hrolut0].
      rewrite Hrolut0.
      replace (stored i0) with (stored (i0 + 1) - 1)%Z at 1 by lia.
      apply (IH (i0 + 1)%Z _ f msg); try assumption. lia.
Qed.

(** X15.  The bands of the intrinsic reflectance table.  The loop of
    [readluts] stores the bands of the file in their order, one block of
    [NPRES_VALS * NAOTxNSOLAR_VALS] cells each: every band for Landsat; for
    Sentinel-2 every band but the two at [SBAND9] and [SBAND10], which are
    never asked of the file, so that a band above them is stored one or two
    blocks lower than its position in the file.  If the HDF calls succeed
    for every band that is not left out, the loop ends normally, each such
    band [b] is found transposed in the block [b], [b - 1] or [b - 2], and
    the cells beyond the blocks stored keep their content; if they fail for
    a band, [readluts] returns [ERROR] with the message of the first band
    that fails. *)
Theorem readluts_rolutt_bands_layout (rolutt : farray) :
  let nsr_bands := readluts_nsr_bands sat in
  ((forall b : Z, (0 <= b < nsr_bands)%Z -> skipped b = false ->
                  exists rolut, read_band b = Success rolut) ->
   exists rolutt' : farray,
     readluts_rolutt_bands sat read_band rolutt = Success rolutt' /\
     (forall (b : Z) (rolut : farray) (ipres itau ival : Z),
         (0 <= b < nsr_bands)%Z -> skipped b = false ->
         read_band b = Success rolut ->
         (0 <= ipres < NPRES_VALS)%Z -> (0 <= itau < NAOT_VALS)%Z ->
         (0 <= ival < NSOLAR_VALS)%Z ->
         rolutt' (stored b * NPRES_VALS * NAOTxNSOLAR_VALS +
                  ipres * NAOTxNSOLAR_VALS + itau * NSOLAR_VALS + ival)%Z =
         rolut (ival * (NAOT_VALS * NPRES_VALS) + itau * NPRES_VALS +
                ipres)%Z) /\
     (forall x : Z,
         ~ (0 <= x < stored nsr_bands * block)%Z -> rolutt' x = rolutt x)) /\
  (forall (f : Z) (msg : string),
      (0 <= f < nsr_bands)%Z -> skipped f = false ->
      read_band f = Error msg ->
      (forall b : Z, (0 <= b < f)%Z -> skipped b = false ->
                     exists rolut, read_band b = Success rolut) ->
      readluts_rolutt_bands sat read_band rolutt = Error msg).
Proof.
  cbn zeta. unfold readluts_rolutt_bands. cbn zeta.
  pose proof stored_0 as H0.
  split.
  - intros Hread.
    destruct (Z_lt_le_dec (readluts_nsr_bands sat) 0) as [Hneg | Hnn].
    + replace (Z.to_nat (readluts_nsr_bands sat)) with 0%nat by lia.
      cbn [for_loop]. exists rolutt. split; [reflexivity |].
      split; [intros; lia | reflexivity].
    + destruct (for_loop_bands (Z.to_nat (readluts_nsr_bands sat)) 0%Z rolutt)
        as (a' & Hrun & Hcells & Hframe).
      { intros b Hb. apply Hread. lia. }
      rewrite Z2Nat.id in Hrun, Hcells, Hframe by exact Hnn.
      replace (0 + readluts_nsr_bands sat)%Z with (readluts_nsr_bands sat)
        in Hrun, Hcells, Hframe by lia.
      replace (stored 0 - 1)%Z with (-1)%Z in Hrun by lia.
      rewrite Hrun. exists a'. split; [reflexivity |]. split.
      * intros b rolut ipres itau ival Hb. apply Hcells. exact Hb.
      * intros x Hx. apply Hframe. rewrite H0. lia.
  - intros f msg Hf Hnot Hfail Hread.
    pose proof (for_loop_bands_failure (Z.to_nat (readluts_nsr_bands sat)) 0%Z
                  rolutt f msg) as Hrun.
    replace (stored 0 - 1)%Z with (-1)%Z in Hrun by lia.
    rewrite Hrun; try assumption; [reflexivity | lia].
Qed.

End Band_loop.

(** ** The angle weight of the transmission *)

(** X17.  [comptrans] takes the index of its angle from the step and the
    minimum it is given, but weighs the angle on the table [tts] with the
    fixed factor 0.25.  On a regular table of 4 degree steps,
    [tts[j] = t0 + 4 * j], and for a positive step: an angle above [xtsmin]
    gets the index [floor ((xts - xtsmin) / xtsstep)], and its weight
    [(xts - tts[its]) * 0.25] lies in [0, 1) exactly when that index is the
    entry of the table at or below the angle,
    [floor ((xts - t0) / 4)]; an angle that is not above [xtsmin] gets the
    index 0, and its weight lies in [0, 1) exactly when
    [t0 <= xts < t0 + 4].  In the domain, over a transmission table that
    depends on the angle alone, [transt[iband][ip][iaot][j] = g[j]],
    [comptrans] stores [g[its] + (g[its+1] - g[its]) * xmts]: with a
    weight outside [0, 1) it extrapolates from the entries [its] and
    [its + 1]. *)
Theorem comptrans_weight_interpolates_iff {hdr : lut_header}
    (xts xtsstep xtsmin t0 : R) (tts : farray) :
  (forall j : Z, tts j = t0 + 4 * IZR j) ->
  0 < xtsstep ->
  let its := sun_angle_index xts xtsstep xtsmin in
  let xmts := (xts - tts its) * 0.25 in
  (xtsmin < xts ->
   its = Zfloor ((xts - xtsmin) / xtsstep) /\
   (0 <= xmts < 1 <->
    Zfloor ((xts - xtsmin) / xtsstep) = Zfloor ((xts - t0) / 4))) /\
  (xts <= xtsmin ->
   its = 0%Z /\ (0 <= xmts < 1 <-> t0 <= xts < t0 + 4)) /\
  (forall (ip1 ip2 iaot1 iaot2 iband : Z) (raot550nm pres xtts : R)
          (tpres aot550nm transt g : farray),
      (its <= 19)%Z ->
      (forall ip iaot j : Z,
          transt (iband * NPRES_VALS * NAOTxNSUNANGLE_VALS +
                  ip * NAOTxNSUNANGLE_VALS + iaot * NSUNANGLE_VALS + j)%Z =
          g j) ->
      comptrans ip1 ip2 iaot1 iaot2 xts raot550nm iband pres tpres aot550nm
        transt xtsstep xtsmin tts xtts =
      g its + (g (its + 1)%Z - g its) * xmts).
Proof.
  intros Htts Hstep. cbn zeta.
  assert (Hweight : forall i : Z,
    0 <= (xts - tts i) * 0.25 < 1 <-> i = Zfloor ((xts - t0) / 4)).
  { intros i. rewrite Htts.
    pose proof (Zfloor_bound ((xts - t0) / 4)) as Hfloor.
    split.
    - intros Hw. symmetry. apply Zfloor_eq. lra.
    - intros Heq. rewrite Heq. lra. }
  split; [| split].
  - intros Habove.
    assert (Hidx : sun_angle_index xts xtsstep xtsmin =
                   Zfloor ((xts - xtsmin) / xtsstep)).
    { unfold sun_angle_index.
      destruct (Rle_dec xts xtsmin) as [Hle | _]; [exfalso; lra |].
      apply int_of_float_nonneg. apply Rlt_le.
      apply Rdiv_lt_0_compat; lra. }
    split; [exact Hidx |]. rewrite Hidx. apply Hweight.
  - intros Hlow. rewrite sun_angle_index_low by exact Hlow.
    split; [reflexivity |]. rewrite Htts. simpl. split; intros H; lra.
  - intros ip1 ip2 iaot1 iaot2 iband raot550nm pres xtts tpres aot550nm
           transt g Hdom Htab.
    unfold comptrans. cbn zeta.
    destruct (Z.gtb_spec (sun_angle_index xts xtsstep xtsmin) 19)
      as [Hbig | _]; [lia |].
    set (its := sun_angle_index xts xtsstep xtsmin) in *.
    assert (Hnext : forall ip iaot : Z,
      transt (iband * NPRES_VALS * NAOTxNSUNANGLE_VALS +
              ip * NAOTxNSUNANGLE_VALS + iaot * NSUNANGLE_VALS + its + 1)%Z =
      g (its + 1)%Z).
    { intros ip iaot. rewrite <- Z.add_assoc. apply Htab. }
    rewrite !Hnext, !Htab. ring.
Qed.

(** ** The nadir view *)

(** With a cosine of 1 the azimuth-dependent terms of the Rayleigh
    reflectance vanish. *)
Lemma local_chand_nadir {hdr : lut_header} (xphi xphi' xmus xtau : R) :
  local_chand xphi 1 xmus xtau = local_chand xphi' 1 xmus xtau.
Proof.
  unfold local_chand. cbn zeta.
  replace (1.0 - 1 * 1) with 0 by lra.
  rewrite Rmult_0_r, sqrt_0. ring.
Qed.

(** In the first row of the view angle table the two corners of the row are
    read without interpolation over the scattering angle, and with the
    weight [u = 1] the other row does not enter. *)
Lemma interp_refl_first_view_row (its : Z) (xtsmax xtsmin : farray)
    (scaa scaa' : R) (nbfic nbfi : farray) (indts : iarray) (rolutt : farray)
    (rolutt_indx : Z) (t : R) :
  interp_refl_using_scat_angle its 0 xtsmax xtsmin scaa nbfic nbfi indts
    rolutt rolutt_indx t 1 =
  interp_refl_using_scat_angle its 0 xtsmax xtsmin scaa' nbfic nbfi indts
    rolutt rolutt_indx t 1.
Proof.
  unfold interp_refl_using_scat_angle. cbv beta zeta.
  match goal with
  | |- ?a3 + 1 * (?a1 - ?a3) + t * (?a2 - ?a3) +
       1 * t * (?a0 - ?a1 - ?a2 + ?a3) =
       ?b3 + 1 * (?b1 - ?b3) + t * (?b2 - ?b3) +
       1 * t * (?b0 - ?b1 - ?b2 + ?b3) =>
      transitivity (a1 + t * (a0 - a1)); [ring |];
      transitivity (b1 + t * (b0 - b1)); [| ring]
  end.
  cbn [Z.ltb Z.compare Z.eqb negb]. rewrite !andb_false_r. reflexivity.
Qed.

Lemma comproatm_first_view_row {hdr : lut_header} (ip1 ip2 iaot1 iaot2 : Z)
    (xts xtv xmus xmuv cosxfi cosxfi' raot550nm : R) (iband : Z) (pres : R)
    (tpres aot550nm rolutt tsmax tsmin nbfic nbfi tts : farray)
    (indts : iarray) (ttv : farray) (xtsstep xtvstep xtvmin : R) (its : Z) :
  ttv (0 * NSOLAR_ZEN_VALS + its)%Z = xtv ->
  ttv (0 * NSOLAR_ZEN_VALS + its + NSOLAR_ZEN_VALS)%Z <> xtv ->
  comproatm ip1 ip2 iaot1 iaot2 xts xtv xmus xmuv cosxfi raot550nm iband pres
    tpres aot550nm rolutt tsmax tsmin nbfic nbfi tts indts ttv xtsstep
    xtvstep xtvmin its 0 =
  comproatm ip1 ip2 iaot1 iaot2 xts xtv xmus xmuv cosxfi' raot550nm iband pres
    tpres aot550nm rolutt tsmax tsmin nbfic nbfi tts indts ttv xtsstep
    xtvstep xtvmin its 0.
Proof.
  intros Hrow Hnext. unfold comproatm. cbn zeta.
  assert (Hu : (ttv (0 * NSOLAR_ZEN_VALS + its + NSOLAR_ZEN_VALS)%Z - xtv) /
               (ttv (0 * NSOLAR_ZEN_VALS + its + NSOLAR_ZEN_VALS)%Z -
                ttv (0 * NSOLAR_ZEN_VALS + its)%Z) = 1).
  { rewrite Hrow. field. lra. }
  rewrite Hu.
  set (scaa := acos (- xmus * xmuv -
                     cosxfi * sqrt (1.0 - xmus * xmus) *
                     sqrt (1.0 - xmuv * xmuv)) * RAD2DEG).
  set (scaa' := acos (- xmus * xmuv -
                      cosxfi' * sqrt (1.0 - xmus * xmus) *
                      sqrt (1.0 - xmuv * xmuv)) * RAD2DEG).
  rewrite !(interp_refl_first_view_row its _ _ scaa scaa').
  reflexivity.
Qed.

(** X18.  The nadir view does not see the azimuth.  When the view zenith
    angle is not above [xtvmin] (index 0 in the view angle table), equals
    the table's angle of that row, and its cosine is 1, [atmcorlamb2]
    returns the same status and the same six outputs whatever the relative
    azimuth [xfi] and its cosine [cosxfi] are: the first view row is read
    without interpolation over the scattering angle, and the
    azimuth-dependent terms of the Rayleigh reflectance vanish. *)
Theorem atmcorlamb2_nadir_view_ignores_azimuth {hdr : lut_header}
    (sat : Sat_t) (xts xtv xmus xfi cosxfi xfi' cosxfi' raot550nm : R)
    (iband : Z) (pres : R) (tpres aot550nm rolutt transt : farray)
    (xtsstep xtsmin xtvstep xtvmin : R)
    (sphalbt normext tsmax tsmin nbfic nbfi tts : farray) (indts : iarray)
    (ttv : farray) (uoz uwv : R)
    (tauray ogtransa1 ogtransb0 ogtransb1 wvtransa wvtransb oztransa : farray)
    (rotoa eps xtts xttv : R) :
  let its := sun_angle_index xts xtsstep xtsmin in
  xtv <= xtvmin ->
  ttv (0 * NSOLAR_ZEN_VALS + its)%Z = xtv ->
  ttv (0 * NSOLAR_ZEN_VALS + its + NSOLAR_ZEN_VALS)%Z <> xtv ->
  atmcorlamb2 sat xts xtv xmus 1 xfi cosxfi raot550nm iband pres tpres
    aot550nm rolutt transt xtsstep xtsmin xtvstep xtvmin sphalbt normext
    tsmax tsmin nbfic nbfi tts indts ttv uoz uwv tauray ogtransa1 ogtransb0
    ogtransb1 wvtransa wvtransb oztransa rotoa eps xtts xttv =
  atmcorlamb2 sat xts xtv xmus 1 xfi' cosxfi' raot550nm iband pres tpres
    aot550nm rolutt transt xtsstep xtsmin xtvstep xtvmin sphalbt normext
    tsmax tsmin nbfic nbfi tts indts ttv uoz uwv tauray ogtransa1 ogtransb0
    ogtransb1 wvtransa wvtransb oztransa rotoa eps xtts xttv.
Proof.
  intros its Hlow Hrow Hnext. unfold atmcorlamb2. cbn zeta.
  assert (Hitv : atmcorlamb2_itv xtv xtvstep xtvmin = 0%Z).
  { unfold atmcorlamb2_itv.
    destruct (Rle_dec xtv xtvmin); [reflexivity | contradiction]. }
  rewrite Hitv. fold its.
  rewrite (comproatm_first_view_row _ _ _ _ xts xtv xmus 1 cosxfi cosxfi')
    by assumption.
  rewrite (local_chand_nadir xfi xfi').
  reflexivity.
Qed.

(** ** Concrete instances *)

Lemma poly_fit_constant (v m : R) : poly_fit (of_list [0; 0; 0; v]) m = v.
Proof.
  unfold poly_fit.
  cbv [of_list nth Z.to_nat Pos.to_nat Pos.iter_op Nat.add]. ring.
Qed.

(** The sample call over a transparent, non-reflecting atmosphere: unit
    transmission table, zero reflectance and albedo tables. *)
Lemma sample_clear_sky_call (rotoa : R) :
  exists o : atm_out,
    sample_call 0 0 0.07 1013 rotoa (-1) zero_table unit_table zero_table 0 0 =
    Success o /\
    0 < out_ttatmg o /\ out_satm o = 0 /\ 0 < out_tgo o.
Proof.
  unfold sample_call.
  destruct (atmcorlamb2_cases (hdr := lasrc_header) SAT_LANDSAT_8 0 0 1 1 0 1
              0.07 0%Z 1013 tpres_grid aot550nm_grid zero_table unit_table
              4 0 4 0 zero_table unit_table unit_table zero_table unit_table
              unit_table tts_grid zero_index tts_grid 1 1 unit_table
              unit_table unit_table unit_table unit_table unit_table
              unit_table rotoa (-1) 0 0) as [[Hidx _] | [_ Hok]].
  { rewrite sun_angle_index_low in Hidx by lra. discriminate. }
  pose proof (comptg_positive 0 1 1 1 1
                (1013 * @ONE_DIV_ATMOS_PRES_0 lasrc_header)
                unit_table unit_table unit_table unit_table unit_table
                unit_table) as Hpos.
  destruct (comptg _ _ _ _ _ _ _ _ _ _ _ _) as [[[tgoz tgwv] tgwvhalf] tgog].
  cbn zeta in Hok. destruct Hpos as (Hoz & Hwv & _ & Hog).
  eexists. split; [exact Hok |]. cbn.
  rewrite !comptrans_unit_table by (rewrite sun_angle_index_low; [lia | lra]).
  rewrite compsalb_zero_table.
  split; [lra |]. split; [reflexivity |].
  apply Rmult_lt_0_compat; assumption.
Qed.

(** The round trip on the sample call over a transparent atmosphere. *)
Lemma atmcorlamb2_round_trip_witness :
  exists o : atm_out,
    sample_call 0 0 0.07 1013 0.2 (-1) zero_table unit_table zero_table 0 0 =
    Success o /\
    out_ttatmg o <> 0 /\
    (out_ttatmg o + out_satm o * (0.2 / out_tgo o - out_roatm o) <> 0 ->
     lambertian_toa (out_tgo o) (out_roatm o) (out_ttatmg o) (out_satm o)
       (out_roslamb o) = 0.2) /\
    (forall ros : R,
       1 - out_satm o * ros <> 0 ->
       sample_call 0 0 0.07 1013
         (lambertian_toa (out_tgo o) (out_roatm o) (out_ttatmg o)
            (out_satm o) ros)
         (-1) zero_table unit_table zero_table 0 0 =
       Success {| out_roslamb := ros; out_tgo := out_tgo o;
                  out_roatm := out_roatm o; out_ttatmg := out_ttatmg o;
                  out_satm := out_satm o; out_xrorayp := out_xrorayp o |}).
Proof.
  destruct (sample_clear_sky_call 0.2) as (o & Ho & Htt & _ & _).
  assert (Hne : out_ttatmg o <> 0) by lra.
  exists o. split; [exact Ho |]. split; [exact Hne |].
  exact (atmcorlamb2_round_trip (hdr := lasrc_header) SAT_LANDSAT_8 0 0 1 1 0
           1 0.07 0%Z 1013 tpres_grid aot550nm_grid zero_table unit_table
           4 0 4 0 zero_table unit_table unit_table zero_table unit_table
           unit_table tts_grid zero_index tts_grid 1 1 unit_table unit_table
           unit_table unit_table unit_table unit_table unit_table (-1) 0 0
           0.2 o Ho Hne).
Defined.

Lemma atmcorlamb2_atmosphere_independent_of_rotoa_witness :
  exists o : atm_out,
    sample_call 0 0 0.07 1013 0.2 (-1) zero_table unit_table zero_table 0 0 =
    Success o /\
    0 < out_tgo o /\
    exists o' : atm_out,
      sample_call 0 0 0.07 1013 0.5 (-1) zero_table unit_table zero_table 0 0 =
      Success o' /\
      out_tgo o' = out_tgo o /\ out_roatm o' = out_roatm o /\
      out_ttatmg o' = out_ttatmg o /\ out_satm o' = out_satm o /\
      out_xrorayp o' = out_xrorayp o.
Proof.
  destruct (sample_clear_sky_call 0.2) as (o & Ho & _).
  exists o. split; [exact Ho |].
  exact (atmcorlamb2_atmosphere_independent_of_rotoa (hdr := lasrc_header)
           SAT_LANDSAT_8 0 0 1 1 0
           1 0.07 0%Z 1013 tpres_grid aot550nm_grid zero_table unit_table
           4 0 4 0 zero_table unit_table unit_table zero_table unit_table
           unit_table tts_grid zero_index tts_grid 1 1 unit_table unit_table
           unit_table unit_table unit_table unit_table unit_table (-1) 0 0
           0.2 0.5 o Ho).
Defined.

(** The coefficient-fit solver on constant fits that hold the outputs of
    the sample call. *)
Lemma atmcorlamb2_new_agrees_with_atmcorlamb2_witness :
  exists o : atm_out,
    sample_call 0 0 0.07 1013 0.2 (-1) zero_table unit_table zero_table 0 0 =
    Success o /\
    out_ttatmg o + out_satm o * (0.2 / out_tgo o - out_roatm o) <> 0 /\
    atmcorlamb2_new (hdr := lasrc_header) SAT_LANDSAT_8 (out_tgo o) 5
      (of_list [0; 0; 0; out_roatm o]) (of_list [0; 0; 0; out_ttatmg o])
      (of_list [0; 0; 0; out_satm o]) 0.07 0%Z 1 0.2 (-1) = out_roslamb o.
Proof.
  destruct (sample_clear_sky_call 0.2) as (o & Ho & Htt & Hsa & _).
  assert (Hdiv : out_ttatmg o +
                 out_satm o * (0.2 / out_tgo o - out_roatm o) <> 0).
  { rewrite Hsa. lra. }
  exists o. split; [exact Ho |]. split; [exact Hdiv |].
  exact (atmcorlamb2_new_agrees_with_atmcorlamb2 (hdr := lasrc_header)
           SAT_LANDSAT_8 0 0 1 1 0
           1 0.07 0%Z 1013 tpres_grid aot550nm_grid zero_table unit_table
           4 0 4 0 zero_table unit_table unit_table zero_table unit_table
           unit_table tts_grid zero_index tts_grid 1 1 unit_table unit_table
           unit_table unit_table unit_table unit_table unit_table (-1) 0 0
           0.2 o SAT_LANDSAT_8 5
           (of_list [0; 0; 0; out_roatm o]) (of_list [0; 0; 0; out_ttatmg o])
           (of_list [0; 0; 0; out_satm o]) 0.07 0%Z 1 (-1) Ho
           (poly_fit_constant _ _) (poly_fit_constant _ _)
           (poly_fit_constant _ _) Hdiv).
Defined.

Lemma atmcorlamb2_new_round_trip_witness :
  1 <> 0 /\
  poly_fit (of_list [0; 0; 0; 0.8])
    (atmcorlamb2_new_mraot550nm (hdr := lasrc_header) SAT_LANDSAT_8 5 0.07 0%Z
       1 (-1)) <> 0 /\
  atmcorlamb2_new (hdr := lasrc_header) SAT_LANDSAT_8 1 5
    (of_list [0; 0; 0; 0.1]) (of_list [0; 0; 0; 0.8]) (of_list [0; 0; 0; 0.2])
    0.07 0%Z 1 (lambertian_toa 1 0.1 0.8 0.2 0.3) (-1) = 0.3.
Proof.
  assert (H1 : 1 <> 0) by lra.
  assert (H2 : poly_fit (of_list [0; 0; 0; 0.8])
                 (atmcorlamb2_new_mraot550nm (hdr := lasrc_header)
                    SAT_LANDSAT_8 5 0.07 0%Z 1 (-1)) <> 0).
  { rewrite poly_fit_constant. lra. }
  split; [exact H1 |]. split; [exact H2 |].
  pose proof (proj1 (atmcorlamb2_new_round_trip (hdr := lasrc_header)
                       SAT_LANDSAT_8 1 5 (of_list [0; 0; 0; 0.1])
                       (of_list [0; 0; 0; 0.8]) (of_list [0; 0; 0; 0.2])
                       0.07 0%Z 1 (-1) H1 H2) 0.3) as Htrip.
  rewrite !poly_fit_constant in Htrip. apply Htrip. lra.
Defined.

Lemma atmcorlamb2_monotone_in_rotoa_witness :
  exists o1 o2 : atm_out,
    sample_call 0 0 0.07 1013 0.2 (-1) zero_table unit_table zero_table 0 0 =
    Success o1 /\
    sample_call 0 0 0.07 1013 0.5 (-1) zero_table unit_table zero_table 0 0 =
    Success o2 /\
    0 < out_ttatmg o1 /\
    out_roslamb o1 < out_roslamb o2.
Proof.
  destruct (sample_clear_sky_call 0.2) as (o1 & Ho1 & Htt & Hsa & _).
  destruct (sample_clear_sky_call 0.5) as (o2 & Ho2 & _).
  exists o1, o2. split; [exact Ho1 |]. split; [exact Ho2 |].
  split; [exact Htt |].
  assert (Hd1 : 0 < out_ttatmg o1 +
                    out_satm o1 * (0.2 / out_tgo o1 - out_roatm o1))
    by (rewrite Hsa; lra).
  assert (Hd2 : 0 < out_ttatmg o1 +
                    out_satm o1 * (0.5 / out_tgo o1 - out_roatm o1))
    by (rewrite Hsa; lra).
  apply (proj1 (atmcorlamb2_monotone_in_rotoa (hdr := lasrc_header)
           SAT_LANDSAT_8 0 0 1 1 0
           1 0.07 0%Z 1013 tpres_grid aot550nm_grid zero_table unit_table
           4 0 4 0 zero_table unit_table unit_table zero_table unit_table
           unit_table tts_grid zero_index tts_grid 1 1 unit_table unit_table
           unit_table unit_table unit_table unit_table unit_table (-1) 0 0
           0.2 0.5 o1 o2 Ho1 Ho2 Htt Hd1 Hd2)).
  lra.
Defined.

Lemma comptg_transmittances_witness :
  0 < 1 /\ 0 <= 1 /\ of_list [- 0.1] 0%Z <= 0 /\ 0 <= unit_table 0%Z /\
  let '(tgoz, tgwv, tgwvhalf, tgog) :=
    comptg 0 1 1 1 1 1 unit_table unit_table unit_table unit_table unit_table
      (of_list [- 0.1]) in
  0 < tgoz <= 1 /\ 0 < tgwv <= tgwvhalf /\ tgwvhalf <= 1 /\ 0 < tgog <= 1.
Proof.
  assert (H1 : 0 < 1) by lra.
  assert (H2 : 0 <= 1) by lra.
  assert (H3 : of_list [- 0.1] 0%Z <= 0)
    by (cbv [of_list nth Z.to_nat]; lra).
  assert (H4 : 0 <= unit_table 0%Z) by (unfold unit_table; lra).
  split; [exact H1 |]. split; [exact H2 |]. split; [exact H3 |].
  split; [exact H4 |].
  exact (comptg_transmittances 0 1 1 1 1 1 unit_table unit_table unit_table
           unit_table unit_table (of_list [- 0.1]) H1 H1 H2 H2 H3 H4 H4 H4).
Defined.

Lemma ascending_from_adjacent (a : farray) (n : Z) :
  (forall i : Z, (0 <= i < n)%Z -> a i < a (i + 1)%Z) ->
  forall i j : Z, (0 <= i < j)%Z -> (j <= n)%Z -> a i < a j.
Proof.
  intros Hadj i j Hij Hj.
  assert (Hd : forall d : nat,
            (i + 1 + Z.of_nat d <= n)%Z -> a i < a (i + 1 + Z.of_nat d)%Z).
  { induction d as [| d IH]; intros Hd.
    - replace (i + 1 + Z.of_nat 0)%Z with (i + 1)%Z by lia.
      apply Hadj. lia.
    - apply Rlt_trans with (a (i + 1 + Z.of_nat d)%Z); [apply IH; lia |].
      replace (i + 1 + Z.of_nat (S d))%Z with (i + 1 + Z.of_nat d + 1)%Z
        by lia.
      apply Hadj. lia. }
  replace j with (i + 1 + Z.of_nat (Z.to_nat (j - i - 1)))%Z by lia.
  apply Hd. lia.
Qed.

Lemma aot550nm_grid_ascending :
  forall i j : Z, (0 <= i < j)%Z -> (j <= 21)%Z ->
                  aot550nm_grid i < aot550nm_grid j.
Proof.
  apply ascending_from_adjacent. intros i Hi.
  assert (Hcases : i = 0%Z \/ i = 1%Z \/ i = 2%Z \/ i = 3%Z \/ i = 4%Z \/
                   i = 5%Z \/ i = 6%Z \/ i = 7%Z \/ i = 8%Z \/ i = 9%Z \/
                   i = 10%Z \/ i = 11%Z \/ i = 12%Z \/ i = 13%Z \/
                   i = 14%Z \/ i = 15%Z \/ i = 16%Z \/ i = 17%Z \/
                   i = 18%Z \/ i = 19%Z \/ i = 20%Z) by lia.
  repeat (destruct Hcases as [Hcases | Hcases];
          [subst i; eval_tables; lra |]).
  subst i. eval_tables. lra.
Qed.

Lemma lasrc_pressure_levels : (2 <= @NPRES_VALS lasrc_header)%Z.
Proof. cbn. lia. Qed.

(** A pressure of 950 mb between the levels 1013 and 900. *)
Lemma atmcorlamb2_ip1_bracket_witness :
  (2 <= @NPRES_VALS lasrc_header)%Z /\
  (forall i j : Z,
      (0 <= i < j)%Z -> (j <= @NPRES_VALS lasrc_header - 1)%Z ->
      tpres_grid j < tpres_grid i) /\
  let ip1 := atmcorlamb2_ip1 (hdr := lasrc_header) 950 tpres_grid in
  let dpres :=
    (950 - tpres_grid ip1) / (tpres_grid (ip1 + 1)%Z - tpres_grid ip1) in
  (0 <= ip1 <= @NPRES_VALS lasrc_header - 2)%Z /\
  (tpres_grid (@NPRES_VALS lasrc_header - 1)%Z <= 950 < tpres_grid 0%Z ->
   tpres_grid (ip1 + 1)%Z <= 950 < tpres_grid ip1 /\ 0 < dpres <= 1) /\
  (tpres_grid 0%Z <= 950 -> ip1 = 0%Z /\ dpres <= 0) /\
  (950 < tpres_grid (@NPRES_VALS lasrc_header - 1)%Z ->
   ip1 = (@NPRES_VALS lasrc_header - 2)%Z /\ 1 < dpres).
Proof.
  split; [exact lasrc_pressure_levels |].
  split; [exact tpres_grid_descending |].
  exact (atmcorlamb2_ip1_bracket (hdr := lasrc_header) tpres_grid 950
           lasrc_pressure_levels tpres_grid_descending).
Defined.

(** An AOT of 0.07 between the entries 0.05 and 0.10. *)
Lemma atmcorlamb2_iaot1_encloses_witness :
  (forall i j : Z, (0 <= i < j)%Z -> (j <= 21)%Z ->
                   aot550nm_grid i < aot550nm_grid j) /\
  let iaot1 := atmcorlamb2_iaot1 0.07 aot550nm_grid in
  let deltaaot :=
    (0.07 - aot550nm_grid iaot1) /
    (aot550nm_grid (iaot1 + 1)%Z - aot550nm_grid iaot1) in
  (aot550nm_grid 0%Z < 0.07 <= aot550nm_grid 21%Z ->
   aot550nm_grid iaot1 < 0.07 <= aot550nm_grid (iaot1 + 1)%Z /\
   0 < deltaaot <= 1) /\
  (0.07 <= aot550nm_grid 0%Z -> iaot1 = 0%Z /\ deltaaot <= 0) /\
  (aot550nm_grid 21%Z < 0.07 -> iaot1 = 20%Z /\ 1 < deltaaot).
Proof.
  split; [exact aot550nm_grid_ascending |].
  exact (atmcorlamb2_iaot1_encloses aot550nm_grid 0.07
           aot550nm_grid_ascending).
Defined.

Lemma tts_grid_regular : forall j : Z, tts_grid j = 0 + 4 * IZR j.
Proof. reflexivity. Qed.

(** A sun zenith angle of 30 degrees on the table of 4 degree steps. *)
Lemma sun_angle_index_regular_table_witness :
  0 < 4 /\
  (forall j : Z, tts_grid j = 0 + 4 * IZR j) /\
  let its := sun_angle_index 30 4 0 in
  (0 <= its)%Z /\
  ((its <= 19)%Z <-> 30 < 0 + 20 * 4) /\
  (0 <= 30 ->
   tts_grid its <= 30 < tts_grid (its + 1)%Z /\
   0 <= (30 - tts_grid its) * 0.25 < 4 * 0.25 /\
   0 < (tts_grid (its + 1)%Z - 30) /
       (tts_grid (its + 1)%Z - tts_grid its) <= 1) /\
  (30 < 0 -> its = 0%Z /\ (30 - tts_grid its) * 0.25 < 0).
Proof.
  assert (Hstep : 0 < 4) by lra.
  split; [exact Hstep |]. split; [exact tts_grid_regular |].
  exact (sun_angle_index_regular_table 30 4 0 tts_grid Hstep tts_grid_regular).
Defined.

Lemma lasrc_pressure_node : (0 <= 3 <= @NPRES_VALS lasrc_header - 1)%Z.
Proof. cbn. lia. Qed.

Lemma lasrc_aot_node : (0 <= 5 <= 21)%Z.
Proof. lia. Qed.

(** The node of the pressure 800 mb and the AOT 0.30. *)
Lemma composers_reproduce_table_nodes_witness :
  (2 <= @NPRES_VALS lasrc_header)%Z /\
  (0 <= 3 <= @NPRES_VALS lasrc_header - 1)%Z /\ (0 <= 5 <= 21)%Z /\
  let ip1 :=
    atmcorlamb2_ip1 (hdr := lasrc_header) (tpres_grid 3%Z) tpres_grid in
  let iaot1 := atmcorlamb2_iaot1 (aot550nm_grid 5%Z) aot550nm_grid in
  (0 <= ip1 /\ ip1 + 1 <= @NPRES_VALS lasrc_header - 1)%Z /\
  (0 <= iaot1 /\ iaot1 + 1 <= 21)%Z /\
  (forall (iband : Z) (sphalbt normext : farray),
     compsalb (hdr := lasrc_header) ip1 (ip1 + 1) iaot1 (iaot1 + 1)
       (aot550nm_grid 5%Z) iband (tpres_grid 3%Z) tpres_grid aot550nm_grid
       sphalbt normext =
     sphalbt (iband * @NPRES_VALS lasrc_header * @NAOT_VALS lasrc_header +
              3 * @NAOT_VALS lasrc_header + 5)%Z) /\
  (forall (iband i : Z) (transt tts : farray) (xtsstep xtsmin xtts : R),
     0 < xtsstep -> (0 <= i <= 19)%Z ->
     (forall n : Z, tts n = xtsmin + xtsstep * IZR n) ->
     comptrans (hdr := lasrc_header) ip1 (ip1 + 1) iaot1 (iaot1 + 1) (tts i)
       (aot550nm_grid 5%Z) iband (tpres_grid 3%Z) tpres_grid aot550nm_grid
       transt xtsstep xtsmin tts xtts =
     transt (iband * @NPRES_VALS lasrc_header *
               @NAOTxNSUNANGLE_VALS lasrc_header +
             3 * @NAOTxNSUNANGLE_VALS lasrc_header +
             5 * @NSUNANGLE_VALS lasrc_header + i)%Z).
Proof.
  split; [exact lasrc_pressure_levels |].
  split; [exact lasrc_pressure_node |]. split; [exact lasrc_aot_node |].
  exact (composers_reproduce_table_nodes (hdr := lasrc_header) tpres_grid
           aot550nm_grid 3 5 lasrc_pressure_levels tpres_grid_descending
           aot550nm_grid_ascending lasrc_pressure_node lasrc_aot_node).
Defined.

Lemma sample_pressure_inside :
  tpres_grid (@NPRES_VALS lasrc_header - 1)%Z <= 950 < tpres_grid 0%Z.
Proof. cbn [NPRES_VALS lasrc_header]. eval_tables. lra. Qed.

Lemma sample_aot_inside : aot550nm_grid 0%Z < 0.07 <= aot550nm_grid 21%Z.
Proof. eval_tables. lra. Qed.

(** The pressure 950 mb and the AOT 0.07, with tables between 0 and 1. *)
Lemma composers_within_table_bounds_witness :
  (2 <= @NPRES_VALS lasrc_header)%Z /\
  tpres_grid (@NPRES_VALS lasrc_header - 1)%Z <= 950 < tpres_grid 0%Z /\
  aot550nm_grid 0%Z < 0.07 <= aot550nm_grid 21%Z /\
  let ip1 := atmcorlamb2_ip1 (hdr := lasrc_header) 950 tpres_grid in
  let iaot1 := atmcorlamb2_iaot1 0.07 aot550nm_grid in
  (forall (iband : Z) (sphalbt normext : farray),
     (forall i : Z, 0 <= sphalbt i <= 1) ->
     0 <= compsalb (hdr := lasrc_header) ip1 (ip1 + 1) iaot1 (iaot1 + 1) 0.07
            iband 950 tpres_grid aot550nm_grid sphalbt normext <= 1) /\
  (forall (iband : Z) (transt tts : farray) (xts xtsmin xtts : R),
     (forall i : Z, 0 <= transt i <= 1) ->
     (forall n : Z, tts n = xtsmin + 4 * IZR n) ->
     xtsmin <= xts < xtsmin + 20 * 4 ->
     0 <= comptrans (hdr := lasrc_header) ip1 (ip1 + 1) iaot1 (iaot1 + 1) xts
            0.07 iband 950 tpres_grid aot550nm_grid transt 4 xtsmin tts xtts
       <= 1).
Proof.
  split; [exact lasrc_pressure_levels |].
  split; [exact sample_pressure_inside |].
  split; [exact sample_aot_inside |].
  exact (composers_within_table_bounds (hdr := lasrc_header) tpres_grid
           aot550nm_grid 950 0.07 0 1 lasrc_pressure_levels
           tpres_grid_descending aot550nm_grid_ascending
           sample_pressure_inside sample_aot_inside).
Defined.

Lemma lasrc_product :
  @NAOTxNSOLAR_VALS lasrc_header =
  (@NAOT_VALS lasrc_header * @NSOLAR_VALS lasrc_header)%Z.
Proof. reflexivity. Qed.

Lemma lasrc_sizes :
  (0 <= @NPRES_VALS lasrc_header)%Z /\ (0 <= @NAOT_VALS lasrc_header)%Z /\
  (0 <= @NSOLAR_VALS lasrc_header)%Z.
Proof. cbn. lia. Qed.

Lemma lasrc_band_order :
  (0 <= @SBAND9 lasrc_bands < @SBAND10 lasrc_bands)%Z.
Proof. cbn. lia. Qed.

(** The flip of band 2 with the table sizes of the concrete header. *)
Lemma readluts_flip_layout_witness :
  @NAOTxNSOLAR_VALS lasrc_header =
    (@NAOT_VALS lasrc_header * @NSOLAR_VALS lasrc_header)%Z /\
  ((0 <= @NPRES_VALS lasrc_header)%Z /\ (0 <= @NAOT_VALS lasrc_header)%Z /\
   (0 <= @NSOLAR_VALS lasrc_header)%Z) /\
  let flipped := readluts_flip (hdr := lasrc_header) 2 unit_table zero_table in
  (forall ipres itau ival : Z,
      (0 <= ipres < 7)%Z -> (0 <= itau < 22)%Z -> (0 <= ival < 8000)%Z ->
      flipped (2 * 7 * (22 * 8000) + ipres * (22 * 8000) + itau * 8000 +
               ival)%Z =
      unit_table (ival * (22 * 7) + itau * 7 + ipres)%Z) /\
  (forall x : Z,
      ~ (2 * 7 * (22 * 8000) <= x < (2 + 1) * 7 * (22 * 8000))%Z ->
      flipped x = zero_table x).
Proof.
  split; [exact lasrc_product |]. split; [exact lasrc_sizes |].
  exact (readluts_flip_layout (hdr := lasrc_header) lasrc_product
           (proj1 lasrc_sizes) (proj1 (proj2 lasrc_sizes))
           (proj2 (proj2 lasrc_sizes)) 2 unit_table zero_table).
Defined.

(** The Sentinel-2 file of 13 bands, every band of which can be read: the
    band 12 of the file is found in the block 10, and 11 blocks are
    written. *)
Lemma readluts_rolutt_bands_layout_witness :
  @NAOTxNSOLAR_VALS lasrc_header =
    (@NAOT_VALS lasrc_header * @NSOLAR_VALS lasrc_header)%Z /\
  ((0 <= @NPRES_VALS lasrc_header)%Z /\ (0 <= @NAOT_VALS lasrc_header)%Z /\
   (0 <= @NSOLAR_VALS lasrc_header)%Z) /\
  (0 <= @SBAND9 lasrc_bands < @SBAND10 lasrc_bands)%Z /\
  exists rolutt' : farray,
    readluts_rolutt_bands (hdr := lasrc_header) (bands := lasrc_bands)
      SAT_SENTINEL_2 (fun _ => Success unit_table) zero_table =
    Success rolutt' /\
    (forall ipres itau ival : Z,
        (0 <= ipres < 7)%Z -> (0 <= itau < 22)%Z -> (0 <= ival < 8000)%Z ->
        rolutt' (10 * 7 * (22 * 8000) + ipres * (22 * 8000) + itau * 8000 +
                 ival)%Z =
        unit_table (ival * (22 * 7) + itau * 7 + ipres)%Z) /\
    (forall x : Z,
        ~ (0 <= x < 11 * (7 * (22 * 8000)))%Z -> rolutt' x = zero_table x).
Proof.
  split; [exact lasrc_product |]. split; [exact lasrc_sizes |].
  split; [exact lasrc_band_order |].
  assert (Hread : forall b : Z,
    (0 <= b < @readluts_nsr_bands lasrc_bands SAT_SENTINEL_2)%Z ->
    ((b =? @SBAND9 lasrc_bands)%Z || (b =? @SBAND10 lasrc_bands)%Z) = false ->
    exists rolut : farray,
      (fun _ : Z => Success unit_table) b = Success rolut).
  { intros b _ _. exists unit_table. reflexivity. }
  destruct (proj1 (readluts_rolutt_bands_layout (hdr := lasrc_header)
                     (bands := lasrc_bands) lasrc_product (proj1 lasrc_sizes)
                     (proj1 (proj2 lasrc_sizes)) (proj2 (proj2 lasrc_sizes))
                     lasrc_band_order SAT_SENTINEL_2
                     (fun _ => Success unit_table) zero_table) Hread)
    as (rolutt' & Hrun & Hcells & Hframe).
  exists rolutt'. split; [exact Hrun |]. split.
  - intros ipres itau ival Hp Ha Hs.
    assert (Hb : (0 <= 12 < @readluts_nsr_bands lasrc_bands SAT_SENTINEL_2)%Z)
      by (cbn; lia).
    exact (Hcells 12%Z unit_table ipres itau ival Hb eq_refl eq_refl Hp Ha Hs).
  - exact Hframe.
Defined.

(** A view zenith angle of 6.5 degrees indexed with a step of 3.68 degrees
    from 2.84 degrees on the sun angle table of 4 degree steps from 0: the
    index is 0 while the angle lies between the entries 1 and 2, and the
    weight is 1.625. *)
Lemma comptrans_weight_interpolates_iff_witness :
  (forall j : Z, tts_grid j = 0 + 4 * IZR j) /\
  0 < 3.68 /\
  2.84 < 6.5 /\
  sun_angle_index 6.5 3.68 2.84 = Zfloor ((6.5 - 2.84) / 3.68) /\
  ~ 0 <= (6.5 - tts_grid (sun_angle_index 6.5 3.68 2.84)) * 0.25 < 1.
Proof.
  assert (Hstep : 0 < 3.68) by lra.
  assert (Habove : 2.84 < 6.5) by lra.
  destruct (proj1 (comptrans_weight_interpolates_iff (hdr := lasrc_header)
                     6.5 3.68 2.84 0 tts_grid tts_grid_regular Hstep) Habove)
    as [Hidx Hiff].
  split; [exact tts_grid_regular |]. split; [exact Hstep |].
  split; [exact Habove |]. split; [exact Hidx |].
  intros Hw. apply (proj1 Hiff) in Hw.
  assert (Hlo : Zfloor ((6.5 - 2.84) / 3.68) = 0%Z).
  { apply Zfloor_eq. simpl. split.
    - apply Rlt_le. apply Rdiv_lt_0_compat; lra.
    - apply Rmult_lt_reg_r with 3.68; [lra |].
      replace ((6.5 - 2.84) / 3.68 * 3.68) with (6.5 - 2.84) by (field; lra).
      lra. }
  assert (Hhi : Zfloor ((6.5 - 0) / 4) = 1%Z).
  { apply Zfloor_eq. simpl. lra. }
  rewrite Hlo, Hhi in Hw. discriminate.
Defined.

(** The sample call looks straight down: the view zenith is the entry 0 of
    the view angle table and its cosine is 1. *)
Lemma atmcorlamb2_nadir_view_ignores_azimuth_witness :
  0 <= 0 /\
  tts_grid (0 * @NSOLAR_ZEN_VALS lasrc_header + sun_angle_index 0 4 0)%Z = 0 /\
  tts_grid (0 * @NSOLAR_ZEN_VALS lasrc_header + sun_angle_index 0 4 0 +
            @NSOLAR_ZEN_VALS lasrc_header)%Z <> 0 /\
  sample_call 0 0 0.07 1013 0.2 (-1) unit_table unit_table unit_table 0 0 =
  atmcorlamb2 (hdr := lasrc_header) SAT_LANDSAT_8 0 0 1 1 90 0 0.07 0%Z 1013
    tpres_grid aot550nm_grid unit_table unit_table 4 0 4 0 unit_table
    unit_table unit_table zero_table unit_table unit_table tts_grid
    zero_index tts_grid 1 1 unit_table unit_table unit_table unit_table
    unit_table unit_table unit_table 0.2 (-1) 0 0.
Proof.
  assert (Hlow : 0 <= 0) by lra.
  assert (Hidx : sun_angle_index 0 4 0 = 0%Z)
    by (apply sun_angle_index_low; lra).
  assert (Hrow : tts_grid (0 * @NSOLAR_ZEN_VALS lasrc_header +
                           sun_angle_index 0 4 0)%Z = 0).
  { rewrite Hidx. unfold tts_grid. simpl. lra. }
  assert (Hnext : tts_grid (0 * @NSOLAR_ZEN_VALS lasrc_header +
                            sun_angle_index 0 4 0 +
                            @NSOLAR_ZEN_VALS lasrc_header)%Z <> 0).
  { rewrite Hidx. unfold tts_grid. simpl. lra. }
  split; [exact Hlow |]. split; [exact Hrow |]. split; [exact Hnext |].
  exact (atmcorlamb2_nadir_view_ignores_azimuth (hdr := lasrc_header)
           SAT_LANDSAT_8 0 0 1 0 1 90 0 0.07 0%Z 1013 tpres_grid
           aot550nm_grid unit_table unit_table 4 0 4 0 unit_table unit_table
           unit_table zero_table unit_table unit_table tts_grid zero_index
           tts_grid 1 1 unit_table unit_table unit_table unit_table
           unit_table unit_table unit_table 0.2 (-1) 0 0 Hlow Hrow Hnext).
Defined.
